(** * haloissues: a shallow embedding of [haloissues/haloissues.py]

    The module is Python 2.7 code (see the classifiers of [setup.py]): a
    [str] is a byte string, compared byte-wise, and the [re] module's [\w]
    and [\d] are the ASCII classes.  Dictionaries are mutable objects held by
    reference; they live in a store and the code passes references around.
    The CloudPassage SDK (the [cloudpassage] package) is an external
    collaborator: its answers are parameters of the development. *)

From Stdlib Require Import String Ascii List Bool Arith Lia DecimalString.
From Stdlib Require Import Sorting.Sorted Sorting.Permutation OrdersEx.
From stdpp Require Import base decidable option list gmap fin_sets strings.

Local Open Scope string_scope.
Local Open Scope list_scope.

(** ** Python values *)

(** The values a record field may hold: JSON [null] or a string. *)
Inductive val : Type :=
  | VNone
  | VStr (s : string).

#[global] Instance val_eq_dec : EqDecision val.
Proof. solve_decision. Defined.

#[global] Instance val_countable : Countable val.
Proof.
  refine (inj_countable'
            (fun v => match v with VNone => None | VStr s => Some s end)
            (fun o => match o with None => VNone | Some s => VStr s end) _).
  intros []; reflexivity.
Defined.

(** A [dict] with string keys; a reference to one is an index in the store. *)
Abbreviation dict := (gmap string val).
Definition loc := nat.

(** [str(v)], as [str.format] renders a value. *)
Definition str_of_val (v : val) : string :=
  match v with
  | VNone => "None"
  | VStr s => s
  end.

(** [str(n)] for a non-negative integer. *)
Definition str_of_nat (n : nat) : string :=
  NilZero.string_of_uint (Nat.to_uint n).

(** ** Ordering of values (Python 2)

    Two [str] compare byte-wise; [None] is smaller than every string. *)
Definition val_le (a b : val) : bool :=
  match a, b with
  | VNone, _ => true
  | VStr _, VNone => false
  | VStr x, VStr y => String.leb x y
  end.

(** [a > b] *)
Definition val_gt (a b : val) : bool := negb (val_le a b).

(** ** Built-ins *)

(** [sorted(l)]: a stable sort; insertion from the right keeps equal
    elements in their input order. *)
Fixpoint insert_sorted (x : val) (l : list val) : list val :=
  match l with
  | [] => [x]
  | y :: l' => if val_le x y then x :: y :: l' else y :: insert_sorted x l'
  end.

Fixpoint sorted (l : list val) : list val :=
  match l with
  | [] => []
  | x :: l' => insert_sorted x (sorted l')
  end.

(** [needle in s] on strings. *)
Fixpoint contains (needle s : string) : bool :=
  String.prefix needle s ||
  match s with
  | EmptyString => false
  | String _ s' => contains needle s'
  end.

(** [s.split(sep)] for a one-character separator: never empty. *)
Fixpoint split (sep : ascii) (s : string) : list string :=
  match s with
  | EmptyString => [EmptyString]
  | String c s' =>
      if Ascii.eqb c sep then EmptyString :: split sep s'
      else match split sep s' with
           | [] => [String c EmptyString]
           | w :: ws => String c w :: ws
           end
  end.

(** ** Exceptions *)
Inductive exn : Type :=
  | KeyError (k : string)
  | IndexError
  | TypeError
  | ValueError
  | AttributeError
  | CloudPassageError (msg : string)
  | BadRef.

(** [l[-1]] *)
Definition last_item {A : Type} (l : list A) : exn + A :=
  match last l with
  | None => inl IndexError
  | Some x => inr x
  end.

(** ** The world the code runs in

    [heap] is the store of dictionaries, [log] what the logger was given and
    [calls] the requests made to the SDK, oldest first. *)
Inductive level : Type := DEBUG | INFO | ERROR | CRITICAL.

(** The keyword arguments of [Issue.list_all]. *)
Record query : Type := mkQuery {
  q_status : string;
  q_critical : option bool;
  q_state : string;
  q_last_seen_at_gte : option string;
  q_resolved_at_gte : option string
}.

Inductive call : Type :=
  | ListAll (q : query)
  | Describe (issue_id : val)
  | HttpGet (path : string).

Record world : Type := mkWorld {
  heap : list dict;
  log : list (level * string);
  calls : list call
}.

Definition set_heap (h : list dict) (w : world) : world :=
  {| heap := h; log := log w; calls := calls w |}.

(** A computation returns a value or raises; either way it leaves a world. *)
Definition M (A : Type) : Type := world -> (exn + A) * world.

Definition ret {A : Type} (a : A) : M A := fun w => (inr a, w).

Definition raise {A : Type} (e : exn) : M A := fun w => (inl e, w).

Definition bind {A B : Type} (m : M A) (k : A -> M B) : M B :=
  fun w =>
    match m w with
    | (inl e, w') => (inl e, w')
    | (inr a, w') => k a w'
    end.

Notation "'let*' x ':=' c1 'in' c2" := (bind c1 (fun x => c2))
  (at level 10, x name, c1 at level 100, c2 at level 200).

Definition lift {A : Type} (r : exn + A) : M A :=
  match r with
  | inl e => raise e
  | inr a => ret a
  end.

(** [[f(x) for x in l]] *)
Fixpoint mapM {A B : Type} (f : A -> M B) (l : list A) : M (list B) :=
  match l with
  | [] => ret []
  | x :: l' =>
      let* y := f x in let* ys := mapM f l' in ret (y :: ys)
  end.

(** [[x for x in l if p(x)]] *)
Fixpoint filterM {A : Type} (p : A -> M bool) (l : list A) : M (list A) :=
  match l with
  | [] => ret []
  | x :: l' =>
      let* b := p x in
      let* xs := filterM p l' in ret (if b then x :: xs else xs)
  end.

(** [for x in l: body(x)] *)
Fixpoint forM_ {A : Type} (body : A -> M unit) (l : list A) : M unit :=
  match l with
  | [] => ret tt
  | x :: l' => let* _ := body x in forM_ body l'
  end.

(** *** Dictionaries in the store *)

(** Reading through a reference.  [BadRef] is not a Python exception: every
    reference the code holds points into the store. *)
Definition deref (l : loc) : M dict :=
  fun w =>
    match heap w !! l with
    | None => (inl BadRef, w)
    | Some d => (inr d, w)
    end.

(** A new dictionary object. *)
Definition alloc (d : dict) : M loc :=
  fun w => (inr (length (heap w)), set_heap (heap w ++ [d]) w).

(** [d[k]] *)
Definition getitem (l : loc) (k : string) : M val :=
  let* d := deref l in
  match d !! k with
  | None => raise (KeyError k)
  | Some v => ret v
  end.

(** [d[k] = v], in place. *)
Definition setitem (l : loc) (k : string) (v : val) : M unit :=
  let* d := deref l in
  fun w => (inr tt, set_heap (<[l := <[k := v]> d]> (heap w)) w).

(** [d.copy()] *)
Definition dict_copy (l : loc) : M loc :=
  let* d := deref l in alloc d.

(** Modelled from the spec: the [Logger] class imported from [.logger],
    whose methods [debug], [info], [error] and [critical] the code calls.
    The spec gives it as the capability [log(level, message) -> void], a
    diagnostic sink: a call adds one entry to the log and does nothing
    else. *)
Definition logger (lv : level) (msg : string) : M unit :=
  fun w =>
    (inr tt, {| heap := heap w; log := log w ++ [(lv, msg)]; calls := calls w |}).

Definition request (c : call) : M unit :=
  fun w =>
    (inr tt, {| heap := heap w; log := log w; calls := calls w ++ [c] |}).

(** ** Regular expressions

    The part of Python's [re] the module uses: a backtracking matcher with
    greedy repetition and named groups.  [exec r pos s g k] matches [r] at
    offset [pos], where [s] is the rest of the subject, and hands what is
    left to the continuation [k]; the first success is the answer. *)
Inductive regex : Type :=
  | Eps
  | Chr (c : ascii)
  | Class (p : ascii -> bool)
  | Bol
  | Eol
  | Cat (r1 r2 : regex)
  | Star (r : regex)
  | Group (name : string) (r : regex).

Abbreviation groups := (gmap string string).

Definition newline : ascii := "010"%char.

(** [$] without [re.MULTILINE]: the end of the subject, or just before a
    newline that ends it. *)
Definition at_end (s : string) : bool :=
  match s with
  | EmptyString => true
  | String c EmptyString => Ascii.eqb c newline
  | _ => false
  end.

Fixpoint exec (r : regex) (pos : nat) (s : string) (g : groups)
    (k : nat -> string -> groups -> option groups) {struct r} : option groups :=
  match r with
  | Eps => k pos s g
  | Chr c =>
      match s with
      | String a s' => if Ascii.eqb a c then k (S pos) s' g else None
      | EmptyString => None
      end
  | Class p =>
      match s with
      | String a s' => if p a then k (S pos) s' g else None
      | EmptyString => None
      end
  | Bol => if Nat.eqb pos 0 then k pos s g else None
  | Eol => if at_end s then k pos s g else None
  | Cat r1 r2 => exec r1 pos s g (fun pos' s' g' => exec r2 pos' s' g' k)
  | Star r1 =>
      (fix loop (fuel : nat) (pos : nat) (s : string) (g : groups)
         : option groups :=
         match fuel with
         | O => k pos s g
         | S fuel' =>
             match
               exec r1 pos s g
                 (fun pos' s' g' =>
                    if Nat.ltb (String.length s') (String.length s)
                    then loop fuel' pos' s' g' else None)
             with
             | Some m => Some m
             | None => k pos s g
             end
         end) (String.length s) pos s g
  | Group name r1 =>
      exec r1 pos s g
        (fun pos' s' g' => k pos' s' (<[name := substring 0 (pos' - pos) s]> g'))
  end.

(** [re.match(r, s)] *)
Definition re_match (r : regex) (s : string) : option groups :=
  exec r 0 s ∅ (fun _ _ g => Some g).

(** [re.search(r, s)]: the first offset with a match. *)
Fixpoint search_from (r : regex) (pos : nat) (s : string) : option groups :=
  match exec r pos s ∅ (fun _ _ g => Some g) with
  | Some m => Some m
  | None =>
      match s with
      | EmptyString => None
      | String _ s' => search_from r (S pos) s'
      end
  end.

Definition re_search (r : regex) (s : string) : option groups :=
  search_from r 0 s.

(** [m.group(name)] for a group of the pattern: [None] when it took no part
    in the match. *)
Definition group (m : groups) (name : string) : val :=
  match m !! name with
  | Some s => VStr s
  | None => VNone
  end.

Fixpoint lits (s : string) : regex :=
  match s with
  | EmptyString => Eps
  | String c s' => Cat (Chr c) (lits s')
  end.

Definition plus (r : regex) : regex := Cat r (Star r).

Definition cats (rs : list regex) : regex := fold_right Cat Eps rs.

Definition in_range (lo hi c : ascii) : bool :=
  Ascii.leb lo c && Ascii.leb c hi.

(** [[0-9]], which is [\d] on a byte string. *)
Definition is_digit (c : ascii) : bool := in_range "0" "9" c.

(** [[A-Za-z0-9]] *)
Definition is_alnum (c : ascii) : bool :=
  in_range "A" "Z" c || in_range "a" "z" c || in_range "0" "9" c.

(** [\w] on a byte string: [[a-zA-Z0-9_]]. *)
Definition is_word (c : ascii) : bool := is_alnum c || Ascii.eqb c "_".

(** [.] without [re.DOTALL] *)
Definition is_dot (c : ascii) : bool := negb (Ascii.eqb c newline).

(** The two patterns of [parse_finding_url]. *)
Definition rx : regex :=
  cats [Bol; lits "https://"; plus (Class is_word);
        lits ".cloudpassage.com/v"; Class is_digit; lits "/scans/";
        plus (Class is_alnum); lits "/findings/"; plus (Class is_alnum);
        Eol].

Definition rxtractor : regex :=
  cats [Star (Class is_dot); lits "/scans/";
        Group "scan_id" (plus (Class is_alnum)); lits "/findings/";
        Group "finding_id" (plus (Class is_alnum))].

(** ** class HaloIssues: the class methods *)

Definition target_fields : list string :=
  ["created_at"; "resolved_at"; "last_seen_at"].

(** [[issue[x] for x in fields if issue[x] is not None]]: the condition
    reads [issue[x]] first, the element expression reads it again. *)
Fixpoint collect_tstamps (issue : loc) (fields : list string) : M (list val) :=
  match fields with
  | [] => ret []
  | x :: fields' =>
      let* c := getitem issue x in
      match c with
      | VNone => collect_tstamps issue fields'
      | VStr _ =>
          let* v := getitem issue x in
          let* vs := collect_tstamps issue fields' in
          ret (v :: vs)
      end
  end.

(** The body of [time_label_issue], for any list of target fields. *)
Definition time_label_with (fields : list string) (issue : loc) : M loc :=
  let* tstamps := collect_tstamps issue fields in
  let* retval := dict_copy issue in
  let* newest := lift (last_item (sorted tstamps)) in
  let* _ := setitem retval "tstamp" newest in
  ret retval.

Definition time_label_issue (issue : loc) : M loc :=
  time_label_with target_fields issue.

(** The loop of [deduplicate_issues]; [x["id"]] is read for the membership
    test and again for [add]. *)
Fixpoint dedup_loop (issues : list loc) (all_issue_ids : gset val)
    (issues_final : list loc) : M (list loc) :=
  match issues with
  | [] => ret issues_final
  | x :: rest =>
      let* i := getitem x "id" in
      if decide (i ∈ all_issue_ids)
      then dedup_loop rest all_issue_ids issues_final
      else
        let* i' := getitem x "id" in
        dedup_loop rest ({[i']} ∪ all_issue_ids) (issues_final ++ [x])
  end.

Definition deduplicate_issues (issues : list loc) : M (list loc) :=
  dedup_loop issues ∅ [].

Definition targeted_date (sample target : val) : bool :=
  if val_gt sample target then true else false.

(** The two comprehensions of [get_issues_touched_since] that split the
    labeled issues at [timestamp]. *)
Definition issues_filtered (labeled : list loc) (timestamp : string)
    : M (list loc) :=
  filterM (fun x =>
             let* t := getitem x "tstamp" in
             ret (targeted_date t (VStr timestamp))) labeled.

Definition discarded_issues (labeled : list loc) (timestamp : string)
    : M (list loc) :=
  filterM (fun x =>
             let* t := getitem x "tstamp" in
             ret (negb (targeted_date t (VStr timestamp)))) labeled.

(** ** class HaloIssues: the methods that talk to the SDK *)
Section HaloIssues.

(** [self.issues.list_all] with its keyword arguments and [self.issues.describe(issue_id)]
    of [cloudpassage.Issue]: what the API answers, or the exception. *)
Variable issues_list_all : query -> exn + list dict.
Variable issues_describe : val -> exn + dict.

(** [get] of [self.http_helper], the object [__init__] builds with the
    class [cloudpassage.HttpHelper]. *)
Variable HttpHelper_get : string -> exn + dict.

(** [self.describe_issues_threads] *)
Variable describe_issues_threads : nat.

(** A request to the SDK: noted in [calls]; the decoded answer is a new
    object. *)
Definition sdk_call (c : call) (answer : exn + dict) : M loc :=
  let* _ := request c in
  let* d := lift answer in
  alloc d.

Definition list_all (q : query) : M (list loc) :=
  let* _ := request (ListAll q) in
  let* ds := lift (issues_list_all q) in
  mapM alloc ds.

Definition parse_finding_url (url : string) : M (option (val * val)) :=
  match re_match rx url with
  | None =>
      let* _ := logger ERROR ("Unable to parse finding URL: " +:+ url) in
      ret None
  | Some _ =>
      match re_search rxtractor url with
      | None => raise AttributeError
      | Some result =>
          ret (Some (group result "scan_id", group result "finding_id"))
      end
  end.

Definition get_finding (scan_id finding_id : val) : M loc :=
  let url := "/v1/scans/" +:+ str_of_val scan_id +:+ "/findings/"
             +:+ str_of_val finding_id in
  sdk_call (HttpGet url) (HttpHelper_get url).

(** Unpacking [None] into [scan_id, finding_id] raises [TypeError].  In
    the events branch the helper is not [self.http_helper]: the code calls
    [cloudpassage.http_helper], which is the module of the SDK that holds
    the class [HttpHelper], and calling a module raises [TypeError]; the
    [get] of the next line is never reached. *)
Definition describe_finding (finding_url : string) : M (option loc) :=
  if contains "/scans/" finding_url then
    let* parsed := parse_finding_url finding_url in
    match parsed with
    | None => raise TypeError
    | Some (scan_id, finding_id) =>
        let* result := get_finding scan_id finding_id in
        ret (Some result)
    end
  else if contains "/events/" finding_url then
    let* event_id := lift (last_item (split "/" finding_url)) in
    raise TypeError
  else
    let msg := "Unable to determine finding type: " +:+ finding_url in
    let* _ := logger ERROR msg in
    ret None.

Definition get_issue_full (issue_id : val) : M loc :=
  sdk_call (Describe issue_id) (issues_describe issue_id).

Definition updated_query (timestamp : string) (critical_only : bool)
    : query :=
  {| q_status := "active";
     q_critical := if critical_only then Some true else None;
     q_state := "active,inactive,missing,retired";
     q_last_seen_at_gte := Some timestamp;
     q_resolved_at_gte := None |}.

Definition resolved_query (timestamp : string) (critical_only : bool)
    : query :=
  {| q_status := "resolved";
     q_critical := if critical_only then Some true else None;
     q_state := "active,inactive,missing,retired";
     q_last_seen_at_gte := None;
     q_resolved_at_gte := Some timestamp |}.

Definition get_issues_touched_since (timestamp : string)
    (critical_only : bool) : M (list loc) :=
  let* updated := list_all (updated_query timestamp critical_only) in
  let* resolved := list_all (resolved_query timestamp critical_only) in
  let msg := "Active issues: " +:+ str_of_nat (length updated)
             +:+ " Resolved issues: " +:+ str_of_nat (length resolved)
             +:+ "." in
  let* _ := logger INFO msg in
  let all_issues := resolved ++ updated in
  let* labeled := mapM time_label_issue all_issues in
  let* kept := issues_filtered labeled timestamp in
  let* discarded := discarded_issues labeled timestamp in
  let bad := length labeled - length kept in
  let msg := "Discarding " +:+ str_of_nat bad
             +:+ " issues outside of time range" in
  let* _ := if Nat.eqb bad 0 then ret tt else logger INFO msg in
  let* _ :=
    forM_ (fun d_i =>
             let* i := getitem d_i "id" in
             let* t := getitem d_i "tstamp" in
             logger DEBUG
               ("Issue out of tmie range (discarding): ID: "
                +:+ str_of_val i +:+ " Timestamp: " +:+ str_of_val t))
          discarded in
  let* issues_final := deduplicate_issues kept in
  ret issues_final.

(** [ThreadPool(n)] raises [ValueError] when [n] is less than 1.
    [pool.map] hands back the results in the order of its input; the
    answers of the SDK do not depend on the order of the requests, so the
    workers are run one after the other, and the first failure ends the
    run (a real pool may have sent more of the requests by then).
    [elements] fixes one iteration order for the set of ids. *)
Definition describe_all_issues (timestamp : string) (critical_only : bool)
    : M (list loc) :=
  let* touched := get_issues_touched_since timestamp critical_only in
  let* ids := mapM (fun x => getitem x "id") touched in
  let all_issue_ids : gset val := list_to_set ids in
  let msg := "Describing all Halo issues. Concurrency: "
             +:+ str_of_nat describe_issues_threads in
  let* _ := logger DEBUG msg in
  let* _ := if Nat.ltb describe_issues_threads 1 then raise ValueError
            else ret tt in
  let* results := mapM get_issue_full (elements all_issue_ids) in
  let* retval := mapM time_label_issue results in
  ret retval.

End HaloIssues.

Definition world0 : world := {| heap := []; log := []; calls := [] |}.

(** ** The version of the tool

    [get_tool_version] and, in [setup.py], [get_version] search the text of
    [haloissues/__init__.py] with the same pattern; the text read from the
    file is their argument here. *)

(** [\s] on a byte string: [[ \t\n\r\f\v]]. *)
Definition is_space (c : ascii) : bool :=
  Ascii.eqb c " " || in_range "009" "013" c.

(** [\S] *)
Definition is_nonspace (c : ascii) : bool := negb (is_space c).

(** The double quote. *)
Definition dquote : ascii := "034"%char.

(** The pattern; its one group is group 1. *)
Definition version_rx : regex :=
  cats [Star (Class is_space); lits "__version__"; Star (Class is_space);
        Chr "="; Star (Class is_space); Chr dquote;
        Group "1" (plus (Class is_nonspace)); Chr dquote].

(** [rx_compiled.search(text).group(1)]: [search] gives [None] when nothing
    matches, and [None] has no [group]. *)
Definition get_tool_version (init_file : string) : exn + val :=
  match re_search version_rx init_file with
  | None => inl AttributeError
  | Some m => inr (group m "1")
  end.

(** ["Halo-Issues/%s" % self.get_tool_version()] *)
Definition get_integration_string (init_file : string) : exn + string :=
  match get_tool_version init_file with
  | inl e => inl e
  | inr ver => inr ("Halo-Issues/" +:+ str_of_val ver)
  end.

(** [get_version] of [setup.py] *)
Definition get_version (raw_init_file : string) : exn + val :=
  match re_search version_rx raw_init_file with
  | None => inl AttributeError
  | Some m => inr (group m "1")
  end.

(** * Properties *)

(** ** The order on values *)

Lemma str_leb_iff (a b : string) :
  String.leb a b = true <-> a = b \/ String_as_OT.lt a b.
Proof.
  unfold String.leb.
  change (String.compare a b) with (String_as_OT.compare a b).
  destruct (String_as_OT.compare_spec a b) as [E | L | G].
  - split; auto.
  - split; auto.
  - split; [discriminate |].
    intros [E | L].
    + subst. exfalso. exact (StrictOrder_Irreflexive _ G).
    + exfalso. apply (StrictOrder_Irreflexive a).
      exact (StrictOrder_Transitive _ _ _ L G).
Qed.

Lemma str_leb_refl (a : string) : String.leb a a = true.
Proof. apply str_leb_iff. now left. Qed.

Lemma str_leb_trans (a b c : string) :
  String.leb a b = true -> String.leb b c = true -> String.leb a c = true.
Proof.
  rewrite !str_leb_iff.
  intros [-> | L1] [-> | L2]; auto.
  right. exact (StrictOrder_Transitive _ _ _ L1 L2).
Qed.

Lemma str_ltb_negb_leb (a b : string) :
  String.ltb b a = negb (String.leb a b).
Proof.
  unfold String.ltb, String.leb.
  rewrite (String.compare_antisym a b).
  destruct (String.compare b a); reflexivity.
Qed.

Lemma val_le_refl (a : val) : val_le a a = true.
Proof. destruct a; simpl; auto using str_leb_refl. Qed.

Lemma val_le_trans (a b c : val) :
  val_le a b = true -> val_le b c = true -> val_le a c = true.
Proof.
  destruct a, b, c; simpl; try discriminate; auto.
  apply str_leb_trans.
Qed.

Lemma val_le_total (a b : val) : val_le a b = true \/ val_le b a = true.
Proof.
  destruct a, b; simpl; auto.
  apply String.leb_total.
Qed.

Lemma val_le_antisym (a b : val) :
  val_le a b = true -> val_le b a = true -> a = b.
Proof.
  destruct a, b; simpl; try discriminate; auto.
  intros H1 H2. f_equal. now apply String.leb_antisym.
Qed.

(** ** [sorted] sorts, and its last element is the greatest *)

Definition ascending : list val -> Prop :=
  StronglySorted (fun a b => val_le a b = true).

(** [m] is a greatest element of [l]. *)
Definition greatest (m : val) (l : list val) : Prop :=
  In m l /\ forall x, In x l -> val_le x m = true.

Lemma insert_sorted_perm (x : val) (l : list val) :
  Permutation (insert_sorted x l) (x :: l).
Proof.
  induction l as [| y l IH]; simpl.
  - reflexivity.
  - destruct (val_le x y).
    + reflexivity.
    + rewrite IH. apply perm_swap.
Qed.

Lemma sorted_perm (l : list val) : Permutation (sorted l) l.
Proof.
  induction l as [| x l IH]; simpl.
  - reflexivity.
  - rewrite insert_sorted_perm. now constructor.
Qed.

Lemma insert_sorted_ascending (x : val) (l : list val) :
  ascending l -> ascending (insert_sorted x l).
Proof.
  unfold ascending.
  induction l as [| y l IH]; simpl; intros Hl.
  - repeat constructor.
  - inversion Hl as [| ? ? Hl' Hy]; subst.
    destruct (val_le x y) eqn:E.
    + constructor; [assumption |].
      constructor; [assumption |].
      eapply List.Forall_impl; [| exact Hy].
      intros z Hz. simpl in Hz. eapply val_le_trans; eassumption.
    + constructor; [auto |].
      assert (Hyx : val_le y x = true).
      { destruct (val_le_total x y); congruence. }
      rewrite List.Forall_forall. intros z Hz.
      apply (Permutation_in _ (insert_sorted_perm x l)) in Hz.
      destruct Hz as [<- | Hz]; [assumption |].
      rewrite List.Forall_forall in Hy. auto.
Qed.

Lemma sorted_ascending (l : list val) : ascending (sorted l).
Proof.
  induction l as [| x l IH]; simpl.
  - constructor.
  - now apply insert_sorted_ascending.
Qed.

Lemma ascending_last (l : list val) (m : val) :
  ascending l -> last l = Some m -> greatest m l.
Proof.
  unfold ascending, greatest.
  induction l as [| x l IH]; intros Hl Hm; [discriminate |].
  inversion Hl as [| ? ? Hl' Hx]; subst.
  destruct l as [| y l].
  - injection Hm as <-. split; [now left |].
    intros z [<- | []]. apply val_le_refl.
  - change (last (x :: y :: l)) with (last (y :: l)) in Hm.
    destruct (IH Hl' Hm) as [Hin Hmax].
    split; [now right |].
    intros z [<- | Hz]; [| auto].
    rewrite List.Forall_forall in Hx. auto.
Qed.

Lemma sorted_last_greatest (l : list val) (m : val) :
  last (sorted l) = Some m -> greatest m l.
Proof.
  intros Hm.
  destruct (ascending_last _ _ (sorted_ascending l) Hm) as [Hin Hmax].
  split.
  - exact (Permutation_in _ (sorted_perm l) Hin).
  - intros x Hx. apply Hmax.
    exact (Permutation_in _ (Permutation_sym (sorted_perm l)) Hx).
Qed.

Lemma sorted_last_None (l : list val) : last (sorted l) = None -> l = [].
Proof.
  intros H. apply last_None in H.
  apply Permutation_nil. rewrite <- H. apply sorted_perm.
Qed.

Lemma sorted_last_is_Some (l : list val) :
  l <> [] -> exists m, last (sorted l) = Some m.
Proof.
  intros Hl. destruct (last (sorted l)) as [m |] eqn:E; [eauto |].
  now apply sorted_last_None in E.
Qed.

Lemma greatest_unique (m m' : val) (l l' : list val) :
  Permutation l l' -> greatest m l -> greatest m' l' -> m = m'.
Proof.
  intros HP [Hin Hmax] [Hin' Hmax'].
  apply val_le_antisym.
  - apply Hmax'. exact (Permutation_in _ HP Hin).
  - apply Hmax. exact (Permutation_in _ (Permutation_sym HP) Hin').
Qed.

(** The newest timestamp does not depend on the order of the list. *)
Lemma sorted_last_perm (l l' : list val) :
  Permutation l l' -> last (sorted l) = last (sorted l').
Proof.
  intros HP.
  destruct (last (sorted l)) as [m |] eqn:E;
    destruct (last (sorted l')) as [m' |] eqn:E'.
  - f_equal. eapply greatest_unique; eauto using sorted_last_greatest.
  - apply sorted_last_None in E'. subst l'.
    symmetry in HP. apply Permutation_nil in HP. subst l. discriminate.
  - apply sorted_last_None in E. subst l.
    apply Permutation_nil in HP. subst l'. discriminate.
  - reflexivity.
Qed.

(** ** Running computations *)

Lemma bind_ok {A B : Type} (m : M A) (k : A -> M B) (w w' : world) (a : A) :
  m w = (inr a, w') -> bind m k w = k a w'.
Proof. intros H. unfold bind. now rewrite H. Qed.

Lemma bind_err {A B : Type} (m : M A) (k : A -> M B) (w w' : world) (e : exn) :
  m w = (inl e, w') -> bind m k w = (inl e, w').
Proof. intros H. unfold bind. now rewrite H. Qed.

(** A successful [bind] went through a successful first step. *)
Lemma bind_inv {A B : Type} (m : M A) (k : A -> M B) (w w' : world) (b : B) :
  bind m k w = (inr b, w') ->
  exists a w1, m w = (inr a, w1) /\ k a w1 = (inr b, w').
Proof.
  unfold bind. destruct (m w) as [[e | a] w1]; [discriminate | eauto].
Qed.

(** The field [k] of the dictionary at [l], if both exist. *)
Definition field (w : world) (l : loc) (k : string) : option val :=
  match heap w !! l with
  | Some d => d !! k
  | None => None
  end.

Lemma getitem_run (w : world) (l : loc) (d : dict) (k : string) :
  heap w !! l = Some d ->
  getitem l k w =
  (match d !! k with Some v => inr v | None => inl (KeyError k) end, w).
Proof.
  intros H. unfold getitem, bind, deref. rewrite H.
  destruct (d !! k); reflexivity.
Qed.

Lemma getitem_field (w : world) (l : loc) (k : string) (v : val) :
  field w l k = Some v -> getitem l k w = (inr v, w).
Proof.
  unfold field. destruct (heap w !! l) as [d |] eqn:E; [| discriminate].
  intros H. rewrite (getitem_run _ _ _ _ E). now rewrite H.
Qed.

Lemma getitem_inv (w w' : world) (l : loc) (k : string) (v : val) :
  getitem l k w = (inr v, w') -> w' = w /\ field w l k = Some v.
Proof.
  unfold getitem, bind, deref, field.
  destruct (heap w !! l) as [d |]; [| discriminate].
  destruct (d !! k); unfold ret, raise; intros H; inversion H; auto.
Qed.

(** ** [time_label_issue] *)

(** What the comprehension collects from the dictionary [d]. *)
Fixpoint tstamps_of (d : dict) (fields : list string) : exn + list val :=
  match fields with
  | [] => inr []
  | x :: fields' =>
      match d !! x with
      | None => inl (KeyError x)
      | Some VNone => tstamps_of d fields'
      | Some (VStr t) =>
          match tstamps_of d fields' with
          | inl e => inl e
          | inr vs => inr (VStr t :: vs)
          end
      end
  end.

Lemma collect_tstamps_run (w : world) (l : loc) (d : dict) (fields : list string) :
  heap w !! l = Some d ->
  collect_tstamps l fields w = (tstamps_of d fields, w).
Proof.
  intros H. induction fields as [| x fields IH]; simpl; [reflexivity |].
  unfold bind at 1. rewrite (getitem_run _ _ _ _ H).
  destruct (d !! x) as [[| t] |] eqn:E; [assumption | | reflexivity].
  unfold bind. rewrite (getitem_run _ _ _ _ H), E, IH.
  destruct (tstamps_of d fields); reflexivity.
Qed.

Lemma insert_snoc {A : Type} (h : list A) (x y : A) :
  <[length h := y]> (h ++ [x]) = h ++ [y].
Proof.
  rewrite insert_app_r_alt by lia.
  now rewrite Nat.sub_diag.
Qed.

(** The whole of [time_label_issue] on a dictionary of the store: the error
    of the comprehension, or [IndexError] from the empty list after the copy
    was made, or the labeled copy at a new reference. *)
Lemma time_label_with_run (fields : list string) (w : world) (issue : loc)
    (d : dict) :
  heap w !! issue = Some d ->
  time_label_with fields issue w =
  match tstamps_of d fields with
  | inl e => (inl e, w)
  | inr tstamps =>
      match last (sorted tstamps) with
      | None => (inl IndexError, set_heap (heap w ++ [d]) w)
      | Some newest =>
          (inr (length (heap w)),
           set_heap (heap w ++ [<["tstamp" := newest]> d]) w)
      end
  end.
Proof.
  intros H. unfold time_label_with.
  unfold bind at 1. rewrite (collect_tstamps_run _ _ _ _ H).
  destruct (tstamps_of d fields) as [e | tstamps]; [reflexivity |].
  unfold dict_copy, bind, deref, alloc. rewrite H.
  unfold lift, last_item.
  destruct (last (sorted tstamps)) as [newest |]; [| reflexivity].
  unfold ret, setitem, bind, deref, set_heap. simpl.
  rewrite lookup_app_r by lia. rewrite Nat.sub_diag. simpl.
  now rewrite insert_snoc.
Qed.

(** The values of [fields] in [d] that are not [None]. *)
Definition non_null (d : dict) (fields : list string) : list val :=
  List.filter (fun v => negb (bool_decide (v = VNone)))
    (map (fun x => default VNone (d !! x)) fields).

Lemma tstamps_of_present (d : dict) (fields : list string) :
  (forall x, In x fields -> is_Some (d !! x)) ->
  tstamps_of d fields = inr (non_null d fields).
Proof.
  unfold non_null.
  induction fields as [| x fields IH]; intros Hall; [reflexivity |].
  simpl. destruct (Hall x (or_introl eq_refl)) as [v Hv]. rewrite Hv.
  rewrite IH by (intros y Hy; apply Hall; now right).
  destruct v; reflexivity.
Qed.

Lemma tstamps_of_missing (d : dict) (fields : list string) (k : string) :
  In k fields -> d !! k = None ->
  exists k', In k' fields /\ d !! k' = None /\
             tstamps_of d fields = inl (KeyError k').
Proof.
  induction fields as [| x fields IH]; intros Hin Hk; [destruct Hin |].
  simpl. destruct (d !! x) as [v |] eqn:E.
  - destruct Hin as [-> | Hin]; [congruence |].
    destruct (IH Hin Hk) as (k' & Hk' & Hnone & Hrun).
    exists k'. rewrite Hrun. split; [now right |]. split; [assumption |].
    destruct v; reflexivity.
  - exists x. split; [now left |]. auto.
Qed.

Lemma non_null_perm (d : dict) (fields fields' : list string) :
  Permutation fields fields' ->
  Permutation (non_null d fields) (non_null d fields').
Proof.
  intros HP. unfold non_null.
  induction HP; simpl.
  - reflexivity.
  - destruct (negb _); [constructor |]; assumption.
  - repeat destruct (negb _); try reflexivity. apply perm_swap.
  - etransitivity; eassumption.
Qed.

Lemma non_null_In (d : dict) (fields : list string) (v : val) :
  In v (non_null d fields) <->
  v <> VNone /\ exists x, In x fields /\ default VNone (d !! x) = v.
Proof.
  unfold non_null. rewrite List.filter_In, List.in_map_iff.
  rewrite negb_true_iff, bool_decide_eq_false.
  split; intros [H1 H2]; split; auto.
  - destruct H1 as (x & Hx & Hin). eauto.
  - destruct H2 as (x & Hin & Hx). eauto.
Qed.

(** C2: labeling a record whose three timestamp fields are all [None] fails.
    The comprehension collects nothing, the copy is made, and
    [sorted(tstamps)[-1]] on the empty list raises [IndexError]: this is the
    failure the specification calls [MalformedRecordError]. *)
Theorem time_label_issue_all_null (w : world) (issue : loc) (d : dict) :
  heap w !! issue = Some d ->
  d !! "created_at" = Some VNone ->
  d !! "resolved_at" = Some VNone ->
  d !! "last_seen_at" = Some VNone ->
  time_label_issue issue w = (inl IndexError, set_heap (heap w ++ [d]) w).
Proof.
  intros H Hc Hr Hs. unfold time_label_issue.
  rewrite (time_label_with_run _ _ _ _ H).
  unfold target_fields. simpl. now rewrite Hc, Hr, Hs.
Qed.

Definition null_record : dict :=
  {[ "id" := VStr "A"; "created_at" := VNone; "resolved_at" := VNone;
     "last_seen_at" := VNone ]}.

Lemma time_label_issue_all_null_witness :
  time_label_issue 0 (set_heap [null_record] world0) =
  (inl IndexError, set_heap [null_record; null_record] world0).
Proof.
  apply (time_label_issue_all_null (set_heap [null_record] world0) 0
           null_record); reflexivity.
Defined.

(** C10: all three keys must be present.  When one of them is absent from
    the record, labeling raises [KeyError] (for the first absent key in the
    order of [target_fields]) and nothing is allocated, whatever the other
    fields hold. *)
Theorem time_label_issue_missing_key (w : world) (issue : loc) (d : dict)
    (k : string) :
  heap w !! issue = Some d ->
  In k target_fields ->
  d !! k = None ->
  exists k', In k' target_fields /\ d !! k' = None /\
             time_label_issue issue w = (inl (KeyError k'), w).
Proof.
  intros H Hin Hk.
  destruct (tstamps_of_missing d target_fields k Hin Hk)
    as (k' & Hin' & Hnone & Hrun).
  exists k'. split; [assumption |]. split; [assumption |].
  unfold time_label_issue. rewrite (time_label_with_run _ _ _ _ H).
  now rewrite Hrun.
Qed.

Definition record_without_resolved_at : dict :=
  {[ "id" := VStr "A"; "created_at" := VStr "2020-01-01";
     "last_seen_at" := VStr "2020-03-01" ]}.

Lemma time_label_issue_missing_key_witness :
  exists k', In k' target_fields /\
             record_without_resolved_at !! k' = None /\
             time_label_issue 0 (set_heap [record_without_resolved_at] world0)
             = (inl (KeyError k'), set_heap [record_without_resolved_at] world0).
Proof.
  apply (time_label_issue_missing_key
           (set_heap [record_without_resolved_at] world0) 0
           record_without_resolved_at "resolved_at").
  - reflexivity.
  - simpl. auto.
  - reflexivity.
Defined.

(** C3: on a record that holds the three timestamp fields, at least one of
    them not [None], [time_label_issue] returns a new dictionary, the copy
    of the record with [tstamp] added; the store is otherwise as before, so
    the record given is unchanged.  [tstamp] is one of the non-null values
    and no non-null value is greater in the byte-wise order of strings.
    Collecting the fields in another order gives the same result. *)
Theorem time_label_issue_newest (w : world) (issue : loc) (d : dict)
    (c r s : val) :
  heap w !! issue = Some d ->
  d !! "created_at" = Some c ->
  d !! "resolved_at" = Some r ->
  d !! "last_seen_at" = Some s ->
  (exists t, In (VStr t) [c; r; s]) ->
  exists (t : string) (w' : world),
    time_label_issue issue w = (inr (length (heap w)), w') /\
    heap w' = heap w ++ [<["tstamp" := VStr t]> d] /\
    log w' = log w /\ calls w' = calls w /\
    heap w' !! issue = Some d /\
    In (VStr t) [c; r; s] /\
    (forall u, In (VStr u) [c; r; s] -> String.leb u t = true) /\
    (forall fields, Permutation fields target_fields ->
                    time_label_with fields issue w = time_label_issue issue w).
Proof.
  intros H Hc Hr Hs [t0 Ht0].
  assert (Hall : forall fields, Permutation fields target_fields ->
                 forall x, In x fields -> is_Some (d !! x)).
  { intros fields HP x Hx. apply (Permutation_in _ HP) in Hx.
    simpl in Hx. destruct Hx as [<- | [<- | [<- | []]]]; eauto. }
  assert (Hvals : forall v, In v (non_null d target_fields) <->
                            v <> VNone /\ In v [c; r; s]).
  { intros v. rewrite non_null_In. simpl. split.
    - intros [Hv (x & [<- | [<- | [<- | []]]] & Hx)]; split; auto;
        rewrite ?Hc, ?Hr, ?Hs in Hx; simpl in Hx; auto.
    - intros [Hv [<- | [<- | [<- | []]]]]; split; auto.
      + exists "created_at". rewrite Hc. auto.
      + exists "resolved_at". rewrite Hr. auto.
      + exists "last_seen_at". rewrite Hs. auto 6. }
  assert (Hne : non_null d target_fields <> []).
  { intros E. assert (Hin : In (VStr t0) (non_null d target_fields)).
    { apply Hvals. split; [discriminate | assumption]. }
    rewrite E in Hin. destruct Hin. }
  destruct (sorted_last_is_Some _ Hne) as [m Hm].
  destruct (sorted_last_greatest _ _ Hm) as [Hmin Hmax].
  apply Hvals in Hmin. destruct Hmin as [Hmnn Hmin].
  destruct m as [| t]; [congruence |].
  assert (Hrun : time_label_issue issue w =
                 (inr (length (heap w)),
                  set_heap (heap w ++ [<["tstamp" := VStr t]> d]) w)).
  { unfold time_label_issue. rewrite (time_label_with_run _ _ _ _ H).
    rewrite (tstamps_of_present _ _ (Hall _ (Permutation_refl _))).
    now rewrite Hm. }
  exists t, (set_heap (heap w ++ [<["tstamp" := VStr t]> d]) w).
  repeat split; try assumption.
  - simpl. apply lookup_app_l_Some. assumption.
  - intros u Hu.
    assert (Hu' : In (VStr u) (non_null d target_fields)).
    { apply Hvals. split; [discriminate | assumption]. }
    exact (Hmax _ Hu').
  - intros fields HP. rewrite Hrun.
    rewrite (time_label_with_run _ _ _ _ H).
    rewrite (tstamps_of_present _ _ (Hall _ HP)).
    rewrite (sorted_last_perm _ _ (non_null_perm d _ _ HP)).
    now rewrite Hm.
Qed.

Definition dated_record : dict :=
  {[ "id" := VStr "A"; "created_at" := VStr "2020-01-01";
     "resolved_at" := VNone; "last_seen_at" := VStr "2020-03-01" ]}.

Lemma time_label_issue_newest_witness :
  exists (t : string) (w' : world),
    time_label_issue 0 (set_heap [dated_record] world0) = (inr 1, w') /\
    heap w' = [dated_record; <["tstamp" := VStr t]> dated_record] /\
    log w' = [] /\ calls w' = [] /\
    heap w' !! 0 = Some dated_record /\
    In (VStr t) [VStr "2020-01-01"; VNone; VStr "2020-03-01"] /\
    (forall u, In (VStr u) [VStr "2020-01-01"; VNone; VStr "2020-03-01"] ->
               String.leb u t = true) /\
    (forall fields, Permutation fields target_fields ->
                    time_label_with fields 0 (set_heap [dated_record] world0)
                    = time_label_issue 0 (set_heap [dated_record] world0)).
Proof.
  apply (time_label_issue_newest (set_heap [dated_record] world0) 0
           dated_record (VStr "2020-01-01") VNone (VStr "2020-03-01"));
    try reflexivity.
  exists "2020-03-01". simpl. auto.
Defined.

(** ** [deduplicate_issues] *)

Section FirstSeen.

(** The id each reference carries. *)
Variable idf : loc -> val.

(** The references of [l] whose id is not in [seen] and was not met
    earlier in [l]. *)
Fixpoint first_seen (seen : gset val) (l : list loc) : list loc :=
  match l with
  | [] => []
  | x :: rest =>
      if decide (idf x ∈ seen) then first_seen seen rest
      else x :: first_seen ({[idf x]} ∪ seen) rest
  end.

Lemma first_seen_sublist (seen : gset val) (l : list loc) :
  sublist (first_seen seen l) l.
Proof.
  revert seen. induction l as [| x l IH]; intros seen; simpl.
  - constructor.
  - case_decide; [apply sublist_cons | apply sublist_skip]; apply IH.
Qed.

Lemma first_seen_fresh (seen : gset val) (l : list loc) (y : loc) :
  y ∈ first_seen seen l -> idf y ∉ seen.
Proof.
  revert seen. induction l as [| x l IH]; intros seen; simpl.
  - intros Hy. inversion Hy.
  - case_decide as Hx.
    + apply IH.
    + intros Hy. apply elem_of_cons in Hy. destruct Hy as [-> | Hy].
      * assumption.
      * apply IH in Hy. set_solver.
Qed.

Lemma first_seen_NoDup (seen : gset val) (l : list loc) :
  NoDup (map idf (first_seen seen l)).
Proof.
  revert seen. induction l as [| x l IH]; intros seen; simpl.
  - constructor.
  - case_decide as Hx; [apply IH |].
    simpl. constructor; [| apply IH].
    intros Hin. apply list_elem_of_fmap in Hin.
    destruct Hin as (y & Hy & Hin).
    apply first_seen_fresh in Hin. set_solver.
Qed.

Lemma first_seen_covers (seen : gset val) (l : list loc) (x : loc) :
  x ∈ l -> idf x ∉ seen ->
  exists y, y ∈ first_seen seen l /\ idf y = idf x.
Proof.
  revert seen. induction l as [| z l IH]; intros seen Hx Hfresh.
  - inversion Hx.
  - simpl. case_decide as Hz.
    + apply elem_of_cons in Hx. destruct Hx as [-> | Hx]; [contradiction |].
      now apply IH.
    + destruct (decide (idf z = idf x)) as [E | NE].
      * exists z. split; [left | assumption].
      * apply elem_of_cons in Hx. destruct Hx as [-> | Hx]; [congruence |].
        destruct (IH ({[idf z]} ∪ seen) Hx) as (y & Hy & Hid);
          [set_solver |].
        exists y. split; [now right | assumption].
Qed.

Lemma first_seen_first (seen : gset val) (l : list loc) (y : loc) :
  y ∈ first_seen seen l ->
  exists l1 l2, l = l1 ++ y :: l2 /\ forall z, z ∈ l1 -> idf z <> idf y.
Proof.
  revert seen. induction l as [| x l IH]; intros seen; simpl.
  - intros Hy. inversion Hy.
  - case_decide as Hx.
    + intros Hy. pose proof (first_seen_fresh _ _ _ Hy) as Hfresh.
      destruct (IH _ Hy) as (l1 & l2 & -> & Hl1).
      exists (x :: l1), l2. split; [reflexivity |].
      intros z Hz. apply elem_of_cons in Hz.
      destruct Hz as [-> | Hz]; [congruence | auto].
    + intros Hy. apply elem_of_cons in Hy. destruct Hy as [-> | Hy].
      * exists [], l. split; [reflexivity |]. intros z Hz. inversion Hz.
      * pose proof (first_seen_fresh _ _ _ Hy) as Hfresh.
        destruct (IH _ Hy) as (l1 & l2 & -> & Hl1).
        exists (x :: l1), l2. split; [reflexivity |].
        intros z Hz. apply elem_of_cons in Hz.
        destruct Hz as [-> | Hz]; [set_solver | auto].
Qed.

Lemma first_seen_fixed (seen : gset val) (l : list loc) :
  NoDup (map idf l) -> (forall x, x ∈ l -> idf x ∉ seen) ->
  first_seen seen l = l.
Proof.
  revert seen. induction l as [| x l IH]; intros seen Hnd Hfresh.
  - reflexivity.
  - simpl in *. apply NoDup_cons in Hnd. destruct Hnd as [Hx Hnd].
    case_decide as Hin.
    + exfalso. apply (Hfresh x); [left | assumption].
    + f_equal. apply IH; [assumption |].
      intros z Hz. assert (idf z ∉ seen) by (apply Hfresh; now right).
      assert (idf z <> idf x).
      { intros E. apply Hx. rewrite <- E. now apply list_elem_of_fmap_2. }
      set_solver.
Qed.

End FirstSeen.

(** The id of the record at [x] ([None] stands in where there is none). *)
Definition id_of (w : world) (x : loc) : val :=
  default VNone (field w x "id").

Lemma field_id_of (w : world) (x : loc) :
  is_Some (field w x "id") -> field w x "id" = Some (id_of w x).
Proof. intros [v Hv]. unfold id_of. now rewrite Hv. Qed.

(** The loop reads the store and leaves it as it was. *)
Lemma dedup_loop_run (w : world) (issues : list loc) (seen : gset val)
    (acc : list loc) :
  (forall x, x ∈ issues -> is_Some (field w x "id")) ->
  dedup_loop issues seen acc w =
  (inr (acc ++ first_seen (id_of w) seen issues), w).
Proof.
  revert seen acc. induction issues as [| x issues IH]; intros seen acc Hid.
  - simpl. now rewrite app_nil_r.
  - assert (Hx : field w x "id" = Some (id_of w x)).
    { apply field_id_of, Hid. left. }
    assert (Hrest : forall y, y ∈ issues -> is_Some (field w y "id")).
    { intros y Hy. apply Hid. now right. }
    simpl. rewrite (bind_ok _ _ _ _ _ (getitem_field _ _ _ _ Hx)).
    case_decide.
    + now apply IH.
    + rewrite (bind_ok _ _ _ _ _ (getitem_field _ _ _ _ Hx)).
      rewrite IH by assumption. now rewrite <- app_assoc.
Qed.

Lemma deduplicate_issues_run (w : world) (issues : list loc) :
  (forall x, x ∈ issues -> is_Some (field w x "id")) ->
  deduplicate_issues issues w = (inr (first_seen (id_of w) ∅ issues), w).
Proof. intros Hid. unfold deduplicate_issues. now rewrite dedup_loop_run. Qed.

(** C6: on records that each carry an [id], [deduplicate_issues] reads the
    store without changing it and returns a sub-sequence of its input, in
    input order, whose ids are pairwise distinct, that has a record for
    every id of the input, each one the first of the input with that id.
    Run on its own output it returns that output; the output is no longer
    than the input; the empty list gives the empty list. *)
Theorem deduplicate_issues_first_occurrence (w : world) (issues : list loc) :
  (forall x, x ∈ issues -> is_Some (field w x "id")) ->
  exists out : list loc,
    deduplicate_issues issues w = (inr out, w) /\
    sublist out issues /\
    NoDup (map (fun y => field w y "id") out) /\
    (forall x, x ∈ issues ->
       exists y, y ∈ out /\ field w y "id" = field w x "id") /\
    (forall y, y ∈ out ->
       exists l1 l2, issues = l1 ++ y :: l2 /\
                     forall z, z ∈ l1 -> field w z "id" <> field w y "id") /\
    deduplicate_issues out w = (inr out, w) /\
    length out <= length issues /\
    deduplicate_issues [] w = (inr [], w).
Proof.
  intros Hid.
  set (out := first_seen (id_of w) ∅ issues).
  assert (Hsub : sublist out issues) by apply first_seen_sublist.
  assert (Hout : forall y, y ∈ out -> is_Some (field w y "id")).
  { intros y Hy. apply Hid. eapply elem_of_sublist; eassumption. }
  assert (Hnd : NoDup (map (id_of w) out)) by apply first_seen_NoDup.
  exists out. repeat split.
  - now apply deduplicate_issues_run.
  - assumption.
  - assert (E : map (fun y => field w y "id") out = map Some (map (id_of w) out)).
    { rewrite map_map. apply map_ext_in. intros y Hy.
      apply field_id_of, Hout. now apply list_elem_of_In. }
    rewrite E. apply (NoDup_fmap_2 Some). assumption.
  - intros x Hx.
    destruct (first_seen_covers (id_of w) ∅ issues x Hx) as (y & Hy & E);
      [set_solver |].
    exists y. split; [assumption |].
    rewrite (field_id_of w y) by now apply Hout.
    rewrite (field_id_of w x) by now apply Hid.
    now rewrite E.
  - intros y Hy.
    destruct (first_seen_first (id_of w) ∅ issues y Hy) as (l1 & l2 & E & Hl1).
    exists l1, l2. split; [assumption |].
    intros z Hz Heq. apply (Hl1 z Hz).
    rewrite (field_id_of w y) in Heq by now apply Hout.
    rewrite (field_id_of w z) in Heq.
    + congruence.
    + apply Hid. rewrite E. apply elem_of_app. now left.
  - rewrite deduplicate_issues_run by assumption.
    f_equal. f_equal. apply first_seen_fixed; [assumption | set_solver].
  - now apply sublist_length.
Qed.

Definition labeled_first : dict :=
  {[ "id" := VStr "A"; "created_at" := VStr "2020-01-01";
     "resolved_at" := VNone; "last_seen_at" := VStr "2020-03-01";
     "tstamp" := VStr "2020-03-01" ]}.

Definition labeled_second : dict :=
  {[ "id" := VStr "A"; "created_at" := VStr "2020-01-01";
     "resolved_at" := VStr "2020-04-01"; "last_seen_at" := VNone;
     "tstamp" := VStr "2020-04-01" ]}.

Lemma deduplicate_issues_first_occurrence_witness :
  let w := set_heap [labeled_first; labeled_second] world0 in
  exists out : list loc,
    deduplicate_issues [0; 1] w = (inr out, w) /\
    sublist out [0; 1] /\
    NoDup (map (fun y => field w y "id") out) /\
    (forall x, x ∈ [0; 1] ->
       exists y, y ∈ out /\ field w y "id" = field w x "id") /\
    (forall y, y ∈ out ->
       exists l1 l2, [0; 1] = l1 ++ y :: l2 /\
                     forall z, z ∈ l1 -> field w z "id" <> field w y "id") /\
    deduplicate_issues out w = (inr out, w) /\
    length out <= 2 /\
    deduplicate_issues [] w = (inr [], w).
Proof.
  apply (deduplicate_issues_first_occurrence
           (set_heap [labeled_first; labeled_second] world0) [0; 1]).
  intros x Hx. apply elem_of_cons in Hx. destruct Hx as [-> | Hx].
  - eexists. reflexivity.
  - apply list_elem_of_singleton in Hx. subst x. eexists. reflexivity.
Defined.

Definition resolved_record : dict :=
  {[ "id" := VStr "A"; "created_at" := VStr "2020-01-01";
     "resolved_at" := VStr "2020-04-01"; "last_seen_at" := VNone ]}.

(** C7: the two records with id "A" are labeled "2020-03-01" and
    "2020-04-01"; the labeled copies are new dictionaries and the two
    records stay as they were.  Deduplicating the labeled list leaves the
    first one only, the one labeled "2020-03-01". *)
Theorem label_and_deduplicate_example :
  let w := set_heap [dated_record; resolved_record] world0 in
  let w' := set_heap [dated_record; resolved_record;
                      labeled_first; labeled_second] world0 in
  mapM time_label_issue [0; 1] w = (inr [2; 3], w') /\
  field w' 2 "tstamp" = Some (VStr "2020-03-01") /\
  field w' 3 "tstamp" = Some (VStr "2020-04-01") /\
  deduplicate_issues [2; 3] w' = (inr [2], w').
Proof.
  repeat split; vm_compute; reflexivity.
Qed.

(** ** The window filter *)

Lemma filterM_run {A : Type} (p : A -> M bool) (q : A -> bool) (l : list A)
    (w : world) :
  (forall x, x ∈ l -> p x w = (inr (q x), w)) ->
  filterM p l w = (inr (List.filter q l), w).
Proof.
  induction l as [| x l IH]; intros Hp; [reflexivity |].
  simpl. rewrite (bind_ok _ _ _ _ _ (Hp x (list_elem_of_here _ _))).
  rewrite (bind_ok _ _ w w (List.filter q l)).
  - unfold ret. now destruct (q x).
  - apply IH. intros y Hy. apply Hp. now right.
Qed.

Lemma filter_split_perm {A : Type} (q : A -> bool) (l : list A) :
  Permutation (List.filter q l ++ List.filter (fun x => negb (q x)) l) l.
Proof.
  induction l as [| x l IH]; simpl; [reflexivity |].
  destruct (q x); simpl.
  - now constructor.
  - rewrite <- Permutation_middle. now constructor.
Qed.

(** Is the [tstamp] of the record at [x] newer than [timestamp]? *)
Definition newer (w : world) (timestamp : string) (x : loc) : bool :=
  match field w x "tstamp" with
  | Some t => targeted_date t (VStr timestamp)
  | None => false
  end.

Lemma targeted_date_str (t timestamp : string) :
  targeted_date (VStr t) (VStr timestamp) = String.ltb timestamp t.
Proof.
  unfold targeted_date, val_gt. simpl. rewrite str_ltb_negb_leb.
  now destruct (String.leb t timestamp).
Qed.

Lemma issues_filtered_run (w : world) (labeled : list loc) (timestamp : string) :
  (forall x, x ∈ labeled -> is_Some (field w x "tstamp")) ->
  issues_filtered labeled timestamp w =
  (inr (List.filter (newer w timestamp) labeled), w).
Proof.
  intros Hl. apply filterM_run. intros x Hx.
  destruct (Hl x Hx) as [t Ht]. unfold newer. rewrite Ht.
  now rewrite (bind_ok _ _ _ _ _ (getitem_field _ _ _ _ Ht)).
Qed.

Lemma discarded_issues_run (w : world) (labeled : list loc) (timestamp : string) :
  (forall x, x ∈ labeled -> is_Some (field w x "tstamp")) ->
  discarded_issues labeled timestamp w =
  (inr (List.filter (fun x => negb (newer w timestamp x)) labeled), w).
Proof.
  intros Hl. apply filterM_run. intros x Hx.
  destruct (Hl x Hx) as [t Ht]. unfold newer. rewrite Ht.
  now rewrite (bind_ok _ _ _ _ _ (getitem_field _ _ _ _ Ht)).
Qed.

(** C4: the two comprehensions split the labeled records at the cutoff.
    Neither changes the store.  A kept record has [tstamp] strictly greater
    than [timestamp] in the byte-wise order of strings, a discarded one has
    [tstamp] less than or equal to it (so a record whose [tstamp] equals the
    cutoff is discarded), and kept followed by discarded is a permutation of
    the input. *)
Theorem window_filter_partition (w : world) (labeled : list loc)
    (timestamp : string) :
  (forall x, x ∈ labeled -> exists t, field w x "tstamp" = Some (VStr t)) ->
  exists kept discarded : list loc,
    issues_filtered labeled timestamp w = (inr kept, w) /\
    discarded_issues labeled timestamp w = (inr discarded, w) /\
    (forall x, x ∈ kept ->
       exists t, field w x "tstamp" = Some (VStr t) /\
                 String.ltb timestamp t = true) /\
    (forall x, x ∈ discarded ->
       exists t, field w x "tstamp" = Some (VStr t) /\
                 String.leb t timestamp = true) /\
    (forall x, x ∈ labeled -> field w x "tstamp" = Some (VStr timestamp) ->
               x ∈ discarded) /\
    Permutation (kept ++ discarded) labeled.
Proof.
  intros Hl.
  assert (Hsome : forall x, x ∈ labeled -> is_Some (field w x "tstamp")).
  { intros x Hx. destruct (Hl x Hx) as [t Ht]. eauto. }
  exists (List.filter (newer w timestamp) labeled),
         (List.filter (fun x => negb (newer w timestamp x)) labeled).
  split; [now apply issues_filtered_run |].
  split; [now apply discarded_issues_run |].
  split; [| split; [| split]].
  - intros x Hx. apply list_elem_of_In, List.filter_In in Hx.
    destruct Hx as [Hx Hnew]. apply list_elem_of_In in Hx.
    destruct (Hl x Hx) as [t Ht]. exists t. split; [assumption |].
    unfold newer in Hnew. rewrite Ht in Hnew.
    now rewrite targeted_date_str in Hnew.
  - intros x Hx. apply list_elem_of_In, List.filter_In in Hx.
    destruct Hx as [Hx Hnew]. apply list_elem_of_In in Hx.
    destruct (Hl x Hx) as [t Ht]. exists t. split; [assumption |].
    unfold newer in Hnew. rewrite Ht in Hnew.
    rewrite targeted_date_str, str_ltb_negb_leb in Hnew.
    now destruct (String.leb t timestamp).
  - intros x Hx Ht. apply list_elem_of_In, List.filter_In.
    split; [now apply list_elem_of_In |].
    unfold newer. rewrite Ht, targeted_date_str, str_ltb_negb_leb.
    now rewrite str_leb_refl.
  - apply filter_split_perm.
Qed.

Lemma window_filter_partition_witness :
  let w := set_heap [labeled_first; labeled_second] world0 in
  exists kept discarded : list loc,
    issues_filtered [0; 1] "2020-03-01" w = (inr kept, w) /\
    discarded_issues [0; 1] "2020-03-01" w = (inr discarded, w) /\
    (forall x, x ∈ kept ->
       exists t, field w x "tstamp" = Some (VStr t) /\
                 String.ltb "2020-03-01" t = true) /\
    (forall x, x ∈ discarded ->
       exists t, field w x "tstamp" = Some (VStr t) /\
                 String.leb t "2020-03-01" = true) /\
    (forall x, x ∈ [0; 1] -> field w x "tstamp" = Some (VStr "2020-03-01") ->
               x ∈ discarded) /\
    Permutation (kept ++ discarded) [0; 1].
Proof.
  apply (window_filter_partition
           (set_heap [labeled_first; labeled_second] world0) [0; 1]
           "2020-03-01").
  intros x Hx. apply elem_of_cons in Hx. destruct Hx as [-> | Hx].
  - eexists. reflexivity.
  - apply list_elem_of_singleton in Hx. subst x. eexists. reflexivity.
Defined.

(** ** [describe_finding] *)

Section Findings.

Variable HttpHelper_get : string -> exn + dict.

(** What a request for [path] leaves behind: the call is noted, and the
    answer is an exception or a new dictionary. *)
Definition fetched (path : string) (answer : exn + dict) (w : world)
    : (exn + option loc) * world :=
  let w1 := {| heap := heap w; log := log w;
               calls := calls w ++ [HttpGet path] |} in
  match answer with
  | inl e => (inl e, w1)
  | inr d => (inr (Some (length (heap w))), set_heap (heap w ++ [d]) w1)
  end.

(** A URL of neither kind: an error is logged and [None] returned. *)
Lemma describe_finding_unknown (finding_url : string) (w : world) :
  contains "/scans/" finding_url = false ->
  contains "/events/" finding_url = false ->
  describe_finding HttpHelper_get finding_url w =
  (inr None,
   {| heap := heap w;
      log := log w ++ [(ERROR, "Unable to determine finding type: "
                               +:+ finding_url)];
      calls := calls w |}).
Proof.
  intros Hs He. unfold describe_finding. rewrite Hs, He. reflexivity.
Qed.

(** A URL with [/scans/] that the strict pattern rejects:
    [parse_finding_url] logs and returns [None], and unpacking that into
    [scan_id, finding_id] raises. *)
Lemma describe_finding_unparsable (finding_url : string) (w : world) :
  contains "/scans/" finding_url = true ->
  re_match rx finding_url = None ->
  describe_finding HttpHelper_get finding_url w =
  (inl TypeError,
   {| heap := heap w;
      log := log w ++ [(ERROR, "Unable to parse finding URL: "
                               +:+ finding_url)];
      calls := calls w |}).
Proof.
  intros Hs Hrx. unfold describe_finding, parse_finding_url.
  rewrite Hs, Hrx. reflexivity.
Qed.

(** C1, at a URL with [/scans/] that fails the strict pattern: the error
    is logged, but instead of returning [None] the call raises
    [TypeError]. *)
Theorem describe_finding_bad_scan_url_raises (w : world) :
  describe_finding HttpHelper_get
    "https://x.cloudpassage.com/v1/scans/AAA111" w =
  (inl TypeError,
   {| heap := heap w;
      log := log w ++ [(ERROR, "Unable to parse finding URL: "
                               +:+ "https://x.cloudpassage.com/v1/scans/AAA111")];
      calls := calls w |}).
Proof.
  apply describe_finding_unparsable; vm_compute; reflexivity.
Qed.

Definition scan_finding_url : string :=
  "https://x.cloudpassage.com/v1/scans/AAA111/findings/BBB222".

Definition event_finding_url : string :=
  "https://x.cloudpassage.com/v1/events/ZZZ999".

Lemma parse_scan_finding_url (w : world) :
  parse_finding_url scan_finding_url w =
  (inr (Some (VStr "AAA111", VStr "BBB222")), w).
Proof.
  unfold parse_finding_url.
  destruct (re_match rx scan_finding_url) eqn:E;
    [| vm_compute in E; discriminate].
  assert (E2 : re_search rxtractor scan_finding_url =
               Some {[ "scan_id" := "AAA111"; "finding_id" := "BBB222" ]})
    by (vm_compute; reflexivity).
  rewrite E2. reflexivity.
Qed.

(** C8: the scan URL parses to [scan_id] "AAA111" and [finding_id]
    "BBB222", and [describe_finding] requests
    [/v1/scans/AAA111/findings/BBB222], the only request, and gives back
    what it answers.  On the event URL nothing is fetched: the code calls
    the module [cloudpassage.http_helper] where it means the class
    [cloudpassage.HttpHelper], so the call raises [TypeError] before any
    request, with nothing logged and nothing stored. *)
Theorem describe_finding_event_url_not_fetched (w : world) :
  parse_finding_url scan_finding_url w =
  (inr (Some (VStr "AAA111", VStr "BBB222")), w) /\
  describe_finding HttpHelper_get scan_finding_url w =
  fetched "/v1/scans/AAA111/findings/BBB222"
          (HttpHelper_get "/v1/scans/AAA111/findings/BBB222") w /\
  describe_finding HttpHelper_get event_finding_url w = (inl TypeError, w).
Proof.
  split; [apply parse_scan_finding_url |]. split.
  - unfold describe_finding.
    replace (contains "/scans/" scan_finding_url) with true
      by (vm_compute; reflexivity).
    rewrite (bind_ok _ _ _ _ _ (parse_scan_finding_url w)).
    unfold get_finding, sdk_call, fetched, bind, request, lift. simpl.
    destruct (HttpHelper_get _); reflexivity.
  - unfold describe_finding.
    replace (contains "/scans/" event_finding_url) with false
      by (vm_compute; reflexivity).
    replace (contains "/events/" event_finding_url) with true
      by (vm_compute; reflexivity).
    replace (last_item (split "/" event_finding_url))
      with (@inr exn string "ZZZ999") by (vm_compute; reflexivity).
    reflexivity.
Qed.

End Findings.


(** ** The store only grows *)

(** [w'] has every dictionary of [w], unchanged, and maybe more. *)
Definition extends (w w' : world) : Prop :=
  exists h, heap w' = heap w ++ h.

Lemma extends_refl (w : world) : extends w w.
Proof. exists []. now rewrite app_nil_r. Qed.

Lemma extends_trans (w1 w2 w3 : world) :
  extends w1 w2 -> extends w2 w3 -> extends w1 w3.
Proof.
  intros [h1 H1] [h2 H2]. exists (h1 ++ h2).
  now rewrite H2, H1, <- app_assoc.
Qed.

Lemma extends_lookup (w w' : world) (l : loc) (d : dict) :
  extends w w' -> heap w !! l = Some d -> heap w' !! l = Some d.
Proof. intros [h H] Hl. rewrite H. now apply lookup_app_l_Some. Qed.

Lemma extends_field (w w' : world) (l : loc) (k : string) (v : val) :
  extends w w' -> field w l k = Some v -> field w' l k = Some v.
Proof.
  intros Hext. unfold field.
  destruct (heap w !! l) as [d |] eqn:E; [| discriminate].
  now rewrite (extends_lookup _ _ _ _ Hext E).
Qed.

Lemma lookup_snoc_new {A : Type} (h h' : list A) (x : A) :
  (h ++ x :: h') !! length h = Some x.
Proof. rewrite lookup_app_r by lia. now rewrite Nat.sub_diag. Qed.

(** What a successful [time_label_issue] did. *)
Lemma time_label_issue_inv (issue : loc) (w w' : world) (o : loc) :
  time_label_issue issue w = (inr o, w') ->
  exists d m, heap w !! issue = Some d /\ o = length (heap w) /\
              w' = set_heap (heap w ++ [<["tstamp" := m]> d]) w.
Proof.
  unfold time_label_issue. destruct (heap w !! issue) as [d |] eqn:E.
  - rewrite (time_label_with_run _ _ _ _ E).
    destruct (tstamps_of d target_fields) as [e | vs] eqn:Ets; [discriminate |].
    destruct (last (sorted vs)) as [m |]; [| discriminate].
    intros H. inversion H. exists d, m. auto.
  - unfold time_label_with, target_fields. simpl.
    unfold bind, getitem, bind, deref. rewrite E. discriminate.
Qed.

Lemma mapM_time_label_issue_inv (issues : list loc) (w w' : world)
    (out : list loc) :
  mapM time_label_issue issues w = (inr out, w') ->
  extends w w' /\
  Forall2 (fun o x => exists d m, heap w' !! x = Some d /\
                        heap w' !! o = Some (<["tstamp" := m]> d))
          out issues.
Proof.
  revert w out. induction issues as [| x issues IH]; intros w out H.
  - simpl in H. unfold ret in H. inversion H; subst.
    split; [apply extends_refl | constructor].
  - simpl in H. apply bind_inv in H. destruct H as (o & w1 & Hx & H).
    apply bind_inv in H. destruct H as (os & w2 & Hrest & H).
    unfold ret in H. inversion H; subst. clear H.
    destruct (time_label_issue_inv _ _ _ _ Hx) as (d & m & Hd & -> & ->).
    destruct (IH _ _ Hrest) as [Hext HF].
    assert (Hext1 : extends w (set_heap (heap w ++ [<["tstamp" := m]> d]) w)).
    { now exists [<["tstamp" := m]> d]. }
    split; [eapply extends_trans; eassumption |].
    constructor; [| assumption].
    exists d, m. split.
    + eapply extends_lookup; [eapply extends_trans; eassumption | assumption].
    + eapply extends_lookup; [exact Hext |]. simpl. apply lookup_snoc_new.
Qed.

(** ** [describe_all_issues] *)

Section Pipeline.

Variable issues_list_all : query -> exn + list dict.
Variable issues_describe : val -> exn + dict.
Variable describe_issues_threads : nat.

Lemma get_issue_full_inv (i : val) (w w' : world) (r : loc) :
  get_issue_full issues_describe i w = (inr r, w') ->
  exists d, issues_describe i = inr d /\ r = length (heap w) /\
            heap w' = heap w ++ [d].
Proof.
  unfold get_issue_full, sdk_call, bind, request, lift. simpl.
  destruct (issues_describe i) as [e | d]; [discriminate |].
  unfold ret, alloc. simpl. intros H. inversion H. eauto.
Qed.

Lemma mapM_get_issue_full_inv (ids : list val) (w w' : world)
    (results : list loc) :
  mapM (get_issue_full issues_describe) ids w = (inr results, w') ->
  extends w w' /\
  Forall2 (fun r i => exists d, issues_describe i = inr d /\
                                heap w' !! r = Some d)
          results ids.
Proof.
  revert w results. induction ids as [| i ids IH]; intros w results H.
  - simpl in H. unfold ret in H. inversion H; subst.
    split; [apply extends_refl | constructor].
  - simpl in H. apply bind_inv in H. destruct H as (r & w1 & Hi & H).
    apply bind_inv in H. destruct H as (rs & w2 & Hrest & H).
    unfold ret in H. inversion H; subst. clear H.
    destruct (get_issue_full_inv _ _ _ _ Hi) as (d & Hd & -> & Hheap).
    destruct (IH _ _ Hrest) as [Hext HF].
    assert (Hext1 : extends w w1) by now exists [d].
    split; [eapply extends_trans; eassumption |].
    constructor; [| assumption].
    exists d. split; [assumption |].
    eapply extends_lookup; [exact Hext |].
    rewrite Hheap. apply lookup_snoc_new.
Qed.

(** C5: when every record the source gives for an id carries that id, the
    records [describe_all_issues] returns have pairwise distinct ids. *)
Theorem describe_all_issues_distinct_ids (timestamp : string)
    (critical_only : bool) (w w' : world) (retval : list loc) :
  (forall i d, issues_describe i = inr d -> d !! "id" = Some i) ->
  describe_all_issues issues_list_all issues_describe
    describe_issues_threads timestamp critical_only w = (inr retval, w') ->
  exists ids : list val,
    Forall2 (fun x i => field w' x "id" = Some i) retval ids /\
    NoDup ids.
Proof.
  intros Hsame H. unfold describe_all_issues in H.
  apply bind_inv in H. destruct H as (touched & w1 & _ & H).
  apply bind_inv in H. destruct H as (ids & w2 & _ & H).
  apply bind_inv in H. destruct H as (u & w3 & _ & H).
  apply bind_inv in H. destruct H as (u' & w3' & _ & H).
  apply bind_inv in H. destruct H as (results & w4 & Hres & H).
  apply bind_inv in H. destruct H as (out & w5 & Hout & H).
  unfold ret in H. inversion H; subst. clear H.
  exists (elements (list_to_set ids : gset val)).
  split; [| apply NoDup_elements].
  destruct (mapM_get_issue_full_inv _ _ _ _ Hres) as [_ HFres].
  destruct (mapM_time_label_issue_inv _ _ _ _ Hout) as [Hext HFout].
  clear Hres Hout.
  revert HFres. generalize (elements (list_to_set ids : gset val)).
  induction HFout as [| o r out results (d & m & Hr & Ho) HF IH];
    intros js HFres; inversion HFres as [| ? i ? js' (d' & Hd' & Hr') HF']; subst.
  - constructor.
  - constructor; [| now apply IH].
    pose proof (extends_lookup _ _ _ _ Hext Hr') as Hr''.
    assert (d' = d) by congruence. subst d'.
    unfold field. rewrite Ho.
    rewrite lookup_insert_ne by discriminate. now apply Hsame.
Qed.

End Pipeline.

(** ** The pipeline on a source that answers *)

(** The timestamp [time_label_issue] derives from a record, when it can. *)
Definition tstamp_of (d : dict) : option val :=
  match tstamps_of d target_fields with
  | inr tstamps => last (sorted tstamps)
  | inl _ => None
  end.

(** The record with its derived timestamp added. *)
Definition labeled (d : dict) : dict :=
  match tstamp_of d with
  | Some newest => <["tstamp" := newest]> d
  | None => d
  end.

(** The references [xs] point at the dictionaries [ds], in order. *)
Definition holds (w : world) (xs : list loc) (ds : list dict) : Prop :=
  Forall2 (fun x d => heap w !! x = Some d) xs ds.

Lemma holds_extends (w w' : world) (xs : list loc) (ds : list dict) :
  extends w w' -> holds w xs ds -> holds w' xs ds.
Proof.
  intros Hext H. induction H; constructor; auto.
  eapply extends_lookup; eassumption.
Qed.

Lemma holds_same_heap (w w' : world) (xs : list loc) (ds : list dict) :
  heap w' = heap w -> holds w xs ds -> holds w' xs ds.
Proof. unfold holds. intros ->. auto. Qed.

Lemma holds_seq (h ds h' : list dict) (w : world) :
  heap w = h ++ ds ++ h' -> holds w (seq (length h) (length ds)) ds.
Proof.
  revert h. induction ds as [| d ds IH]; intros h Hw; simpl.
  - constructor.
  - constructor.
    + rewrite Hw. apply lookup_snoc_new.
    + replace (S (length h)) with (length (h ++ [d]))
        by (rewrite length_app; simpl; lia).
      apply IH. rewrite Hw, <- app_assoc. reflexivity.
Qed.

Lemma holds_app (w : world) (xs ys : list loc) (ds es : list dict) :
  holds w xs ds -> holds w ys es -> holds w (xs ++ ys) (ds ++ es).
Proof. apply Forall2_app. Qed.

Lemma time_label_issue_ok (w : world) (x : loc) (d : dict) (m : val) :
  heap w !! x = Some d -> tstamp_of d = Some m ->
  time_label_issue x w =
  (inr (length (heap w)), set_heap (heap w ++ [<["tstamp" := m]> d]) w).
Proof.
  intros Hx Hm. unfold time_label_issue.
  rewrite (time_label_with_run _ _ _ _ Hx).
  unfold tstamp_of in Hm.
  destruct (tstamps_of d target_fields); [discriminate |].
  now rewrite Hm.
Qed.

Lemma mapM_time_label_issue_ok (w : world) (xs : list loc) (ds : list dict) :
  holds w xs ds ->
  Forall (fun d => is_Some (tstamp_of d)) ds ->
  mapM time_label_issue xs w =
  (inr (seq (length (heap w)) (length xs)),
   set_heap (heap w ++ map labeled ds) w).
Proof.
  revert w xs.
  induction ds as [| d ds IH]; intros w xs H Hall;
    inversion H as [| x ? xs' ? Hx H']; subst.
  - simpl. unfold ret, set_heap. rewrite app_nil_r. now destruct w.
  - apply Forall_cons in Hall. destruct Hall as [[m Hm] Hall].
    simpl. rewrite (bind_ok _ _ _ _ _ (time_label_issue_ok _ _ _ _ Hx Hm)).
    set (w1 := set_heap (heap w ++ [<["tstamp" := m]> d]) w).
    assert (Hext : extends w w1) by now exists [<["tstamp" := m]> d].
    rewrite (bind_ok _ _ _ _ _ (IH w1 xs' (holds_extends _ _ _ _ Hext H') Hall)).
    unfold ret, w1, set_heap, labeled. simpl. rewrite Hm.
    rewrite length_app. simpl. rewrite Nat.add_1_r.
    now rewrite <- app_assoc.
Qed.

Lemma mapM_alloc (ds : list dict) (w : world) :
  mapM alloc ds w =
  (inr (seq (length (heap w)) (length ds)), set_heap (heap w ++ ds) w).
Proof.
  revert w. induction ds as [| d ds IH]; intros w; simpl.
  - unfold ret, set_heap. rewrite app_nil_r. now destruct w.
  - unfold bind at 1. unfold alloc at 1.
    rewrite (bind_ok _ _ _ _ _ (IH _)).
    unfold ret, set_heap. simpl.
    rewrite length_app. simpl. rewrite Nat.add_1_r.
    now rewrite <- app_assoc.
Qed.

(** The records a list of references carries a given field of. *)
Lemma mapM_getitem (w : world) (k : string) (xs : list loc) (ds : list dict) :
  holds w xs ds ->
  Forall (fun d => is_Some (d !! k)) ds ->
  mapM (fun x => getitem x k) xs w =
  (inr (map (fun d => default VNone (d !! k)) ds), w).
Proof.
  intros H. induction H as [| x d xs ds Hx H IH]; intros Hall.
  - reflexivity.
  - apply Forall_cons in Hall. destruct Hall as [[v Hv] Hall].
    simpl. unfold bind at 1. rewrite (getitem_run _ _ _ _ Hx), Hv.
    rewrite (bind_ok _ _ _ _ _ (IH Hall)). reflexivity.
Qed.

Lemma labeled_id (d : dict) : labeled d !! "id" = d !! "id".
Proof.
  unfold labeled. destruct (tstamp_of d); [| reflexivity].
  now rewrite lookup_insert_ne.
Qed.

Lemma labeled_tstamp (d : dict) (m : val) :
  tstamp_of d = Some m -> labeled d !! "tstamp" = Some m.
Proof. intros H. unfold labeled. rewrite H. apply lookup_insert_eq. Qed.

(** Is the [tstamp] of the record newer than [timestamp]? *)
Definition newer_dict (timestamp : string) (d : dict) : bool :=
  match d !! "tstamp" with
  | Some t => targeted_date t (VStr timestamp)
  | None => false
  end.

(** Is the derived timestamp of the record newer than [timestamp]? *)
Definition fresh (timestamp : string) (d : dict) : bool :=
  match tstamp_of d with
  | Some t => targeted_date t (VStr timestamp)
  | None => false
  end.

Lemma newer_dict_labeled (timestamp : string) (d : dict) :
  is_Some (tstamp_of d) -> newer_dict timestamp (labeled d) = fresh timestamp d.
Proof.
  intros [m Hm]. unfold newer_dict, fresh.
  now rewrite (labeled_tstamp _ _ Hm), Hm.
Qed.

Lemma filter_newer_labeled (timestamp : string) (ds : list dict) :
  Forall (fun d => is_Some (tstamp_of d)) ds ->
  List.filter (newer_dict timestamp) (map labeled ds) =
  map labeled (List.filter (fresh timestamp) ds).
Proof.
  induction 1 as [| d ds Hd _ IH]; [reflexivity |].
  simpl. rewrite (newer_dict_labeled _ _ Hd), IH.
  now destruct (fresh timestamp d).
Qed.

Lemma holds_filter (w : world) (timestamp : string) (xs : list loc)
    (ds : list dict) :
  holds w xs ds ->
  holds w (List.filter (newer w timestamp) xs)
          (List.filter (newer_dict timestamp) ds).
Proof.
  induction 1 as [| x d xs ds Hx _ IH]; [constructor |].
  simpl. replace (newer w timestamp x) with (newer_dict timestamp d).
  - destruct (newer_dict timestamp d); [constructor |]; assumption.
  - unfold newer, newer_dict, field. now rewrite Hx.
Qed.

Lemma holds_elem_of (w : world) (xs : list loc) (ds : list dict) (x : loc) :
  holds w xs ds -> x ∈ xs -> exists d, heap w !! x = Some d /\ d ∈ ds.
Proof.
  induction 1 as [| y d xs ds Hy _ IH]; intros Hx.
  - inversion Hx.
  - apply elem_of_cons in Hx. destruct Hx as [-> | Hx].
    + exists d. split; [assumption | left].
    + destruct (IH Hx) as (d' & Hd' & Hin). exists d'. split; [assumption |].
      now right.
Qed.

Lemma holds_ids (w : world) (xs : list loc) (ds : list dict) :
  holds w xs ds ->
  map (id_of w) xs = map (fun d => default VNone (d !! "id")) ds.
Proof.
  induction 1 as [| x d xs ds Hx _ IH]; [reflexivity |].
  simpl. rewrite IH. f_equal. unfold id_of, field. now rewrite Hx.
Qed.

(** The debug lines for the discarded records: the store is not touched. *)
Lemma forM_log_ok (msg : val -> val -> string) (l : list loc) (w : world) :
  (forall x, x ∈ l ->
     is_Some (field w x "id") /\ is_Some (field w x "tstamp")) ->
  exists w',
    forM_ (fun d_i =>
             let* i := getitem d_i "id" in
             let* t := getitem d_i "tstamp" in
             logger DEBUG (msg i t)) l w = (inr tt, w') /\
    heap w' = heap w /\ calls w' = calls w.
Proof.
  revert w. induction l as [| x l IH]; intros w Hl.
  - exists w. auto.
  - destruct (Hl x (list_elem_of_here _ _)) as [[i Hi] [t Ht]].
    set (w1 := {| heap := heap w; log := log w ++ [(DEBUG, msg i t)];
                  calls := calls w |}).
    destruct (IH w1) as (w' & Hrun & Hheap & Hcalls).
    { intros y Hy. apply Hl. now right. }
    exists w'. split; [| auto].
    simpl. unfold bind at 1.
    rewrite (bind_ok _ _ _ _ _ (getitem_field _ _ _ _ Hi)).
    rewrite (bind_ok _ _ _ _ _ (getitem_field _ _ _ _ Ht)).
    unfold logger at 1. exact Hrun.
Qed.

(** The ids that survive deduplication are the ids that went in. *)
Lemma first_seen_ids (idf : loc -> val) (l : list loc) :
  (list_to_set (map idf (first_seen idf ∅ l)) : gset val) =
  list_to_set (map idf l).
Proof.
  apply set_eq. intros v. rewrite !elem_of_list_to_set, !list_elem_of_fmap.
  split.
  - intros (y & -> & Hy). exists y. split; [reflexivity |].
    eapply elem_of_sublist; [exact Hy | apply first_seen_sublist].
  - intros (x & -> & Hx).
    destruct (first_seen_covers idf ∅ l x Hx) as (y & Hy & E);
      [set_solver |].
    exists y. auto.
Qed.

Section EndToEnd.

Variable issues_list_all : query -> exn + list dict.
Variable issues_describe : val -> exn + dict.
Variable describe_issues_threads : nat.

Lemma list_all_ok (q : query) (ds : list dict) (w : world) :
  issues_list_all q = inr ds ->
  list_all issues_list_all q w =
  (inr (seq (length (heap w)) (length ds)),
   {| heap := heap w ++ ds; log := log w; calls := calls w ++ [ListAll q] |}).
Proof.
  intros H. unfold list_all, bind, request, lift. rewrite H. simpl.
  unfold ret. now rewrite mapM_alloc.
Qed.

(** A record the pipeline can carry through: it has an id and a derived
    timestamp. *)
Definition usable (d : dict) : Prop :=
  is_Some (d !! "id") /\ is_Some (tstamp_of d).

(** When both queries answer and every record is usable,
    [get_issues_touched_since] returns the first record of each id among the
    labeled records that are newer than the cutoff. *)
Lemma get_issues_touched_since_ok (timestamp : string) (critical_only : bool)
    (upd res : list dict) (w : world) :
  issues_list_all (updated_query timestamp critical_only) = inr upd ->
  issues_list_all (resolved_query timestamp critical_only) = inr res ->
  Forall usable (res ++ upd) ->
  exists (kept : list loc) (w' : world),
    get_issues_touched_since issues_list_all timestamp critical_only w =
    (inr (first_seen (id_of w') ∅ kept), w') /\
    holds w' kept (map labeled (List.filter (fresh timestamp) (res ++ upd))).
Proof.
  intros Hupd Hres Husable.
  assert (Hts : Forall (fun d => is_Some (tstamp_of d)) (res ++ upd)).
  { eapply Forall_impl; [exact Husable |]. now intros d [_ H]. }
  unfold get_issues_touched_since.
  rewrite (bind_ok _ _ _ _ _ (list_all_ok _ _ w Hupd)).
  set (w1 := {| heap := heap w ++ upd; log := log w;
                calls := calls w ++ [ListAll (updated_query timestamp critical_only)] |}).
  rewrite (bind_ok _ _ _ _ _ (list_all_ok _ _ w1 Hres)).
  set (w2 := {| heap := heap w1 ++ res; log := log w1;
                calls := calls w1 ++ [ListAll (resolved_query timestamp critical_only)] |}).
  unfold bind at 1. unfold logger at 1.
  set (w3 := {| heap := heap w2; log := _; calls := calls w2 |}).
  set (updated := seq (length (heap w)) (length upd)).
  set (resolved := seq (length (heap w1)) (length res)).
  assert (Hall : holds w3 (resolved ++ updated) (res ++ upd)).
  { apply holds_app.
    - apply (holds_seq (heap w1) res []). simpl. now rewrite app_nil_r.
    - apply (holds_seq (heap w) upd res). simpl. now rewrite <- app_assoc. }
  rewrite (bind_ok _ _ _ _ _ (mapM_time_label_issue_ok _ _ _ Hall Hts)).
  set (w4 := set_heap (heap w3 ++ map labeled (res ++ upd)) w3).
  set (lab := seq (length (heap w3)) (length (resolved ++ updated))).
  assert (Hlab : holds w4 lab (map labeled (res ++ upd))).
  { unfold lab. replace (length (resolved ++ updated))
      with (length (map labeled (res ++ upd))).
    - apply (holds_seq (heap w3) _ []). simpl. now rewrite app_nil_r.
    - rewrite length_map. symmetry. exact (Forall2_length _ _ _ Hall). }
  assert (Hfields : forall x, x ∈ lab ->
            is_Some (field w4 x "id") /\ is_Some (field w4 x "tstamp")).
  { intros x Hx. destruct (holds_elem_of _ _ _ _ Hlab Hx) as (d & Hd & Hin).
    apply list_elem_of_fmap in Hin. destruct Hin as (d0 & -> & Hin).
    rewrite Forall_forall in Husable.
    destruct (Husable d0 Hin) as [Hid [m Hm]].
    unfold field. rewrite Hd. split.
    - now rewrite labeled_id.
    - rewrite (labeled_tstamp _ _ Hm). eauto. }
  rewrite (bind_ok _ _ _ _ _
             (issues_filtered_run w4 lab timestamp
                (fun x Hx => proj2 (Hfields x Hx)))).
  rewrite (bind_ok _ _ _ _ _
             (discarded_issues_run w4 lab timestamp
                (fun x Hx => proj2 (Hfields x Hx)))).
  set (kept := List.filter (newer w4 timestamp) lab).
  set (discarded := List.filter (fun x => negb (newer w4 timestamp x)) lab).
  assert (Hkept : holds w4 kept
            (map labeled (List.filter (fresh timestamp) (res ++ upd)))).
  { rewrite <- filter_newer_labeled by assumption. now apply holds_filter. }
  set (bad := length lab - length kept).
  assert (Hstep : exists w5,
            (if Nat.eqb bad 0 then ret tt
             else logger INFO ("Discarding " +:+ str_of_nat bad
                               +:+ " issues outside of time range")) w4
            = (inr tt, w5) /\ heap w5 = heap w4 /\ calls w5 = calls w4).
  { destruct (Nat.eqb bad 0); eexists; split; reflexivity || (split; reflexivity). }
  destruct Hstep as (w5 & Hrun5 & Hheap5 & _).
  rewrite (bind_ok _ _ _ _ _ Hrun5).
  destruct (forM_log_ok
              (fun i t => "Issue out of tmie range (discarding): ID: "
                          +:+ str_of_val i +:+ " Timestamp: " +:+ str_of_val t)
              discarded w5) as (w6 & Hrun6 & Hheap6 & _).
  { intros x Hx. apply list_elem_of_In, List.filter_In in Hx.
    destruct Hx as [Hx _]. apply list_elem_of_In in Hx.
    unfold field. rewrite Hheap5. apply (Hfields x Hx). }
  rewrite (bind_ok _ _ _ _ _ Hrun6).
  assert (Hheap : heap w6 = heap w4) by congruence.
  assert (Hkept6 : holds w6 kept
            (map labeled (List.filter (fresh timestamp) (res ++ upd))))
    by (eapply holds_same_heap; eassumption).
  assert (Hids : forall x, x ∈ kept -> is_Some (field w6 x "id")).
  { intros x Hx. apply list_elem_of_In, List.filter_In in Hx.
    destruct Hx as [Hx _]. apply list_elem_of_In in Hx.
    unfold field. rewrite Hheap. apply (Hfields x Hx). }
  exists kept, w6. split; [| assumption].
  now rewrite (bind_ok _ _ _ _ _ (deduplicate_issues_run w6 kept Hids)).
Qed.

(** The id a record carries ([None] stands in where there is none). *)
Definition idv (d : dict) : val := default VNone (d !! "id").

Lemma mapM_getitem_id (w : world) (xs : list loc) :
  (forall x, x ∈ xs -> is_Some (field w x "id")) ->
  mapM (fun x => getitem x "id") xs w = (inr (map (id_of w) xs), w).
Proof.
  induction xs as [| x xs IH]; intros Hxs; [reflexivity |].
  simpl.
  rewrite (bind_ok _ _ _ _ _
             (getitem_field _ _ _ _
                (field_id_of w x (Hxs x (list_elem_of_here _ _))))).
  rewrite (bind_ok _ _ w w (map (id_of w) xs)); [reflexivity |].
  apply IH. intros y Hy. apply Hxs. now right.
Qed.

Lemma mapM_get_issue_full_ok (ids : list val) (w : world) :
  (forall i, i ∈ ids ->
     exists d, issues_describe i = inr d /\ is_Some (tstamp_of d)) ->
  exists (ds : list dict) (w' : world),
    mapM (get_issue_full issues_describe) ids w =
    (inr (seq (length (heap w)) (length ids)), w') /\
    heap w' = heap w ++ ds /\ length ds = length ids /\
    Forall (fun d => is_Some (tstamp_of d)) ds.
Proof.
  revert w. induction ids as [| i ids IH]; intros w Hids.
  - exists [], w. repeat split; [now rewrite app_nil_r | constructor].
  - destruct (Hids i (list_elem_of_here _ _)) as (d & Hd & Hts).
    set (w1 := set_heap (heap w ++ [d])
                 {| heap := heap w; log := log w;
                    calls := calls w ++ [Describe i] |}).
    destruct (IH w1) as (ds & w' & Hrun & Hheap & Hlen & Hall).
    { intros j Hj. apply Hids. now right. }
    exists (d :: ds), w'. split; [| split; [| split]].
    + assert (Hi : get_issue_full issues_describe i w =
                     (inr (length (heap w)), w1)).
      { unfold get_issue_full, sdk_call, bind, request, lift.
        now rewrite Hd. }
      simpl. rewrite (bind_ok _ _ _ _ _ Hi), (bind_ok _ _ _ _ _ Hrun).
      unfold ret, w1. simpl. rewrite length_app. simpl.
      now rewrite Nat.add_1_r.
    + rewrite Hheap. simpl. now rewrite <- app_assoc.
    + simpl. now rewrite Hlen.
    + now constructor.
Qed.

(** A pool with at least one worker is built. *)
Lemma pool_ok (threads : nat) (w : world) :
  0 < threads ->
  (if Nat.ltb threads 1 then raise ValueError else ret tt) w = (inr tt, w).
Proof.
  intros H. destruct (Nat.ltb_spec threads 1); [lia | reflexivity].
Qed.

(** When there is a worker and the source answers with usable records,
    [describe_all_issues] returns one labeled record for each id that is
    left after the window filter. *)
Lemma describe_all_issues_ok (timestamp : string) (critical_only : bool)
    (upd res : list dict) (w : world) :
  0 < describe_issues_threads ->
  issues_list_all (updated_query timestamp critical_only) = inr upd ->
  issues_list_all (resolved_query timestamp critical_only) = inr res ->
  Forall usable (res ++ upd) ->
  (forall d i, d ∈ res ++ upd -> d !! "id" = Some i ->
     exists d', issues_describe i = inr d' /\ is_Some (tstamp_of d')) ->
  exists (retval : list loc) (w' : world),
    describe_all_issues issues_list_all issues_describe
      describe_issues_threads timestamp critical_only w = (inr retval, w') /\
    length retval =
    size (list_to_set
            (map idv (List.filter (fresh timestamp) (res ++ upd))) : gset val) /\
    (forall x, x ∈ retval -> is_Some (field w' x "tstamp")).
Proof.
  intros Hthreads Hupd Hres Husable Hdescribe.
  destruct (get_issues_touched_since_ok timestamp critical_only upd res w
              Hupd Hres Husable) as (kept & w1 & Hrun1 & Hkept).
  unfold describe_all_issues. rewrite (bind_ok _ _ _ _ _ Hrun1).
  assert (Hkid : forall x, x ∈ kept -> is_Some (field w1 x "id")).
  { intros x Hx. destruct (holds_elem_of _ _ _ _ Hkept Hx) as (d & Hd & Hin).
    apply list_elem_of_fmap in Hin. destruct Hin as (d0 & -> & Hin).
    apply list_elem_of_In, List.filter_In in Hin. destruct Hin as [Hin _].
    rewrite Forall_forall in Husable.
    destruct (Husable d0 (proj2 (list_elem_of_In _ _) Hin)) as [Hid _].
    unfold field. rewrite Hd. now rewrite labeled_id. }
  assert (Htid : forall x, x ∈ first_seen (id_of w1) ∅ kept ->
                            is_Some (field w1 x "id")).
  { intros x Hx. apply Hkid.
    eapply elem_of_sublist; [exact Hx | apply first_seen_sublist]. }
  rewrite (bind_ok _ _ _ _ _ (mapM_getitem_id w1 _ Htid)).
  rewrite first_seen_ids, (holds_ids _ _ _ Hkept), map_map.
  rewrite (map_ext _ idv) by (intros d; apply (f_equal (default VNone)), labeled_id).
  set (ids := elements (list_to_set
                (map idv (List.filter (fresh timestamp) (res ++ upd))) : gset val)).
  unfold bind at 1. unfold logger at 1.
  set (w2 := {| heap := heap w1; log := _; calls := calls w1 |}).
  rewrite (bind_ok _ _ _ _ _ (pool_ok _ w2 Hthreads)).
  destruct (mapM_get_issue_full_ok ids w2) as (ds & w3 & Hrun3 & Hheap3 & Hlen3 & Hall3).
  { intros i Hi. unfold ids in Hi. apply elem_of_elements in Hi.
    apply elem_of_list_to_set, list_elem_of_fmap in Hi.
    destruct Hi as (d & -> & Hd).
    apply list_elem_of_In, List.filter_In in Hd. destruct Hd as [Hd _].
    apply list_elem_of_In in Hd.
    rewrite Forall_forall in Husable. destruct (Husable d Hd) as [[i Hi] _].
    apply (Hdescribe d); [assumption |]. unfold idv. now rewrite Hi. }
  rewrite (bind_ok _ _ _ _ _ Hrun3).
  assert (Hres3 : holds w3 (seq (length (heap w2)) (length ids)) ds).
  { rewrite <- Hlen3. apply (holds_seq (heap w2) ds []).
    now rewrite app_nil_r. }
  rewrite (bind_ok _ _ _ _ _ (mapM_time_label_issue_ok _ _ _ Hres3 Hall3)).
  eexists _, _. split; [reflexivity |]. split.
  - now rewrite !length_seq.
  - intros x Hx.
    assert (Hout : holds (set_heap (heap w3 ++ map labeled ds) w3)
                     (seq (length (heap w3))
                          (length (seq (length (heap w2)) (length ids))))
                     (map labeled ds)).
    { replace (length (seq (length (heap w2)) (length ids)))
        with (length (map labeled ds))
        by (rewrite length_map, length_seq; assumption).
      apply (holds_seq (heap w3) _ []). simpl. now rewrite app_nil_r. }
    destruct (holds_elem_of _ _ _ _ Hout Hx) as (d & Hd & Hin).
    apply list_elem_of_fmap in Hin. destruct Hin as (d0 & -> & Hin).
    rewrite Forall_forall in Hall3. destruct (Hall3 d0 Hin) as [m Hm].
    unfold field. rewrite Hd, (labeled_tstamp _ _ Hm). eauto.
Qed.

End EndToEnd.

(** ** The end-to-end example: 3 updated, 2 resolved, 1 shared id, 1 stale *)

Lemma filter_all {A : Type} (q : A -> bool) (l : list A) :
  Forall (fun x => q x = true) l -> List.filter q l = l.
Proof.
  induction 1 as [| x l Hx _ IH]; [reflexivity |].
  simpl. now rewrite Hx, IH.
Qed.

Lemma filter_fresh_drop (timestamp : string) (l1 l2 : list dict) (stale : dict) :
  fresh timestamp stale = false ->
  Forall (fun d => fresh timestamp d = true) (l1 ++ l2) ->
  List.filter (fresh timestamp) (l1 ++ stale :: l2) = l1 ++ l2.
Proof.
  intros Hstale Hall. apply Forall_app in Hall. destruct Hall as [H1 H2].
  rewrite List.filter_app. simpl. rewrite Hstale.
  now rewrite !filter_all.
Qed.

Lemma NoDup_count_le_1 (l : list val) (v : val) :
  NoDup l -> count_occ val_eq_dec l v <= 1.
Proof. intros H. now apply (proj1 (List.NoDup_count_occ val_eq_dec l)), NoDup_ListNoDup. Qed.

(** Five records, four ids; dropping a record whose id is not the shared
    one leaves three ids. *)
Lemma three_ids_left (upd res l1 l2 : list dict) (stale : dict) (shared : val) :
  length upd = 3 -> length res = 2 ->
  NoDup (map idv upd) -> NoDup (map idv res) ->
  (forall j, j ∈ map idv upd /\ j ∈ map idv res <-> j = shared) ->
  res ++ upd = l1 ++ stale :: l2 ->
  idv stale <> shared ->
  size (list_to_set (map idv (l1 ++ l2)) : gset val) = 3.
Proof.
  intros Hlu Hlr Hndu Hndr Hshared Hsplit Hstale.
  set (A := list_to_set (map idv upd) : gset val).
  set (B := list_to_set (map idv res) : gset val).
  remember (idv stale) as k eqn:Ek.
  assert (HA : size A = 3)
    by (unfold A; rewrite size_list_to_set, length_map; assumption).
  assert (HB : size B = 2)
    by (unfold B; rewrite size_list_to_set, length_map; assumption).
  assert (Hids : map idv res ++ map idv upd =
                 map idv l1 ++ k :: map idv l2).
  { rewrite <- map_app, Hsplit, map_app. simpl. now rewrite Ek. }
  assert (Hcount : count_occ val_eq_dec (map idv l1) k
                   + count_occ val_eq_dec (map idv l2) k = 0).
  { assert (H1 := NoDup_count_le_1 _ k Hndu).
    assert (H2 := NoDup_count_le_1 _ k Hndr).
    assert (H3 : count_occ val_eq_dec (map idv res ++ map idv upd) k
                 = S (count_occ val_eq_dec (map idv l1) k
                      + count_occ val_eq_dec (map idv l2) k)).
    { rewrite Hids, count_occ_app. simpl.
      destruct (val_eq_dec k k); [lia | congruence]. }
    rewrite count_occ_app in H3.
    destruct (Nat.eq_dec (count_occ val_eq_dec (map idv upd) k) 0) as [E | E];
      [lia |].
    destruct (Nat.eq_dec (count_occ val_eq_dec (map idv res) k) 0) as [E' | E'];
      [lia |].
    exfalso. apply Hstale. apply Hshared. split; apply list_elem_of_In.
    - apply (count_occ_In val_eq_dec). lia.
    - apply (count_occ_In val_eq_dec). lia. }
  assert (Hk1 : k ∉ map idv l1).
  { intros H. apply list_elem_of_In, (count_occ_In val_eq_dec) in H. lia. }
  assert (Hk2 : k ∉ map idv l2).
  { intros H. apply list_elem_of_In, (count_occ_In val_eq_dec) in H. lia. }
  assert (Hset : (list_to_set (map idv (l1 ++ l2)) : gset val)
                 = (A ∪ B) ∖ {[k]}).
  { apply set_eq. intros v.
    rewrite elem_of_difference, elem_of_union, not_elem_of_singleton.
    unfold A, B. rewrite !elem_of_list_to_set, map_app, elem_of_app.
    assert (Hv : v ∈ map idv res ++ map idv upd <->
                 v ∈ map idv l1 ++ k :: map idv l2) by now rewrite Hids.
    rewrite elem_of_app in Hv. rewrite elem_of_app, elem_of_cons in Hv.
    split.
    - intros Hin. split; [| intros ->; tauto]. tauto.
    - intros [Hin Hne]. tauto. }
  assert (HAB : B ∖ A = B ∖ {[shared]}).
  { apply set_eq. intros v.
    rewrite !elem_of_difference, not_elem_of_singleton.
    unfold A, B. rewrite !elem_of_list_to_set. specialize (Hshared v).
    split; intros [H1 H2]; split; auto.
    - intros ->. apply H2. tauto.
    - intros H. apply H2. tauto. }
  assert (Hin_shared : shared ∈ B).
  { unfold B. rewrite elem_of_list_to_set. now apply (Hshared shared). }
  assert (Hin_k : k ∈ A ∪ B).
  { unfold A, B. rewrite elem_of_union, !elem_of_list_to_set.
    assert (Hv : k ∈ map idv res ++ map idv upd).
    { rewrite Hids, elem_of_app, elem_of_cons. auto. }
    rewrite elem_of_app in Hv. tauto. }
  rewrite Hset.
  rewrite size_difference by (apply singleton_subseteq_l; assumption).
  rewrite size_singleton, size_union_alt, HAB.
  rewrite size_difference by (apply singleton_subseteq_l; assumption).
  rewrite size_singleton, HA, HB. reflexivity.
Qed.

(** The source of the end-to-end example: the "updated" query answers 3
    records and the "resolved" query 2, all usable, with distinct ids
    inside each answer; [shared] is the one id the answers have in common;
    [stale] is the one record whose derived timestamp is not newer than the
    cutoff; and the source describes every listed id with a record that can
    be labeled. *)
Record mocked_source (issues_list_all : query -> exn + list dict)
    (issues_describe : val -> exn + dict) (timestamp : string)
    (critical_only : bool) (upd res : list dict) (shared : val)
    (stale : dict) : Prop := {
  src_updated :
    issues_list_all (updated_query timestamp critical_only) = inr upd;
  src_resolved :
    issues_list_all (resolved_query timestamp critical_only) = inr res;
  src_three_updated : length upd = 3;
  src_two_resolved : length res = 2;
  src_usable : Forall usable (res ++ upd);
  src_updated_distinct : NoDup (map idv upd);
  src_resolved_distinct : NoDup (map idv res);
  src_one_shared :
    forall j, j ∈ map idv upd /\ j ∈ map idv res <-> j = shared;
  src_one_stale :
    exists l1 l2, res ++ upd = l1 ++ stale :: l2 /\
                  fresh timestamp stale = false /\
                  Forall (fun d => fresh timestamp d = true) (l1 ++ l2);
  src_describe :
    forall d i, d ∈ res ++ upd -> d !! "id" = Some i ->
      exists d', issues_describe i = inr d' /\ is_Some (tstamp_of d')
}.

(** C9, amended: on such a source and with at least one worker, when the
    stale record is not one of the two records that share an id,
    [describe_all_issues] returns exactly 3 records and each carries a
    [tstamp]. *)
Theorem describe_all_issues_end_to_end
    (issues_list_all : query -> exn + list dict)
    (issues_describe : val -> exn + dict) (describe_issues_threads : nat)
    (timestamp : string) (critical_only : bool) (upd res : list dict)
    (shared : val) (stale : dict) (w : world) :
  mocked_source issues_list_all issues_describe timestamp critical_only
    upd res shared stale ->
  0 < describe_issues_threads ->
  idv stale <> shared ->
  exists (retval : list loc) (w' : world),
    describe_all_issues issues_list_all issues_describe
      describe_issues_threads timestamp critical_only w = (inr retval, w') /\
    length retval = 3 /\
    (forall x, x ∈ retval -> is_Some (field w' x "tstamp")).
Proof.
  intros [Hupd Hres Hlu Hlr Husable Hndu Hndr Hshared
            (l1 & l2 & Hsplit & Hstale & Hfresh) Hdescribe] Hthreads Hother.
  destruct (describe_all_issues_ok issues_list_all issues_describe
              describe_issues_threads timestamp critical_only upd res w
              Hthreads Hupd Hres Husable Hdescribe)
    as (retval & w' & Hrun & Hlen & Hts).
  exists retval, w'. split; [assumption |]. split; [| assumption].
  rewrite Hlen, Hsplit, (filter_fresh_drop _ _ _ _ Hstale Hfresh).
  exact (three_ids_left upd res l1 l2 stale shared
           Hlu Hlr Hndu Hndr Hshared Hsplit Hother).
Qed.

(** *** A source on which the count is 4

    Issue "A" is listed as updated, last seen after the cutoff, and as
    resolved, resolved exactly at the cutoff. *)

Definition issue (i : string) (created resolved last_seen : val) : dict :=
  {[ "id" := VStr i; "created_at" := created; "resolved_at" := resolved;
     "last_seen_at" := last_seen ]}.

Definition cx_updated : list dict :=
  [issue "A" (VStr "2020-01-01") VNone (VStr "2020-03-01");
   issue "B" (VStr "2020-01-01") VNone (VStr "2020-03-02");
   issue "C" (VStr "2020-01-01") VNone (VStr "2020-03-03")].

Definition cx_stale : dict :=
  issue "A" (VStr "2020-01-01") (VStr "2020-02-01") VNone.

Definition cx_resolved : list dict :=
  [cx_stale; issue "D" (VStr "2020-01-01") (VStr "2020-03-04") VNone].

Definition cx_list_all (q : query) : exn + list dict :=
  if String.eqb (q_status q) "active" then inr cx_updated
  else inr cx_resolved.

Definition cx_describe (i : val) : exn + dict :=
  inr {[ "id" := i; "created_at" := VStr "2020-01-01";
         "resolved_at" := VNone; "last_seen_at" := VStr "2020-03-05" ]}.

Lemma cx_is_mocked_source :
  mocked_source cx_list_all cx_describe "2020-02-01" true
    cx_updated cx_resolved (VStr "A") cx_stale.
Proof.
  split.
  - reflexivity.
  - reflexivity.
  - reflexivity.
  - reflexivity.
  - unfold cx_resolved, cx_updated. simpl app.
    repeat (apply List.Forall_cons;
            [split; eexists; vm_compute; reflexivity |]).
    apply List.Forall_nil.
  - apply (bool_decide_unpack _). vm_compute. reflexivity.
  - apply (bool_decide_unpack _). vm_compute. reflexivity.
  - intros j.
    replace (map idv cx_updated) with [VStr "A"; VStr "B"; VStr "C"]
      by (vm_compute; reflexivity).
    replace (map idv cx_resolved) with [VStr "A"; VStr "D"]
      by (vm_compute; reflexivity).
    rewrite !elem_of_cons, !elem_of_nil. split.
    + intros [[-> | [-> | [-> | []]]] [H | [H | []]]];
        try reflexivity; discriminate.
    + intros ->. auto.
  - exists [], (issue "D" (VStr "2020-01-01") (VStr "2020-03-04") VNone
                :: cx_updated).
    split; [reflexivity |]. split; [vm_compute; reflexivity |].
    unfold cx_updated. simpl app.
    repeat (apply List.Forall_cons; [vm_compute; reflexivity |]).
    apply List.Forall_nil.
  - intros d i _ _. eexists. split; [reflexivity |].
    eexists. vm_compute. reflexivity.
Qed.

(** C9 as stated fails: the source above is as the claim describes, and
    [describe_all_issues] returns 4 records, not 3. *)
Lemma describe_all_issues_end_to_end_counterexample :
  mocked_source cx_list_all cx_describe "2020-02-01" true
    cx_updated cx_resolved (VStr "A") cx_stale /\
  fst (describe_all_issues cx_list_all cx_describe 5 "2020-02-01" true world0)
  = inr [14; 15; 16; 17] /\
  ~ (exists (retval : list loc) (w' : world),
       describe_all_issues cx_list_all cx_describe 5 "2020-02-01" true world0
       = (inr retval, w') /\ length retval = 3).
Proof.
  assert (Hrun : fst (describe_all_issues cx_list_all cx_describe 5
                        "2020-02-01" true world0) = inr [14; 15; 16; 17])
    by (vm_compute; reflexivity).
  split; [apply cx_is_mocked_source |]. split; [assumption |].
  intros (retval & w' & H & Hlen). rewrite H in Hrun. clear H.
  change (inr retval = (inr [14; 15; 16; 17] : exn + list loc)) in Hrun.
  injection Hrun as ->. discriminate Hlen.
Qed.

(** *** A source on which the count is 3

    Issue "A" is listed as updated and as resolved, both after the cutoff;
    issue "D" was resolved before the cutoff. *)

Definition ok_stale : dict :=
  issue "D" (VStr "2020-01-01") (VStr "2020-01-20") VNone.

Definition ok_resolved : list dict :=
  [issue "A" (VStr "2020-01-01") (VStr "2020-03-04") VNone; ok_stale].

Definition ok_list_all (q : query) : exn + list dict :=
  if String.eqb (q_status q) "active" then inr cx_updated
  else inr ok_resolved.

Lemma ok_is_mocked_source :
  mocked_source ok_list_all cx_describe "2020-02-01" true
    cx_updated ok_resolved (VStr "A") ok_stale.
Proof.
  split.
  - reflexivity.
  - reflexivity.
  - reflexivity.
  - reflexivity.
  - unfold ok_resolved, cx_updated. simpl app.
    repeat (apply List.Forall_cons;
            [split; eexists; vm_compute; reflexivity |]).
    apply List.Forall_nil.
  - apply (bool_decide_unpack _). vm_compute. reflexivity.
  - apply (bool_decide_unpack _). vm_compute. reflexivity.
  - intros j.
    replace (map idv cx_updated) with [VStr "A"; VStr "B"; VStr "C"]
      by (vm_compute; reflexivity).
    replace (map idv ok_resolved) with [VStr "A"; VStr "D"]
      by (vm_compute; reflexivity).
    rewrite !elem_of_cons, !elem_of_nil. split.
    + intros [[-> | [-> | [-> | []]]] [H | [H | []]]];
        try reflexivity; discriminate.
    + intros ->. auto.
  - exists [issue "A" (VStr "2020-01-01") (VStr "2020-03-04") VNone],
           cx_updated.
    split; [reflexivity |]. split; [vm_compute; reflexivity |].
    unfold cx_updated. simpl app.
    repeat (apply List.Forall_cons; [vm_compute; reflexivity |]).
    apply List.Forall_nil.
  - intros d i _ _. eexists. split; [reflexivity |].
    eexists. vm_compute. reflexivity.
Qed.

Lemma describe_all_issues_end_to_end_witness :
  exists (retval : list loc) (w' : world),
    describe_all_issues ok_list_all cx_describe 5 "2020-02-01" true world0
    = (inr retval, w') /\
    length retval = 3 /\
    (forall x, x ∈ retval -> is_Some (field w' x "tstamp")).
Proof.
  apply (describe_all_issues_end_to_end ok_list_all cx_describe 5
           "2020-02-01" true cx_updated ok_resolved (VStr "A") ok_stale
           world0).
  - exact ok_is_mocked_source.
  - lia.
  - intros H. vm_compute in H. discriminate H.
Defined.

Lemma describe_all_issues_distinct_ids_witness :
  exists ids : list val,
    Forall2 (fun x i =>
               field (snd (describe_all_issues cx_list_all cx_describe 5
                             "2020-02-01" true world0)) x "id" = Some i)
            [14; 15; 16; 17] ids /\
    NoDup ids.
Proof.
  apply (describe_all_issues_distinct_ids cx_list_all cx_describe 5
           "2020-02-01" true world0
           (snd (describe_all_issues cx_list_all cx_describe 5
                   "2020-02-01" true world0))
           [14; 15; 16; 17]).
  - intros i d H. injection H as <-. vm_compute. reflexivity.
  - vm_compute. reflexivity.
Defined.

(** * More of the module *)

(** ** How the matcher runs *)

(** Every character of [s] is in the class [p]. *)
Fixpoint all_chars (p : ascii -> bool) (s : string) : bool :=
  match s with
  | EmptyString => true
  | String c s' => p c && all_chars p s'
  end.

(** [s] does not go on with a character of the class [p]. *)
Definition stops (p : ascii -> bool) (s : string) : bool :=
  match s with
  | EmptyString => true
  | String c _ => negb (p c)
  end.

(** The loop of [Star], for any way [step] of matching the body once. *)
Definition star_loop
    (step : nat -> string -> groups ->
            (nat -> string -> groups -> option groups) -> option groups)
    (k : nat -> string -> groups -> option groups)
    : nat -> nat -> string -> groups -> option groups :=
  fix loop (fuel : nat) (pos : nat) (s : string) (g : groups)
    : option groups :=
    match fuel with
    | O => k pos s g
    | S fuel' =>
        match
          step pos s g
            (fun pos' s' g' =>
               if Nat.ltb (String.length s') (String.length s)
               then loop fuel' pos' s' g' else None)
        with
        | Some m => Some m
        | None => k pos s g
        end
    end.

(** A starred class, greedy: the longest run first, then shorter ones. *)
Fixpoint star_class (p : ascii -> bool) (pos : nat) (s : string) (g : groups)
    (k : nat -> string -> groups -> option groups) : option groups :=
  match s with
  | EmptyString => k pos s g
  | String c s' =>
      if p c then
        match star_class p (S pos) s' g k with
        | Some m => Some m
        | None => k pos s g
        end
      else k pos s g
  end.

Lemma exec_Star (r : regex) (pos : nat) (s : string) (g : groups)
    (k : nat -> string -> groups -> option groups) :
  exec (Star r) pos s g k = star_loop (exec r) k (String.length s) pos s g.
Proof. reflexivity. Qed.

Lemma star_loop_class (p : ascii -> bool)
    (k : nat -> string -> groups -> option groups) (fuel pos : nat)
    (s : string) (g : groups) :
  String.length s <= fuel ->
  star_loop (exec (Class p)) k fuel pos s g = star_class p pos s g k.
Proof.
  revert pos s g. induction fuel as [| fuel IH]; intros pos s g Hlen.
  - destruct s; [reflexivity | simpl in Hlen; lia].
  - destruct s as [| c s]; [reflexivity |].
    simpl. destruct (p c); [| reflexivity].
    replace (Nat.ltb (String.length s) (S (String.length s))) with true
      by (symmetry; apply Nat.ltb_lt; lia).
    simpl in Hlen. rewrite <- (IH (S pos) s g) by lia. reflexivity.
Qed.

Lemma exec_star_class (p : ascii -> bool) (pos : nat) (s : string)
    (g : groups) (k : nat -> string -> groups -> option groups) :
  exec (Star (Class p)) pos s g k = star_class p pos s g k.
Proof. rewrite exec_Star. now apply star_loop_class. Qed.

Lemma star_class_stop (p : ascii -> bool) (pos : nat) (s : string)
    (g : groups) (k : nat -> string -> groups -> option groups) :
  stops p s = true -> star_class p pos s g k = k pos s g.
Proof.
  destruct s as [| c s]; [reflexivity |]. simpl.
  now destruct (p c).
Qed.

Lemma star_class_app (p : ascii -> bool) (run rest : string) (pos : nat)
    (g m : groups) (k : nat -> string -> groups -> option groups) :
  all_chars p run = true ->
  star_class p (pos + String.length run) rest g k = Some m ->
  star_class p pos (run +:+ rest) g k = Some m.
Proof.
  revert pos. induction run as [| c run IH]; intros pos Hall H.
  - simpl in *. now rewrite Nat.add_0_r in H.
  - simpl in Hall. apply andb_true_iff in Hall. destruct Hall as [Hc Hall].
    simpl. rewrite Hc. rewrite (IH (S pos) Hall); [reflexivity |].
    simpl in H. now rewrite Nat.add_succ_r in H.
Qed.

Lemma star_class_inv (p : ascii -> bool) (pos : nat) (s : string)
    (g m : groups) (k : nat -> string -> groups -> option groups) :
  star_class p pos s g k = Some m ->
  exists run rest, s = run +:+ rest /\ all_chars p run = true /\
                   k (pos + String.length run) rest g = Some m.
Proof.
  revert pos. induction s as [| c s IH]; intros pos H.
  - exists "", "". simpl in *. now rewrite Nat.add_0_r.
  - simpl in H. destruct (p c) eqn:Hc.
    + destruct (star_class p (S pos) s g k) as [m' |] eqn:E.
      * inversion H; subst m'. destruct (IH _ E) as (run & rest & -> & Hall & Hk).
        exists (String c run), rest. simpl. rewrite Hc, Hall.
        now rewrite Nat.add_succ_r.
      * exists "", (String c s). simpl. now rewrite Nat.add_0_r.
    + exists "", (String c s). simpl. now rewrite Nat.add_0_r.
Qed.

(** When the rest of the pattern matches at no later offset, the star takes
    nothing. *)
Lemma star_class_only_here (p : ascii -> bool) (pos : nat) (s : string)
    (g : groups) (k : nat -> string -> groups -> option groups) :
  (forall x1 x2, s = x1 +:+ x2 -> x1 <> "" ->
                 k (pos + String.length x1) x2 g = None) ->
  star_class p pos s g k = k pos s g.
Proof.
  revert pos. induction s as [| c s IH]; intros pos Hlater; [reflexivity |].
  simpl. destruct (p c); [| reflexivity].
  rewrite IH.
  - assert (H1 : k (S pos) s g = None).
    { rewrite <- (Nat.add_1_r pos).
      apply (Hlater (String c "") s); [reflexivity | discriminate]. }
    now rewrite H1.
  - intros x1 x2 -> Hx1.
    replace (S pos + String.length x1)
      with (pos + String.length (String c x1)) by (simpl; lia).
    now apply Hlater.
Qed.

Lemma exec_lits (l rest : string) (pos : nat) (g : groups)
    (k : nat -> string -> groups -> option groups) :
  exec (lits l) pos (l +:+ rest) g k = k (pos + String.length l) rest g.
Proof.
  revert pos. induction l as [| c l IH]; intros pos; simpl.
  - now rewrite Nat.add_0_r.
  - rewrite Ascii.eqb_refl, IH. now rewrite Nat.add_succ_r.
Qed.

Lemma exec_lits_inv (l s : string) (pos : nat) (g m : groups)
    (k : nat -> string -> groups -> option groups) :
  exec (lits l) pos s g k = Some m ->
  exists rest, s = l +:+ rest /\ k (pos + String.length l) rest g = Some m.
Proof.
  revert pos s. induction l as [| c l IH]; intros pos s H; simpl in H.
  - exists s. now rewrite Nat.add_0_r.
  - destruct s as [| a s]; [discriminate |].
    destruct (Ascii.eqb a c) eqn:E; [| discriminate].
    apply Ascii.eqb_eq in E. subst a.
    destruct (IH _ _ H) as (rest & -> & Hk).
    exists rest. simpl. now rewrite Nat.add_succ_r.
Qed.

(** One or more characters of a class, greedy. *)
Lemma exec_plus_class (p : ascii -> bool) (pos : nat) (s : string)
    (g : groups) (k : nat -> string -> groups -> option groups) :
  exec (plus (Class p)) pos s g k =
  match s with
  | EmptyString => None
  | String c s' => if p c then star_class p (S pos) s' g k else None
  end.
Proof.
  destruct s as [| c s]; [reflexivity |].
  change (exec (plus (Class p)) pos (String c s) g k)
    with (if p c then exec (Star (Class p)) (S pos) s g k else None).
  now rewrite exec_star_class.
Qed.

Lemma exec_plus_class_inv (p : ascii -> bool) (pos : nat) (s : string)
    (g m : groups) (k : nat -> string -> groups -> option groups) :
  exec (plus (Class p)) pos s g k = Some m ->
  exists run rest, s = run +:+ rest /\ run <> "" /\ all_chars p run = true /\
                   k (pos + String.length run) rest g = Some m.
Proof.
  rewrite exec_plus_class. destruct s as [| c s]; [discriminate |].
  destruct (p c) eqn:Hc; [| discriminate].
  intros H. destruct (star_class_inv _ _ _ _ _ _ H) as (run & rest & -> & Hall & Hk).
  exists (String c run), rest. simpl. rewrite Hc, Hall.
  rewrite Nat.add_succ_r. repeat split; [discriminate | assumption].
Qed.

(** ** Strings *)

Lemma append_cons (x : ascii) (a b : string) :
  String x a +:+ b = String x (a +:+ b).
Proof. reflexivity. Qed.

Lemma append_assoc (a b c : string) : (a +:+ b) +:+ c = a +:+ (b +:+ c).
Proof.
  induction a as [| x a IH]; [reflexivity |].
  now rewrite !append_cons, IH.
Qed.

Lemma append_nil_r (a : string) : a +:+ "" = a.
Proof.
  induction a as [| x a IH]; [reflexivity |]. now rewrite append_cons, IH.
Qed.

Lemma length_append (a b : string) :
  String.length (a +:+ b) = String.length a + String.length b.
Proof.
  induction a as [| x a IH]; [reflexivity |].
  rewrite append_cons. simpl. now rewrite IH.
Qed.

Lemma substring_prefix (a b : string) :
  substring 0 (String.length a) (a +:+ b) = a.
Proof.
  induction a as [| x a IH].
  - now destruct b.
  - rewrite append_cons. simpl. now rewrite IH.
Qed.

Lemma prefix_append (n s : string) : String.prefix n (n +:+ s) = true.
Proof.
  induction n as [| x n IH]; [now destruct s |].
  rewrite append_cons. simpl.
  destruct (ascii_dec x x); [assumption | congruence].
Qed.

Lemma prefix_inv (n s : string) :
  String.prefix n s = true -> exists rest, s = n +:+ rest.
Proof.
  revert s. induction n as [| x n IH]; intros s H.
  - exists s. reflexivity.
  - destruct s as [| y s]; [discriminate |]. simpl in H.
    destruct (ascii_dec x y); [| discriminate]. subst y.
    destruct (IH _ H) as [rest ->]. now exists rest.
Qed.

Lemma contains_prefix (n s : string) :
  String.prefix n s = true -> contains n s = true.
Proof. intros H. destruct s; cbn [contains]; now rewrite H. Qed.

Lemma contains_append (pre n post : string) :
  contains n (pre +:+ n +:+ post) = true.
Proof.
  induction pre as [| c pre IH].
  - change ("" +:+ n +:+ post) with (n +:+ post).
    apply contains_prefix, prefix_append.
  - rewrite append_cons. cbn [contains]. rewrite IH. apply orb_true_r.
Qed.

Lemma contains_inv (n s : string) :
  contains n s = true -> exists pre post, s = pre +:+ n +:+ post.
Proof.
  induction s as [| c s IH]; cbn [contains].
  - rewrite orb_false_r. intros H. apply prefix_inv in H. now exists "".
  - intros H. apply orb_true_iff in H. destruct H as [H | H].
    + apply prefix_inv in H. now exists "".
    + destruct (IH H) as (pre & post & ->). now exists (String c pre), post.
Qed.

(** ** Steps of the matcher *)

Lemma exec_Cat (r1 r2 : regex) (pos : nat) (s : string) (g : groups)
    (k : nat -> string -> groups -> option groups) :
  exec (Cat r1 r2) pos s g k =
  exec r1 pos s g (fun pos' s' g' => exec r2 pos' s' g' k).
Proof. reflexivity. Qed.

Lemma exec_Chr (c : ascii) (pos : nat) (s : string) (g : groups)
    (k : nat -> string -> groups -> option groups) :
  exec (Chr c) pos (String c s) g k = k (S pos) s g.
Proof. simpl. now rewrite Ascii.eqb_refl. Qed.

Lemma exec_Chr_inv (c : ascii) (pos : nat) (s : string) (g m : groups)
    (k : nat -> string -> groups -> option groups) :
  exec (Chr c) pos s g k = Some m ->
  exists rest, s = String c rest /\ k (S pos) rest g = Some m.
Proof.
  destruct s as [| a s]; [discriminate |]. simpl.
  destruct (Ascii.eqb a c) eqn:E; [| discriminate].
  apply Ascii.eqb_eq in E. subst a. eauto.
Qed.

Lemma exec_Group (name : string) (r : regex) (pos : nat) (s : string)
    (g : groups) (k : nat -> string -> groups -> option groups) :
  exec (Group name r) pos s g k =
  exec r pos s g
    (fun pos' s' g' => k pos' s' (<[name := substring 0 (pos' - pos) s]> g')).
Proof. reflexivity. Qed.

Lemma search_from_here (r : regex) (pos : nat) (s : string) (m : groups) :
  exec r pos s ∅ (fun _ _ g => Some g) = Some m ->
  search_from r pos s = Some m.
Proof. intros H. destruct s; simpl; now rewrite H. Qed.

(** ** The version pattern *)

Lemma is_nonspace_dquote : is_nonspace dquote = true.
Proof. reflexivity. Qed.

Lemma stops_nonspace_no_dquote (rest : string) (pos : nat) (g : groups)
    (k : nat -> string -> groups -> option groups) :
  stops is_nonspace rest = true -> exec (Chr dquote) pos rest g k = None.
Proof.
  destruct rest as [| a rest]; [reflexivity |]. simpl. intros H.
  destruct (Ascii.eqb a dquote) eqn:E; [| reflexivity].
  apply Ascii.eqb_eq in E. subst a. discriminate.
Qed.

(** The quoted part: the group takes the longest run of non-blanks that a
    quote ends. *)
Lemma version_group_run (pos : nat) (v rest : string) (g : groups) :
  v <> "" -> all_chars is_nonspace v = true ->
  stops is_nonspace rest = true ->
  exec (Cat (Group "1" (plus (Class is_nonspace))) (Cat (Chr dquote) Eps))
       pos (v +:+ String dquote rest) g (fun _ _ g' => Some g')
  = Some (<["1" := v]> g).
Proof.
  intros Hne Hall Hstop.
  destruct v as [| c v]; [congruence |].
  simpl in Hall. apply andb_true_iff in Hall. destruct Hall as [Hc Hall].
  rewrite exec_Cat, exec_Group, exec_plus_class, append_cons, Hc.
  apply star_class_app; [assumption |].
  cbn [star_class]. rewrite is_nonspace_dquote.
  rewrite star_class_stop by assumption.
  rewrite exec_Cat, stops_nonspace_no_dquote by assumption.
  rewrite exec_Cat, exec_Chr. cbn [exec].
  replace (S pos + String.length v - pos) with (String.length (String c v))
    by (simpl; lia).
  rewrite <- append_cons. now rewrite substring_prefix.
Qed.

(** The text of an [__init__.py] that starts with the version: blanks,
    [__version__], blanks, [=], blanks, the version between double quotes,
    and whatever follows. *)
Definition version_text (sp0 sp1 sp2 v rest : string) : string :=
  sp0 +:+ "__version__" +:+ sp1 +:+ "=" +:+ sp2
      +:+ String dquote (v +:+ String dquote rest).

Lemma version_rx_run (sp0 sp1 sp2 v rest : string) :
  all_chars is_space sp0 = true -> all_chars is_space sp1 = true ->
  all_chars is_space sp2 = true ->
  v <> "" -> all_chars is_nonspace v = true ->
  stops is_nonspace rest = true ->
  re_search version_rx (version_text sp0 sp1 sp2 v rest) = Some {[ "1" := v ]}.
Proof.
  intros H0 H1 H2 Hne Hv Hrest.
  apply search_from_here.
  unfold version_rx, version_text, cats. cbn [fold_right].
  rewrite exec_Cat, exec_star_class.
  apply star_class_app; [assumption |].
  rewrite star_class_stop by reflexivity.
  rewrite exec_Cat, exec_lits.
  rewrite exec_Cat, exec_star_class.
  apply star_class_app; [assumption |].
  rewrite star_class_stop by reflexivity.
  change ("=" +:+ sp2 +:+ String dquote (v +:+ String dquote rest))
    with (String "=" (sp2 +:+ String dquote (v +:+ String dquote rest))).
  rewrite exec_Cat, exec_Chr.
  rewrite exec_Cat, exec_star_class.
  apply star_class_app; [assumption |].
  rewrite star_class_stop by reflexivity.
  rewrite exec_Cat, exec_Chr.
  rewrite version_group_run by assumption.
  reflexivity.
Qed.

(** X1: the version is read back.  From a text that starts with
    [__version__ = "v"], with any blanks around the name and the [=], a
    version [v] of one or more non-blank characters and a blank or the end
    of the text after the closing quote, [get_tool_version] and [get_version]
    return [v], and the integration string is [Halo-Issues/v]. *)
Theorem get_tool_version_reads_back (sp0 sp1 sp2 v rest : string) :
  all_chars is_space sp0 = true -> all_chars is_space sp1 = true ->
  all_chars is_space sp2 = true ->
  v <> "" -> all_chars is_nonspace v = true ->
  stops is_nonspace rest = true ->
  get_tool_version (version_text sp0 sp1 sp2 v rest) = inr (VStr v) /\
  get_version (version_text sp0 sp1 sp2 v rest) = inr (VStr v) /\
  get_integration_string (version_text sp0 sp1 sp2 v rest)
  = inr ("Halo-Issues/" +:+ v).
Proof.
  intros H0 H1 H2 Hne Hv Hrest.
  pose proof (version_rx_run sp0 sp1 sp2 v rest H0 H1 H2 Hne Hv Hrest) as Hrun.
  unfold get_integration_string, get_tool_version, get_version.
  rewrite Hrun. repeat split.
Qed.

Lemma get_tool_version_reads_back_witness :
  get_tool_version (version_text "" " " " " "1.0.2" (String newline "")) = inr (VStr "1.0.2") /\
  get_version (version_text "" " " " " "1.0.2" (String newline "")) = inr (VStr "1.0.2") /\
  get_integration_string (version_text "" " " " " "1.0.2" (String newline ""))
  = inr "Halo-Issues/1.0.2".
Proof.
  apply (get_tool_version_reads_back "" " " " " "1.0.2" (String newline ""));
    try reflexivity.
  discriminate.
Defined.

Lemma contains_tail (n : string) (c : ascii) (s : string) :
  contains n (String c s) = false -> contains n s = false.
Proof. cbn [contains]. intros H. apply orb_false_iff in H. tauto. Qed.

Lemma contains_suffix (n a b : string) :
  contains n (a +:+ b) = false -> contains n b = false.
Proof.
  induction a as [| c a IH]; [auto |].
  rewrite append_cons. intros H. apply IH. eapply contains_tail, H.
Qed.

Lemma version_rx_needs_name (pos : nat) (s : string) :
  contains "__version__" s = false ->
  exec version_rx pos s ∅ (fun _ _ g => Some g) = None.
Proof.
  intros Hno.
  destruct (exec version_rx pos s ∅ (fun _ _ g => Some g)) as [m |] eqn:E;
    [| reflexivity].
  exfalso. unfold version_rx, cats in E. cbn [fold_right] in E.
  rewrite exec_Cat, exec_star_class in E.
  apply star_class_inv in E. destruct E as (run & rest & -> & _ & E).
  rewrite exec_Cat in E. apply exec_lits_inv in E.
  destruct E as (rest' & -> & _).
  apply contains_suffix in Hno.
  rewrite (contains_prefix _ _ (prefix_append "__version__" rest')) in Hno.
  discriminate.
Qed.

Lemma search_version_rx_needs_name (pos : nat) (s : string) :
  contains "__version__" s = false ->
  search_from version_rx pos s = None.
Proof.
  revert pos. induction s as [| c s IH]; intros pos Hno.
  - cbn [search_from]. now rewrite version_rx_needs_name.
  - cbn [search_from]. rewrite version_rx_needs_name by assumption.
    apply IH. eapply contains_tail, Hno.
Qed.

(** X2: a text in which [__version__] does not occur has no version:
    [search] finds nothing and [.group(1)] on its [None] raises
    [AttributeError], from [get_tool_version], from [get_version] and from
    [get_integration_string]. *)
Theorem get_tool_version_without_name (init_file : string) :
  contains "__version__" init_file = false ->
  get_tool_version init_file = inl AttributeError /\
  get_version init_file = inl AttributeError /\
  get_integration_string init_file = inl AttributeError.
Proof.
  intros Hno.
  unfold get_integration_string, get_tool_version, get_version, re_search.
  rewrite (search_version_rx_needs_name 0 _ Hno). repeat split.
Qed.

Lemma get_tool_version_without_name_witness :
  get_tool_version "version = 1" = inl AttributeError /\
  get_version "version = 1" = inl AttributeError /\
  get_integration_string "version = 1" = inl AttributeError.
Proof.
  apply (get_tool_version_without_name "version = 1"). reflexivity.
Defined.

(** ** The patterns of [parse_finding_url] *)

Lemma all_chars_app (p : ascii -> bool) (a b : string) :
  all_chars p (a +:+ b) = all_chars p a && all_chars p b.
Proof.
  induction a as [| c a IH]; [reflexivity |].
  rewrite append_cons. simpl. now rewrite IH, andb_assoc.
Qed.

Lemma all_chars_impl (p q : ascii -> bool) (s : string) :
  (forall c, p c = true -> q c = true) ->
  all_chars p s = true -> all_chars q s = true.
Proof.
  intros Hpq. induction s as [| c s IH]; [reflexivity |]. simpl.
  intros H. apply andb_true_iff in H. destruct H as [Hc Hs].
  now rewrite (Hpq c Hc), IH.
Qed.

Lemma exec_Class (p : ascii -> bool) (c : ascii) (pos : nat) (s : string)
    (g : groups) (k : nat -> string -> groups -> option groups) :
  p c = true -> exec (Class p) pos (String c s) g k = k (S pos) s g.
Proof. intros H. simpl. now rewrite H. Qed.

Lemma exec_Class_inv (p : ascii -> bool) (pos : nat) (s : string)
    (g m : groups) (k : nat -> string -> groups -> option groups) :
  exec (Class p) pos s g k = Some m ->
  exists c rest, s = String c rest /\ p c = true /\ k (S pos) rest g = Some m.
Proof.
  destruct s as [| c s]; [discriminate |]. simpl.
  destruct (p c) eqn:E; [| discriminate]. eauto.
Qed.

Lemma exec_plus_class_app (p : ascii -> bool) (run rest : string) (pos : nat)
    (g m : groups) (k : nat -> string -> groups -> option groups) :
  run <> "" -> all_chars p run = true -> stops p rest = true ->
  k (pos + String.length run) rest g = Some m ->
  exec (plus (Class p)) pos (run +:+ rest) g k = Some m.
Proof.
  intros Hne Hall Hstop Hk. destruct run as [| c run]; [congruence |].
  simpl in Hall. apply andb_true_iff in Hall. destruct Hall as [Hc Hall].
  rewrite exec_plus_class, append_cons, Hc.
  apply star_class_app; [assumption |].
  rewrite star_class_stop by assumption.
  simpl in Hk. now rewrite Nat.add_succ_r in Hk.
Qed.

Lemma exec_Eol (pos : nat) (s : string) (g : groups)
    (k : nat -> string -> groups -> option groups) :
  at_end s = true -> exec Eol pos s g k = k pos s g.
Proof. intros H. simpl. now rewrite H. Qed.

Lemma is_alnum_word (c : ascii) : is_alnum c = true -> is_word c = true.
Proof. intros H. unfold is_word. now rewrite H. Qed.

Lemma is_word_dot (c : ascii) : is_word c = true -> is_dot c = true.
Proof.
  intros H. unfold is_dot. destruct (Ascii.eqb c newline) eqn:E; [| reflexivity].
  apply Ascii.eqb_eq in E. subst c. vm_compute in H. discriminate.
Qed.

Lemma is_digit_dot (c : ascii) : is_digit c = true -> is_dot c = true.
Proof.
  intros H. unfold is_dot. destruct (Ascii.eqb c newline) eqn:E; [| reflexivity].
  apply Ascii.eqb_eq in E. subst c. vm_compute in H. discriminate.
Qed.

Lemma is_alnum_not_slash (c : ascii) :
  is_alnum c = true -> Ascii.eqb c "/" = false.
Proof.
  intros H. destruct (Ascii.eqb c "/") eqn:E; [| reflexivity].
  apply Ascii.eqb_eq in E. subst c. vm_compute in H. discriminate.
Qed.

Lemma at_end_stops_alnum (tail : string) :
  at_end tail = true -> stops is_alnum tail = true.
Proof.
  destruct tail as [| c tail]; [reflexivity |]. simpl.
  destruct tail; [| discriminate]. intros E.
  apply Ascii.eqb_eq in E. subst c. reflexivity.
Qed.

(** How many [/] a string has. *)
Fixpoint slashes (s : string) : nat :=
  match s with
  | EmptyString => 0
  | String c s' => (if Ascii.eqb c "/" then 1 else 0) + slashes s'
  end.

Lemma slashes_app (a b : string) :
  slashes (a +:+ b) = slashes a + slashes b.
Proof.
  induction a as [| c a IH]; [reflexivity |].
  rewrite append_cons. simpl. rewrite IH. lia.
Qed.

Lemma slashes_alnum (s : string) : all_chars is_alnum s = true -> slashes s = 0.
Proof.
  induction s as [| c s IH]; [reflexivity |]. simpl. intros H.
  apply andb_true_iff in H. destruct H as [Hc Hs].
  now rewrite (is_alnum_not_slash c Hc), IH.
Qed.

Lemma slashes_at_end (tail : string) : at_end tail = true -> slashes tail = 0.
Proof.
  destruct tail as [| c tail]; [reflexivity |]. simpl.
  destruct tail; [| discriminate]. intros E.
  apply Ascii.eqb_eq in E. subst c. reflexivity.
Qed.

(** What comes after [.*] in the extractor. *)
Definition extractor_tail : regex :=
  cats [lits "/scans/"; Group "scan_id" (plus (Class is_alnum));
        lits "/findings/"; Group "finding_id" (plus (Class is_alnum))].

Lemma rxtractor_unfold (pos : nat) (s : string) (g : groups)
    (k : nat -> string -> groups -> option groups) :
  exec rxtractor pos s g k =
  star_class is_dot pos s g (fun pos' s' g' => exec extractor_tail pos' s' g' k).
Proof.
  unfold rxtractor, cats. cbn [fold_right].
  now rewrite exec_Cat, exec_star_class.
Qed.

(** The tail matches where [/scans/], an id, [/findings/] and an id are. *)
Lemma extractor_tail_run (pos : nat) (scan_id finding_id tail : string)
    (g : groups) :
  scan_id <> "" -> all_chars is_alnum scan_id = true ->
  finding_id <> "" -> all_chars is_alnum finding_id = true ->
  at_end tail = true ->
  exec extractor_tail pos
       ("/scans/" +:+ scan_id +:+ "/findings/" +:+ finding_id +:+ tail) g
       (fun _ _ g' => Some g')
  = Some (<["finding_id" := finding_id]> (<["scan_id" := scan_id]> g)).
Proof.
  intros Hs1 Hs2 Hf1 Hf2 Htail.
  unfold extractor_tail, cats. cbn [fold_right].
  rewrite exec_Cat, exec_lits.
  rewrite exec_Cat, exec_Group.
  apply exec_plus_class_app; [assumption | assumption | reflexivity |].
  replace (pos + String.length "/scans/" + String.length scan_id
           - (pos + String.length "/scans/"))
    with (String.length scan_id) by lia.
  rewrite substring_prefix.
  rewrite exec_Cat, exec_lits.
  rewrite exec_Cat, exec_Group.
  apply exec_plus_class_app;
    [assumption | assumption | now apply at_end_stops_alnum |].
  cbn [exec]. f_equal. f_equal.
  match goal with
  | |- substring 0 ?n _ = _ =>
      replace n with (String.length finding_id) by lia
  end.
  apply substring_prefix.
Qed.

(** A match of the tail takes four [/]. *)
Lemma extractor_tail_slashes (pos : nat) (s : string) (g m : groups)
    (k : nat -> string -> groups -> option groups) :
  exec extractor_tail pos s g k = Some m -> 4 <= slashes s.
Proof.
  unfold extractor_tail, cats. cbn [fold_right]. intros H.
  rewrite exec_Cat in H. apply exec_lits_inv in H.
  destruct H as (r1 & -> & H).
  rewrite exec_Cat, exec_Group in H. apply exec_plus_class_inv in H.
  destruct H as (a & r2 & -> & _ & _ & H).
  rewrite exec_Cat in H. apply exec_lits_inv in H.
  destruct H as (r3 & -> & _).
  rewrite !slashes_app. simpl. lia.
Qed.

(** A finding URL: [https://], a host name, [.cloudpassage.com/v], a
    digit, [/scans/], the scan id, [/findings/], the finding id, and [tail],
    which is nothing or one newline. *)
Definition finding_url (host : string) (v : ascii)
    (scan_id finding_id tail : string) : string :=
  "https://" +:+ host +:+ ".cloudpassage.com/v"
  +:+ String v ("/scans/" +:+ scan_id +:+ "/findings/" +:+ finding_id +:+ tail).

Definition nonempty (s : string) : bool :=
  match s with
  | EmptyString => false
  | String _ _ => true
  end.

Definition well_formed (host : string) (v : ascii)
    (scan_id finding_id tail : string) : bool :=
  nonempty host && all_chars is_word host && is_digit v
  && nonempty scan_id && all_chars is_alnum scan_id
  && nonempty finding_id && all_chars is_alnum finding_id
  && at_end tail.

Lemma nonempty_ne (s : string) : nonempty s = true -> s <> "".
Proof. destruct s; [discriminate | discriminate]. Qed.

Lemma ne_nonempty (s : string) : s <> "" -> nonempty s = true.
Proof. destruct s; [congruence | reflexivity]. Qed.

Lemma well_formed_parts (host : string) (v : ascii)
    (scan_id finding_id tail : string) :
  well_formed host v scan_id finding_id tail = true <->
  (host <> "" /\ all_chars is_word host = true) /\ is_digit v = true /\
  (scan_id <> "" /\ all_chars is_alnum scan_id = true) /\
  (finding_id <> "" /\ all_chars is_alnum finding_id = true) /\
  at_end tail = true.
Proof.
  unfold well_formed. rewrite !andb_true_iff. split.
  - intros [[[[[[[H1 H2] H3] H4] H5] H6] H7] H8].
    auto 10 using nonempty_ne.
  - intros [[H1 H2] [H3 [[H4 H5] [[H6 H7] H8]]]].
    auto 10 using ne_nonempty.
Qed.

Lemma exec_Bol (s : string) (g : groups)
    (k : nat -> string -> groups -> option groups) :
  exec Bol 0 s g k = k 0 s g.
Proof. reflexivity. Qed.

Lemma exec_Eol_inv (pos : nat) (s : string) (g m : groups)
    (k : nat -> string -> groups -> option groups) :
  exec Eol pos s g k = Some m -> at_end s = true /\ k pos s g = Some m.
Proof. simpl. destruct (at_end s); [auto | discriminate]. Qed.

(** The strict pattern accepts a well-formed URL. *)
Lemma rx_accepts (host : string) (v : ascii) (scan_id finding_id tail : string) :
  well_formed host v scan_id finding_id tail = true ->
  re_match rx (finding_url host v scan_id finding_id tail) = Some ∅.
Proof.
  intros H. apply well_formed_parts in H.
  destruct H as [[Hh1 Hh2] [Hv [[Hs1 Hs2] [[Hf1 Hf2] Htail]]]].
  unfold re_match, rx, finding_url, cats. cbn [fold_right].
  rewrite exec_Cat, exec_Bol.
  rewrite exec_Cat, exec_lits.
  rewrite exec_Cat.
  apply exec_plus_class_app; [assumption | assumption | reflexivity |].
  rewrite exec_Cat, exec_lits.
  rewrite exec_Cat, exec_Class by assumption.
  rewrite exec_Cat, exec_lits.
  rewrite exec_Cat.
  apply exec_plus_class_app; [assumption | assumption | reflexivity |].
  rewrite exec_Cat, exec_lits.
  rewrite exec_Cat.
  apply exec_plus_class_app;
    [assumption | assumption | now apply at_end_stops_alnum |].
  rewrite exec_Cat, exec_Eol by assumption.
  reflexivity.
Qed.

(** The strict pattern accepts nothing else. *)
Lemma rx_accepts_only (url : string) (m : groups) :
  re_match rx url = Some m ->
  exists host v scan_id finding_id tail,
    url = finding_url host v scan_id finding_id tail /\
    well_formed host v scan_id finding_id tail = true.
Proof.
  unfold re_match, rx, cats. cbn [fold_right]. intros H.
  rewrite exec_Cat, exec_Bol in H.
  rewrite exec_Cat in H. apply exec_lits_inv in H.
  destruct H as (r1 & -> & H).
  rewrite exec_Cat in H. apply exec_plus_class_inv in H.
  destruct H as (host & r2 & -> & Hh1 & Hh2 & H).
  rewrite exec_Cat in H. apply exec_lits_inv in H.
  destruct H as (r3 & -> & H).
  rewrite exec_Cat in H. apply exec_Class_inv in H.
  destruct H as (v & r4 & -> & Hv & H).
  rewrite exec_Cat in H. apply exec_lits_inv in H.
  destruct H as (r5 & -> & H).
  rewrite exec_Cat in H. apply exec_plus_class_inv in H.
  destruct H as (scan_id & r6 & -> & Hs1 & Hs2 & H).
  rewrite exec_Cat in H. apply exec_lits_inv in H.
  destruct H as (r7 & -> & H).
  rewrite exec_Cat in H. apply exec_plus_class_inv in H.
  destruct H as (finding_id & tail & -> & Hf1 & Hf2 & H).
  rewrite exec_Cat in H. apply exec_Eol_inv in H. destruct H as [Htail _].
  exists host, v, scan_id, finding_id, tail. split; [reflexivity |].
  apply well_formed_parts. auto 10.
Qed.

(** The extractor finds the two ids of a well-formed URL. *)
Lemma rxtractor_finds (host : string) (v : ascii)
    (scan_id finding_id tail : string) :
  well_formed host v scan_id finding_id tail = true ->
  re_search rxtractor (finding_url host v scan_id finding_id tail)
  = Some (<["finding_id" := finding_id]> {[ "scan_id" := scan_id ]}).
Proof.
  intros H. apply well_formed_parts in H.
  destruct H as [[Hh1 Hh2] [Hv [[Hs1 Hs2] [[Hf1 Hf2] Htail]]]].
  apply search_from_here. rewrite rxtractor_unfold.
  set (T := "/scans/" +:+ scan_id +:+ "/findings/" +:+ finding_id +:+ tail).
  set (pre := "https://" +:+ host +:+ ".cloudpassage.com/v" +:+ String v "").
  assert (Hurl : finding_url host v scan_id finding_id tail = pre +:+ T).
  { unfold finding_url, pre. now rewrite !append_assoc. }
  rewrite Hurl.
  apply star_class_app.
  { unfold pre. rewrite !all_chars_app.
    rewrite (all_chars_impl is_word is_dot host is_word_dot Hh2).
    simpl. now rewrite (is_digit_dot v Hv). }
  rewrite star_class_only_here.
  - unfold T. now rewrite extractor_tail_run.
  - intros x1 x2 HT Hx1.
    destruct (exec extractor_tail (0 + String.length pre + String.length x1)
                   x2 ∅ (fun _ _ g' => Some g')) as [m |] eqn:E;
      [| reflexivity].
    exfalso. apply extractor_tail_slashes in E.
    assert (Hcount : slashes T = 4).
    { unfold T. rewrite !slashes_app.
      rewrite (slashes_alnum _ Hs2), (slashes_alnum _ Hf2).
      rewrite (slashes_at_end _ Htail). reflexivity. }
    rewrite HT, slashes_app in Hcount.
    destruct x1 as [| c x1]; [congruence |].
    unfold T in HT. rewrite append_cons in HT. inversion HT; subst c.
    simpl in Hcount. lia.
Qed.

Lemma parse_well_formed (host : string) (v : ascii)
    (scan_id finding_id tail : string) (w : world) :
  well_formed host v scan_id finding_id tail = true ->
  parse_finding_url (finding_url host v scan_id finding_id tail) w =
  (inr (Some (VStr scan_id, VStr finding_id)), w).
Proof.
  intros H. unfold parse_finding_url.
  rewrite (rx_accepts _ _ _ _ _ H), (rxtractor_finds _ _ _ _ _ H).
  unfold group. rewrite lookup_insert_ne by discriminate.
  rewrite lookup_singleton_eq, lookup_insert_eq. reflexivity.
Qed.

(** X3: the ids of a well-formed finding URL are read back.  For every
    host name of word characters, API version digit, scan id and finding id
    of letters and digits, and with or without one final newline,
    [parse_finding_url] returns the pair of the scan id and the finding id
    written in the URL; it logs nothing and changes nothing. *)
Theorem parse_finding_url_reads_back (host : string) (v : ascii)
    (scan_id finding_id tail : string) (w : world) :
  well_formed host v scan_id finding_id tail = true ->
  parse_finding_url (finding_url host v scan_id finding_id tail) w =
  (inr (Some (VStr scan_id, VStr finding_id)), w).
Proof. apply parse_well_formed. Qed.

(** X4: [parse_finding_url] never raises, and a URL that is not a
    well-formed finding URL gives [None] with one error logged: the
    extractor always matches what the strict pattern accepted. *)
Theorem parse_finding_url_total (url : string) (w : world) :
  (exists host v scan_id finding_id tail,
     url = finding_url host v scan_id finding_id tail /\
     well_formed host v scan_id finding_id tail = true /\
     parse_finding_url url w = (inr (Some (VStr scan_id, VStr finding_id)), w))
  \/
  ((forall host v scan_id finding_id tail,
      url = finding_url host v scan_id finding_id tail ->
      well_formed host v scan_id finding_id tail = false) /\
   parse_finding_url url w =
   (inr None,
    {| heap := heap w;
       log := log w ++ [(ERROR, "Unable to parse finding URL: " +:+ url)];
       calls := calls w |})).
Proof.
  destruct (re_match rx url) as [m |] eqn:E.
  - left. destruct (rx_accepts_only _ _ E)
      as (host & v & scan_id & finding_id & tail & -> & Hwf).
    exists host, v, scan_id, finding_id, tail.
    split; [reflexivity |]. split; [assumption |].
    now apply parse_well_formed.
  - right. split.
    + intros host v scan_id finding_id tail -> .
      destruct (well_formed host v scan_id finding_id tail) eqn:Hwf;
        [| reflexivity].
      rewrite (rx_accepts _ _ _ _ _ Hwf) in E. discriminate.
    + unfold parse_finding_url. rewrite E. reflexivity.
Qed.


Lemma finding_url_has_scans (host : string) (v : ascii)
    (scan_id finding_id tail : string) :
  contains "/scans/" (finding_url host v scan_id finding_id tail) = true.
Proof.
  replace (finding_url host v scan_id finding_id tail)
    with (("https://" +:+ host +:+ ".cloudpassage.com/v" +:+ String v "")
          +:+ "/scans/" +:+ (scan_id +:+ "/findings/" +:+ finding_id +:+ tail))
    by (unfold finding_url; now rewrite !append_assoc).
  apply contains_append.
Qed.

(** The last piece of [s.split("/")] is what follows the last [/]. *)
Lemma split_last (s : string) :
  exists (l : list string) (piece : string),
    split "/" s = l ++ [piece] /\ slashes piece = 0 /\
    ((l = [] /\ s = piece) \/
     (l <> [] /\ exists pre, s = pre +:+ String "/" piece)).
Proof.
  induction s as [| c s (l & piece & Hsplit & Hno & Hshape)].
  - exists [], "". simpl. auto.
  - simpl. destruct (Ascii.eqb c "/") eqn:Hc.
    + apply Ascii.eqb_eq in Hc. subst c.
      exists ("" :: l), piece. rewrite Hsplit.
      split; [reflexivity |]. split; [assumption |]. right.
      split; [discriminate |].
      destruct Hshape as [[-> ->] | [_ [pre ->]]].
      * now exists "".
      * now exists (String "/" pre).
    + rewrite Hsplit. destruct l as [| x l].
      * exists [], (String c piece). simpl. rewrite Hc.
        split; [reflexivity |]. split; [assumption |]. left.
        destruct Hshape as [[_ ->] | [Hl _]]; [auto | congruence].
      * exists (String c x :: l), piece.
        split; [reflexivity |]. split; [assumption |]. right.
        split; [discriminate |].
        destruct Hshape as [[Hl _] | [_ [pre ->]]]; [discriminate |].
        now exists (String c pre).
Qed.

Section FindingKinds.

Variable HttpHelper_get : string -> exn + dict.

Lemma get_finding_run (scan_id finding_id : string) (w : world) :
  (let* result := get_finding HttpHelper_get (VStr scan_id) (VStr finding_id) in
   ret (Some result)) w =
  fetched ("/v1/scans/" +:+ scan_id +:+ "/findings/" +:+ finding_id)
          (HttpHelper_get
             ("/v1/scans/" +:+ scan_id +:+ "/findings/" +:+ finding_id)) w.
Proof.
  unfold get_finding, sdk_call, fetched, bind, request, lift. simpl.
  destruct (HttpHelper_get _); reflexivity.
Qed.

(** X5: on a well-formed finding URL, [describe_finding] makes one request,
    for [/v1/scans/<scan id>/findings/<finding id>] with the two ids of
    the URL, through [self.http_helper], and gives back what it answers.
    The path asks for version 1 of the API whatever version digit the URL
    has. *)
Theorem describe_finding_scan_url (host : string) (v : ascii)
    (scan_id finding_id tail : string) (w : world) :
  well_formed host v scan_id finding_id tail = true ->
  describe_finding HttpHelper_get
    (finding_url host v scan_id finding_id tail) w =
  fetched ("/v1/scans/" +:+ scan_id +:+ "/findings/" +:+ finding_id)
          (HttpHelper_get
             ("/v1/scans/" +:+ scan_id +:+ "/findings/" +:+ finding_id)) w.
Proof.
  intros H. unfold describe_finding.
  rewrite finding_url_has_scans.
  rewrite (bind_ok _ _ _ _ _ (parse_well_formed _ _ _ _ _ w H)).
  apply get_finding_run.
Qed.

Lemma describe_finding_scans_not_none (finding_url' : string) (w w' : world) :
  contains "/scans/" finding_url' = true ->
  describe_finding HttpHelper_get finding_url' w
  <> (inr None, w').
Proof.
  intros Hs.
  destruct (re_match rx finding_url') as [m |] eqn:E.
  - destruct (rx_accepts_only _ _ E)
      as (host & v & scan_id & finding_id & tail & -> & Hwf).
    unfold describe_finding. rewrite Hs.
    rewrite (bind_ok _ _ _ _ _ (parse_well_formed _ _ _ _ _ w Hwf)).
    rewrite get_finding_run. unfold fetched.
    destruct (HttpHelper_get _); discriminate.
  - rewrite (describe_finding_unparsable _ _ w Hs E). discriminate.
Qed.

(** X6: a URL that contains [/scans/] and is not a well-formed finding URL
    makes [describe_finding] log the parse error and raise [TypeError];
    no request is made. *)
Theorem describe_finding_malformed_scan_url (finding_url' : string)
    (w : world) :
  contains "/scans/" finding_url' = true ->
  (forall host v scan_id finding_id tail,
     finding_url' = finding_url host v scan_id finding_id tail ->
     well_formed host v scan_id finding_id tail = false) ->
  describe_finding HttpHelper_get finding_url' w =
  (inl TypeError,
   {| heap := heap w;
      log := log w ++ [(ERROR, "Unable to parse finding URL: "
                               +:+ finding_url')];
      calls := calls w |}).
Proof.
  intros Hs Hnot. apply describe_finding_unparsable; [assumption |].
  destruct (re_match rx finding_url') as [m |] eqn:E; [| reflexivity].
  destruct (rx_accepts_only _ _ E)
    as (host & v & scan_id & finding_id & tail & Hurl & Hwf).
  rewrite (Hnot _ _ _ _ _ Hurl) in Hwf. discriminate.
Qed.

(** X7: [describe_finding] returns [None] exactly for the URLs that
    contain neither [/scans/] nor [/events/]; for those it logs one error
    and makes no request. *)
Theorem describe_finding_none_iff (finding_url' : string) (w : world) :
  ((exists w', describe_finding HttpHelper_get finding_url' w
               = (inr None, w')) <->
   contains "/scans/" finding_url' = false /\
   contains "/events/" finding_url' = false) /\
  (forall w', describe_finding HttpHelper_get finding_url' w
              = (inr None, w') ->
     w' = {| heap := heap w;
             log := log w ++ [(ERROR, "Unable to determine finding type: "
                                      +:+ finding_url')];
             calls := calls w |}).
Proof.
  assert (Hnone : forall w',
            describe_finding HttpHelper_get finding_url' w
            = (inr None, w') ->
            contains "/scans/" finding_url' = false /\
            contains "/events/" finding_url' = false).
  { intros w' H.
    destruct (contains "/scans/" finding_url') eqn:Hs.
    - exfalso. exact (describe_finding_scans_not_none _ _ _ Hs H).
    - split; [reflexivity |].
      destruct (contains "/events/" finding_url') eqn:He; [| reflexivity].
      exfalso. unfold describe_finding in H. rewrite Hs, He in H.
      destruct (split_last finding_url') as (l & piece & Hsplit & _ & _).
      unfold last_item in H. rewrite Hsplit, last_snoc in H.
      discriminate. }
  split; [split |].
  - intros [w' H]. exact (Hnone w' H).
  - intros [Hs He]. eexists.
    exact (describe_finding_unknown _ _ w Hs He).
  - intros w' H. destruct (Hnone w' H) as [Hs He].
    rewrite (describe_finding_unknown _ _ w Hs He) in H.
    now inversion H.
Qed.

(** X8: on a URL that contains [/events/] and not [/scans/],
    [describe_finding] fetches nothing.  Taking the last piece of the split
    never fails, and then the call of the module [cloudpassage.http_helper]
    raises [TypeError]: no request is made, nothing is logged, and the
    store is as it was.  So no URL makes [describe_finding] ask for an
    event: every request it makes is one for a scan finding. *)
Theorem describe_finding_event_url (finding_url' : string) (w : world) :
  (contains "/scans/" finding_url' = false ->
   contains "/events/" finding_url' = true ->
   describe_finding HttpHelper_get finding_url' w = (inl TypeError, w)) /\
  (calls (snd (describe_finding HttpHelper_get finding_url' w)) = calls w \/
   exists scan_id finding_id : string,
     calls (snd (describe_finding HttpHelper_get finding_url' w))
     = calls w ++ [HttpGet ("/v1/scans/" +:+ scan_id +:+ "/findings/"
                            +:+ finding_id)]).
Proof.
  assert (Hevents : contains "/scans/" finding_url' = false ->
                    contains "/events/" finding_url' = true ->
                    describe_finding HttpHelper_get finding_url' w
                    = (inl TypeError, w)).
  { intros Hs He.
    destruct (split_last finding_url') as (l & piece & Hsplit & _ & _).
    unfold describe_finding. rewrite Hs, He.
    unfold last_item. rewrite Hsplit, last_snoc. reflexivity. }
  split; [exact Hevents |].
  destruct (contains "/scans/" finding_url') eqn:Hs.
  - destruct (re_match rx finding_url') as [m |] eqn:E.
    + destruct (rx_accepts_only _ _ E)
        as (host & v & scan_id & finding_id & tail & -> & Hwf).
      right. exists scan_id, finding_id.
      unfold describe_finding. rewrite Hs.
      rewrite (bind_ok _ _ _ _ _ (parse_well_formed _ _ _ _ _ w Hwf)).
      rewrite get_finding_run. unfold fetched.
      destruct (HttpHelper_get _); reflexivity.
    + left. now rewrite (describe_finding_unparsable _ _ w Hs E).
  - destruct (contains "/events/" finding_url') eqn:He.
    + left. now rewrite (Hevents eq_refl eq_refl).
    + left. now rewrite (describe_finding_unknown _ _ w Hs He).
Qed.

End FindingKinds.

Lemma parse_finding_url_reads_back_witness :
  parse_finding_url (finding_url "portal" "1" "AAA111" "BBB222" "") world0 =
  (inr (Some (VStr "AAA111", VStr "BBB222")), world0).
Proof.
  apply (parse_finding_url_reads_back "portal" "1" "AAA111" "BBB222" "").
  reflexivity.
Defined.

(** A helper that answers with the path it was asked for. *)
Definition echo (path : string) : exn + dict :=
  inr {[ "id" := VStr path ]}.

Lemma describe_finding_scan_url_witness :
  describe_finding echo
    (finding_url "portal" "2" "AAA111" "BBB222" "") world0 =
  fetched "/v1/scans/AAA111/findings/BBB222"
          (echo "/v1/scans/AAA111/findings/BBB222") world0.
Proof.
  apply (describe_finding_scan_url echo
           "portal" "2" "AAA111" "BBB222" "" world0).
  reflexivity.
Defined.

Lemma describe_finding_malformed_scan_url_witness :
  describe_finding echo "http://portal/scans/AAA111" world0 =
  (inl TypeError,
   {| heap := [];
      log := [(ERROR, "Unable to parse finding URL: http://portal/scans/AAA111")];
      calls := [] |}).
Proof.
  apply (describe_finding_malformed_scan_url echo
           "http://portal/scans/AAA111" world0).
  - reflexivity.
  - intros host v scan_id finding_id tail H. discriminate H.
Defined.

(** ** What the pipeline leaves behind, whatever happens *)

(** A computation that makes no request and after which the store has
    every dictionary it had, unchanged. *)
Definition framed {A : Type} (m : M A) : Prop :=
  forall w, extends w (snd (m w)) /\ calls (snd (m w)) = calls w.

Lemma framed_ret {A : Type} (a : A) : framed (ret a).
Proof. intros w. split; [apply extends_refl | reflexivity]. Qed.

Lemma framed_raise {A : Type} (e : exn) : framed (@raise A e).
Proof. intros w. split; [apply extends_refl | reflexivity]. Qed.

Lemma framed_bind {A B : Type} (m : M A) (k : A -> M B) :
  framed m -> (forall a, framed (k a)) -> framed (bind m k).
Proof.
  intros Hm Hk w. unfold bind. specialize (Hm w).
  destruct (m w) as [[e | a] w1]; simpl in *; [exact Hm |].
  destruct Hm as [Hext Hcalls]. destruct (Hk a w1) as [Hext' Hcalls'].
  split; [eapply extends_trans; eassumption | congruence].
Qed.

Lemma framed_lift {A : Type} (r : exn + A) : framed (lift r).
Proof. destruct r; [apply framed_raise | apply framed_ret]. Qed.

Lemma framed_getitem (l : loc) (k : string) : framed (getitem l k).
Proof.
  intros w. unfold getitem, bind, deref.
  destruct (heap w !! l) as [d |]; [destruct (d !! k) |];
    (split; [apply extends_refl | reflexivity]).
Qed.

Lemma framed_logger (lv : level) (msg : string) : framed (logger lv msg).
Proof.
  intros w. split; [| reflexivity]. exists []. simpl. now rewrite app_nil_r.
Qed.

Lemma framed_mapM {A B : Type} (f : A -> M B) (l : list A) :
  (forall x, framed (f x)) -> framed (mapM f l).
Proof.
  intros Hf. induction l as [| x l IH]; simpl; [apply framed_ret |].
  apply framed_bind; [apply Hf | intros y].
  apply framed_bind; [apply IH | intros ys]. apply framed_ret.
Qed.

Lemma framed_filterM {A : Type} (p : A -> M bool) (l : list A) :
  (forall x, framed (p x)) -> framed (filterM p l).
Proof.
  intros Hp. induction l as [| x l IH]; simpl; [apply framed_ret |].
  apply framed_bind; [apply Hp | intros b].
  apply framed_bind; [apply IH | intros xs]. apply framed_ret.
Qed.

Lemma framed_forM_ {A : Type} (body : A -> M unit) (l : list A) :
  (forall x, framed (body x)) -> framed (forM_ body l).
Proof.
  intros Hb. induction l as [| x l IH]; simpl; [apply framed_ret |].
  apply framed_bind; [apply Hb | intros _; apply IH].
Qed.

(** [time_label_issue] writes to the copy it made, never to the record it
    was given. *)
Lemma framed_time_label_issue (issue : loc) : framed (time_label_issue issue).
Proof.
  intros w. unfold time_label_issue.
  destruct (heap w !! issue) as [d |] eqn:E.
  - rewrite (time_label_with_run _ _ _ _ E).
    destruct (tstamps_of d target_fields) as [e | tstamps];
      [split; [apply extends_refl | reflexivity] |].
    destruct (last (sorted tstamps)); (split; [| reflexivity]);
      eexists; reflexivity.
  - unfold time_label_with, target_fields, collect_tstamps.
    unfold bind at 1. unfold getitem, bind, deref. rewrite E.
    split; [apply extends_refl | reflexivity].
Qed.

Lemma framed_dedup_loop (issues : list loc) (seen : gset val)
    (acc : list loc) : framed (dedup_loop issues seen acc).
Proof.
  revert seen acc. induction issues as [| x issues IH]; intros seen acc; simpl.
  - apply framed_ret.
  - apply framed_bind; [apply framed_getitem | intros i].
    case_decide; [apply IH |].
    apply framed_bind; [apply framed_getitem | intros i']. apply IH.
Qed.

Ltac solve_framed :=
  repeat first
    [ apply framed_ret | apply framed_raise | apply framed_lift
    | apply framed_getitem | apply framed_logger
    | apply framed_time_label_issue | apply framed_dedup_loop
    | apply framed_mapM; intros ? | apply framed_filterM; intros ?
    | apply framed_forM_; intros ?
    | apply framed_bind; [| intros ?]
    | match goal with |- framed (if ?b then _ else _) => destruct b end ].

Section Requests.

Variable issues_list_all : query -> exn + list dict.
Variable issues_describe : val -> exn + dict.
Variable describe_issues_threads : nat.

Lemma list_all_err (q : query) (e : exn) (w : world) :
  issues_list_all q = inl e ->
  list_all issues_list_all q w =
  (inl e, {| heap := heap w; log := log w; calls := calls w ++ [ListAll q] |}).
Proof. intros H. unfold list_all, bind, request, lift. now rewrite H. Qed.

(** What [get_issues_touched_since] does once both lists are there. *)
Lemma get_issues_touched_since_tail (timestamp : string)
    (critical_only : bool) (w : world) :
  exists tail : list loc -> list loc -> M (list loc),
    (forall updated resolved, framed (tail updated resolved)) /\
    get_issues_touched_since issues_list_all timestamp critical_only w =
    (let* updated := list_all issues_list_all
                       (updated_query timestamp critical_only) in
     let* resolved := list_all issues_list_all
                        (resolved_query timestamp critical_only) in
     tail updated resolved) w.
Proof.
  eexists (fun updated resolved => _). split; [| reflexivity].
  intros updated resolved. cbv zeta.
  unfold issues_filtered, discarded_issues, deduplicate_issues.
  solve_framed.
Qed.


Lemma framed_run {A : Type} (m : M A) (w : world) :
  framed m ->
  exists r w1, m w = (r, w1) /\ extends w w1 /\ calls w1 = calls w.
Proof.
  intros H. destruct (H w) as [Hext Hcalls].
  destruct (m w) as [r w1]. exists r, w1. auto.
Qed.

(** The requests of [get_issues_touched_since]. *)
Lemma get_issues_touched_since_frame (timestamp : string)
    (critical_only : bool) (w : world) :
  let out := get_issues_touched_since issues_list_all timestamp
               critical_only w in
  let updated := ListAll (updated_query timestamp critical_only) in
  let resolved := ListAll (resolved_query timestamp critical_only) in
  extends w (snd out) /\
  match issues_list_all (updated_query timestamp critical_only) with
  | inl e => out = (inl e, {| heap := heap w; log := log w;
                              calls := calls w ++ [updated] |})
  | inr upd =>
      calls (snd out) = calls w ++ [updated; resolved] /\
      match issues_list_all (resolved_query timestamp critical_only) with
      | inl e => out = (inl e, {| heap := heap w ++ upd; log := log w;
                                  calls := calls w ++ [updated; resolved] |})
      | inr _ => True
      end
  end.
Proof.
  destruct (get_issues_touched_since_tail timestamp critical_only w)
    as (tail & Htail & ->).
  cbv zeta.
  destruct (issues_list_all (updated_query timestamp critical_only))
    as [e | upd] eqn:Eu.
  - rewrite (bind_err _ _ _ _ _ (list_all_err _ _ w Eu)).
    split; [| reflexivity]. exists []. simpl. now rewrite app_nil_r.
  - rewrite (bind_ok _ _ _ _ _ (list_all_ok _ _ _ w Eu)).
    set (w1 := {| heap := heap w ++ upd; log := log w; calls := _ |}).
    assert (Hext1 : extends w w1) by now exists upd.
    destruct (issues_list_all (resolved_query timestamp critical_only))
      as [e | res] eqn:Er.
    + rewrite (bind_err _ _ _ _ _ (list_all_err _ _ w1 Er)). simpl.
      rewrite <- app_assoc. split; [| split; reflexivity].
      exists upd. reflexivity.
    + rewrite (bind_ok _ _ _ _ _ (list_all_ok _ _ _ w1 Er)).
      set (w2 := {| heap := heap w1 ++ res; log := log w1; calls := _ |}).
      assert (Hext2 : extends w1 w2) by now exists res.
      destruct (Htail (seq (length (heap w)) (length upd))
                      (seq (length (heap w1)) (length res)) w2)
        as [Hext Hcalls].
      split; [| split; [| exact I]].
      * eapply extends_trans; [exact Hext1 |].
        eapply extends_trans; eassumption.
      * rewrite Hcalls. simpl. now rewrite <- app_assoc.
Qed.

(** X11: the requests of [get_issues_touched_since], whatever the source
    answers.  The query for updated issues is made first; when it fails its
    exception is the outcome and nothing else was asked.  Otherwise the
    query for resolved issues follows, and these two are all the requests;
    when the second fails its exception is the outcome.  In every case the
    store has the dictionaries it had, unchanged, and maybe more. *)
Theorem get_issues_touched_since_requests (timestamp : string)
    (critical_only : bool) (w : world) :
  let out := get_issues_touched_since issues_list_all timestamp
               critical_only w in
  let updated := ListAll (updated_query timestamp critical_only) in
  let resolved := ListAll (resolved_query timestamp critical_only) in
  extends w (snd out) /\
  match issues_list_all (updated_query timestamp critical_only) with
  | inl e => out = (inl e, {| heap := heap w; log := log w;
                              calls := calls w ++ [updated] |})
  | inr upd =>
      calls (snd out) = calls w ++ [updated; resolved] /\
      match issues_list_all (resolved_query timestamp critical_only) with
      | inl e => out = (inl e, {| heap := heap w ++ upd; log := log w;
                                  calls := calls w ++ [updated; resolved] |})
      | inr _ => True
      end
  end.
Proof. apply get_issues_touched_since_frame. Qed.

Lemma get_issue_full_run (i : val) (w : world) :
  get_issue_full issues_describe i w =
  let w1 := {| heap := heap w; log := log w;
               calls := calls w ++ [Describe i] |} in
  match issues_describe i with
  | inl e => (inl e, w1)
  | inr d => (inr (length (heap w)), set_heap (heap w ++ [d]) w1)
  end.
Proof.
  unfold get_issue_full, sdk_call, bind, request, lift.
  destruct (issues_describe i); reflexivity.
Qed.

Lemma mapM_get_issue_full_requests (ids : list val) (w : world) :
  exists js rest,
    ids = js ++ rest /\
    extends w (snd (mapM (get_issue_full issues_describe) ids w)) /\
    calls (snd (mapM (get_issue_full issues_describe) ids w))
    = calls w ++ map Describe js.
Proof.
  revert w. induction ids as [| i ids IH]; intros w.
  - exists [], []. simpl. rewrite app_nil_r.
    split; [reflexivity |]. split; [apply extends_refl | reflexivity].
  - cbn [mapM]. unfold bind. rewrite get_issue_full_run.
    destruct (issues_describe i) as [e | d]; cbv zeta.
    + exists [i], ids. split; [reflexivity |].
      split; [| reflexivity]. exists []. simpl. now rewrite app_nil_r.
    + set (w1 := set_heap _ _).
      destruct (IH w1) as (js & rest & -> & Hext & Hcalls).
      exists (i :: js), rest. split; [reflexivity |].
      destruct (mapM (get_issue_full issues_describe) (js ++ rest) w1)
        as [[e | rs] w2]; simpl in *.
      * split; [| rewrite Hcalls; now rewrite <- app_assoc].
        eapply extends_trans; [| exact Hext]. now exists [d].
      * split; [| rewrite Hcalls; now rewrite <- app_assoc].
        eapply extends_trans; [| exact Hext]. now exists [d].
Qed.

(** X12: the requests of [describe_all_issues], whatever the source
    answers: the two list queries of [get_issues_touched_since], then, only
    if that returned, [describe] for ids that are pairwise distinct, and
    nothing else.  No issue is described twice, and the store has the
    dictionaries it had, unchanged, and maybe more. *)
Theorem describe_all_issues_requests (timestamp : string)
    (critical_only : bool) (w : world) :
  let out := describe_all_issues issues_list_all issues_describe
               describe_issues_threads timestamp critical_only w in
  let updated := ListAll (updated_query timestamp critical_only) in
  let resolved := ListAll (resolved_query timestamp critical_only) in
  extends w (snd out) /\
  (calls (snd out) = calls w ++ [updated] \/
   exists ids : list val,
     NoDup ids /\
     calls (snd out) = calls w ++ [updated; resolved] ++ map Describe ids).
Proof.
  cbv zeta. unfold describe_all_issues.
  pose proof (get_issues_touched_since_frame timestamp critical_only w)
    as Hfirst. cbv zeta in Hfirst.
  destruct (get_issues_touched_since issues_list_all timestamp
              critical_only w) as [[e | touched] w1] eqn:E1.
  - rewrite (bind_err _ _ _ _ _ E1).
    destruct Hfirst as [Hext Hfirst]. simpl in *. split; [assumption |].
    destruct (issues_list_all (updated_query timestamp critical_only)).
    + left. now inversion Hfirst.
    + right. exists []. split; [constructor |]. simpl.
      now destruct Hfirst as [-> _].
  - rewrite (bind_ok _ _ _ _ _ E1).
    destruct Hfirst as [Hext1 Hfirst]. simpl in Hext1, Hfirst.
    assert (Hcalls1 : calls w1 = calls w
              ++ [ListAll (updated_query timestamp critical_only);
                  ListAll (resolved_query timestamp critical_only)]).
    { destruct (issues_list_all (updated_query timestamp critical_only));
        [discriminate | tauto]. }
    clear Hfirst.
    destruct (framed_run (mapM (fun x => getitem x "id") touched) w1)
      as (r & w2 & E2 & Hext2 & Hcalls2).
    { apply framed_mapM. intros x. apply framed_getitem. }
    destruct r as [e | ids].
    { rewrite (bind_err _ _ _ _ _ E2). simpl.
      split; [eapply extends_trans; eassumption |].
      right. exists []. split; [constructor |]. simpl. congruence. }
    rewrite (bind_ok _ _ _ _ _ E2).
    set (w3 := {| heap := heap w2;
                  log := log w2 ++ [(DEBUG,
                    "Describing all Halo issues. Concurrency: "
                    +:+ str_of_nat describe_issues_threads)];
                  calls := calls w2 |}).
    rewrite (bind_ok _ _ w2 w3 tt) by reflexivity.
    assert (Hext3 : extends w w3).
    { eapply extends_trans; [exact Hext1 |].
      eapply extends_trans; [exact Hext2 |]. exists []. simpl.
      now rewrite app_nil_r. }
    destruct (Nat.ltb describe_issues_threads 1).
    { rewrite (bind_err _ _ w3 w3 ValueError) by reflexivity. simpl.
      split; [exact Hext3 |].
      right. exists []. split; [constructor |]. simpl. congruence. }
    rewrite (bind_ok _ _ w3 w3 tt) by reflexivity.
    destruct (mapM_get_issue_full_requests
                (elements (list_to_set ids : gset val)) w3)
      as (js & rest & Hjs & Hext4 & Hcalls4).
    assert (Hnd : NoDup js).
    { pose proof (NoDup_elements (list_to_set ids : gset val)) as Hnd.
      rewrite Hjs in Hnd. now apply NoDup_app in Hnd. }
    destruct (mapM (get_issue_full issues_describe)
                (elements (list_to_set ids : gset val)) w3)
      as [[e | results] w4] eqn:E4; simpl in Hext4, Hcalls4.
    { rewrite (bind_err _ _ _ _ _ E4). simpl.
      split; [eapply extends_trans; eassumption |].
      right. exists js. split; [assumption |]. rewrite Hcalls4. simpl.
      rewrite Hcalls2, Hcalls1. now rewrite <- app_assoc. }
    rewrite (bind_ok _ _ _ _ _ E4).
    destruct (framed_run (mapM time_label_issue results) w4)
      as (r5 & w5 & E5 & Hext5 & Hcalls5).
    { apply framed_mapM. intros x. apply framed_time_label_issue. }
    assert (Hfinal : extends w w5 /\
              calls w5 = calls w
                ++ [ListAll (updated_query timestamp critical_only);
                    ListAll (resolved_query timestamp critical_only)]
                ++ map Describe js).
    { split.
      - eapply extends_trans; [exact Hext3 |].
        eapply extends_trans; eassumption.
      - rewrite Hcalls5, Hcalls4. simpl.
        rewrite Hcalls2, Hcalls1. now rewrite <- app_assoc. }
    destruct r5 as [e | retval].
    + rewrite (bind_err _ _ _ _ _ E5). simpl. split; [tauto |].
      right. exists js. tauto.
    + rewrite (bind_ok _ _ _ _ _ E5). simpl. split; [tauto |].
      right. exists js. tauto.
Qed.

End Requests.

(** ** What [get_issues_touched_since] returns *)

Lemma holds_elem_of_r (w : world) (xs : list loc) (ds : list dict) (d : dict) :
  holds w xs ds -> d ∈ ds -> exists x, x ∈ xs /\ heap w !! x = Some d.
Proof.
  induction 1 as [| y d' xs ds Hy _ IH]; intros Hd.
  - inversion Hd.
  - apply elem_of_cons in Hd. destruct Hd as [-> | Hd].
    + exists y. split; [left | assumption].
    + destruct (IH Hd) as (x & Hx & Hlook). exists x. split; [now right | assumption].
Qed.

Lemma id_of_labeled (w : world) (x : loc) (d : dict) :
  heap w !! x = Some (labeled d) -> id_of w x = idv d.
Proof.
  intros H. unfold id_of, field, idv. now rewrite H, labeled_id.
Qed.

Lemma fresh_newer (timestamp : string) (d : dict) :
  fresh timestamp d = true ->
  exists t, tstamp_of d = Some (VStr t) /\ String.ltb timestamp t = true.
Proof.
  unfold fresh. destruct (tstamp_of d) as [[| t] |]; try discriminate.
  rewrite targeted_date_str. eauto.
Qed.

Lemma elem_of_filter_fresh (timestamp : string) (d : dict) (l : list dict) :
  d ∈ List.filter (fresh timestamp) l <-> d ∈ l /\ fresh timestamp d = true.
Proof. now rewrite !list_elem_of_In, List.filter_In. Qed.

Section Returns.

Variable issues_list_all : query -> exn + list dict.

(** X9: what [get_issues_touched_since] returns when both queries answer
    with records that have an id and a timestamp.  Every record returned
    is the labeled copy of a listed record whose newest timestamp is
    strictly after the cutoff; the ids of the records returned are pairwise
    distinct; and every listed record that is newer than the cutoff has its
    id among them. *)
Theorem get_issues_touched_since_returns (timestamp : string)
    (critical_only : bool) (upd res : list dict) (w : world) :
  issues_list_all (updated_query timestamp critical_only) = inr upd ->
  issues_list_all (resolved_query timestamp critical_only) = inr res ->
  Forall usable (res ++ upd) ->
  exists (out : list loc) (w' : world),
    get_issues_touched_since issues_list_all timestamp critical_only w =
    (inr out, w') /\
    (forall x, x ∈ out ->
       exists d t, d ∈ res ++ upd /\
                   heap w' !! x = Some (<["tstamp" := VStr t]> d) /\
                   tstamp_of d = Some (VStr t) /\
                   String.ltb timestamp t = true) /\
    NoDup (map (id_of w') out) /\
    (forall d, d ∈ res ++ upd -> fresh timestamp d = true ->
       exists x, x ∈ out /\ id_of w' x = idv d).
Proof.
  intros Hupd Hres Husable.
  destruct (get_issues_touched_since_ok issues_list_all timestamp
              critical_only upd res w Hupd Hres Husable)
    as (kept & w' & Hrun & Hkept).
  exists (first_seen (id_of w') ∅ kept), w'.
  split; [assumption |]. split; [| split].
  - intros x Hx.
    assert (Hxk : x ∈ kept)
      by (eapply elem_of_sublist; [exact Hx | apply first_seen_sublist]).
    destruct (holds_elem_of _ _ _ _ Hkept Hxk) as (d0 & Hd0 & Hin).
    apply list_elem_of_fmap in Hin. destruct Hin as (d & -> & Hin).
    apply elem_of_filter_fresh in Hin. destruct Hin as [Hin Hfresh].
    destruct (fresh_newer _ _ Hfresh) as (t & Ht & Hlt).
    exists d, t. unfold labeled in Hd0. rewrite Ht in Hd0. auto.
  - apply first_seen_NoDup.
  - intros d Hin Hfresh.
    assert (Hd : labeled d ∈ map labeled
                   (List.filter (fresh timestamp) (res ++ upd))).
    { apply list_elem_of_fmap. exists d. split; [reflexivity |].
      now apply elem_of_filter_fresh. }
    destruct (holds_elem_of_r _ _ _ _ Hkept Hd) as (x & Hx & Hlook).
    destruct (first_seen_covers (id_of w') ∅ kept x Hx) as (y & Hy & E);
      [set_solver |].
    exists y. split; [assumption |]. rewrite E. now apply id_of_labeled.
Qed.

(** X10: when an issue is listed both as resolved and as updated, the
    record of the resolved list is the one returned: the resolved records
    come first in [resolved + updated] and deduplication keeps the first
    record of an id.  For every record returned whose id is that of a
    resolved record newer than the cutoff, the record returned is the
    labeled copy of a resolved record. *)
Theorem get_issues_touched_since_resolved_first (timestamp : string)
    (critical_only : bool) (upd res : list dict) (w : world) :
  issues_list_all (updated_query timestamp critical_only) = inr upd ->
  issues_list_all (resolved_query timestamp critical_only) = inr res ->
  Forall usable (res ++ upd) ->
  exists (out : list loc) (w' : world),
    get_issues_touched_since issues_list_all timestamp critical_only w =
    (inr out, w') /\
    (forall x r, x ∈ out -> r ∈ res -> fresh timestamp r = true ->
       idv r = id_of w' x ->
       exists r', r' ∈ res /\ heap w' !! x = Some (labeled r')).
Proof.
  intros Hupd Hres Husable.
  destruct (get_issues_touched_since_ok issues_list_all timestamp
              critical_only upd res w Hupd Hres Husable)
    as (kept & w' & Hrun & Hkept).
  exists (first_seen (id_of w') ∅ kept), w'.
  split; [assumption |].
  intros x r Hx Hr Hfresh Hid.
  destruct (first_seen_first (id_of w') ∅ kept x Hx)
    as (l1 & l2 & Hsplit & Hfirst).
  unfold holds in Hkept.
  rewrite Hsplit, List.filter_app, map_app in Hkept.
  apply Forall2_app_inv_l in Hkept.
  destruct Hkept as (D1 & D2 & H1 & H2 & Heq).
  inversion H2 as [| ? dx ? D2' Hlook _]; subst.
  assert (Hearlier : labeled r ∈ D1 -> False).
  { intros Hin.
    destruct (holds_elem_of_r _ _ _ _ H1 Hin) as (z & Hz & Hzlook).
    apply (Hfirst z Hz).
    rewrite (id_of_labeled _ _ _ Hzlook). assumption. }
  assert (Hrin : labeled r ∈ map labeled (List.filter (fresh timestamp) res)).
  { apply list_elem_of_fmap. exists r. split; [reflexivity |].
    now apply elem_of_filter_fresh. }
  apply List.app_eq_app in Heq. destruct Heq as [l [[E1 E2] | [E1 E2]]].
  - destruct l as [| a l].
    + exfalso. apply Hearlier. rewrite app_nil_r in E1. now rewrite <- E1.
    + simpl in E2. inversion E2; subst a.
      assert (Hdx : dx ∈ map labeled (List.filter (fresh timestamp) res)).
      { rewrite E1. apply elem_of_app. right. left. }
      apply list_elem_of_fmap in Hdx. destruct Hdx as (r' & -> & Hr').
      apply elem_of_filter_fresh in Hr'. exists r'. tauto.
  - exfalso. apply Hearlier. rewrite E1. apply elem_of_app. now left.
Qed.

End Returns.

(** ** What [describe_all_issues] returns *)

Lemma Forall2_elem_of_right {A B : Type} (P : A -> B -> Prop)
    (l : list A) (k : list B) (y : B) :
  Forall2 P l k -> y ∈ k -> exists x, x ∈ l /\ P x y.
Proof.
  induction 1 as [| x y' l k HP _ IH]; intros Hy.
  - inversion Hy.
  - apply elem_of_cons in Hy. destruct Hy as [-> | Hy].
    + exists x. split; [left | assumption].
    + destruct (IH Hy) as (x' & Hx' & HP'). exists x'.
      split; [now right | assumption].
Qed.

Section Described.

Variable issues_list_all : query -> exn + list dict.
Variable issues_describe : val -> exn + dict.
Variable describe_issues_threads : nat.

Lemma mapM_get_issue_full_answers (ids : list val) (w : world) :
  (forall i, i ∈ ids -> exists d, issues_describe i = inr d) ->
  exists ds : list dict,
    Forall2 (fun i d => issues_describe i = inr d) ids ds /\
    mapM (get_issue_full issues_describe) ids w =
    (inr (seq (length (heap w)) (length ids)),
     {| heap := heap w ++ ds; log := log w;
        calls := calls w ++ map Describe ids |}).
Proof.
  revert w. induction ids as [| i ids IH]; intros w Hall.
  - exists []. split; [constructor |]. simpl. unfold ret.
    rewrite !app_nil_r. now destruct w.
  - destruct (Hall i (list_elem_of_here _ _)) as [d Hd].
    set (w1 := set_heap (heap w ++ [d])
                 {| heap := heap w; log := log w;
                    calls := calls w ++ [Describe i] |}).
    destruct (IH w1) as (ds & HF & Hrun).
    { intros j Hj. apply Hall. now right. }
    exists (d :: ds). split; [now constructor |].
    assert (Hi : get_issue_full issues_describe i w =
                 (inr (length (heap w)), w1)).
    { rewrite get_issue_full_run. now rewrite Hd. }
    cbn [mapM]. rewrite (bind_ok _ _ _ _ _ Hi), (bind_ok _ _ _ _ _ Hrun).
    unfold ret, w1. simpl. rewrite length_app. simpl.
    rewrite Nat.add_1_r, <- !app_assoc. reflexivity.
Qed.

Lemma mapM_get_issue_full_fails (ids : list val) (w : world) :
  (exists i e, i ∈ ids /\ issues_describe i = inl e) ->
  exists i e w',
    i ∈ ids /\ issues_describe i = inl e /\
    mapM (get_issue_full issues_describe) ids w = (inl e, w').
Proof.
  revert w. induction ids as [| i ids IH]; intros w (j & e & Hj & He).
  - inversion Hj.
  - cbn [mapM]. unfold bind at 1. rewrite get_issue_full_run. cbv zeta.
    destruct (issues_describe i) as [e' | d] eqn:Ei.
    + exists i, e'. eexists. split; [left | split; [assumption | reflexivity]].
    + assert (Hrest : exists i0 e0, i0 ∈ ids /\ issues_describe i0 = inl e0).
      { apply elem_of_cons in Hj. destruct Hj as [-> | Hj]; [congruence |].
        eauto. }
      destruct (IH (set_heap (heap w ++ [d])
                      {| heap := heap w; log := log w;
                         calls := calls w ++ [Describe i] |}) Hrest)
        as (i0 & e0 & w' & Hi0 & He0 & Hrun).
      exists i0, e0, w'. split; [now right |]. split; [assumption |].
      now rewrite (bind_err _ _ _ _ _ Hrun).
Qed.

(** The ids [describe_all_issues] asks about, and the world it asks in. *)
Lemma describe_all_issues_ids (timestamp : string) (critical_only : bool)
    (upd res : list dict) (w : world) :
  0 < describe_issues_threads ->
  issues_list_all (updated_query timestamp critical_only) = inr upd ->
  issues_list_all (resolved_query timestamp critical_only) = inr res ->
  Forall usable (res ++ upd) ->
  exists (ids : list val) (w2 : world),
    NoDup ids /\
    (forall i, i ∈ ids <->
       exists d, d ∈ res ++ upd /\ fresh timestamp d = true /\ idv d = i) /\
    calls w2 = calls w ++ [ListAll (updated_query timestamp critical_only);
                           ListAll (resolved_query timestamp critical_only)] /\
    describe_all_issues issues_list_all issues_describe
      describe_issues_threads timestamp critical_only w =
    (let* results := mapM (get_issue_full issues_describe) ids in
     let* retval := mapM time_label_issue results in
     ret retval) w2.
Proof.
  intros Hthreads Hupd Hres Husable.
  destruct (get_issues_touched_since_ok issues_list_all timestamp
              critical_only upd res w Hupd Hres Husable)
    as (kept & w1 & Hrun1 & Hkept).
  pose proof (get_issues_touched_since_frame issues_list_all timestamp
                critical_only w) as Hframe.
  cbv zeta in Hframe. rewrite Hrun1, Hupd in Hframe. simpl in Hframe.
  destruct Hframe as (_ & Hcalls1 & _).
  assert (Hkid : forall x, x ∈ kept -> is_Some (field w1 x "id")).
  { intros x Hx. destruct (holds_elem_of _ _ _ _ Hkept Hx) as (d & Hd & Hin).
    apply list_elem_of_fmap in Hin. destruct Hin as (d0 & -> & Hin).
    apply elem_of_filter_fresh in Hin. destruct Hin as [Hin _].
    rewrite Forall_forall in Husable. destruct (Husable d0 Hin) as [Hid _].
    unfold field. rewrite Hd. now rewrite labeled_id. }
  assert (Htid : forall x, x ∈ first_seen (id_of w1) ∅ kept ->
                            is_Some (field w1 x "id")).
  { intros x Hx. apply Hkid.
    eapply elem_of_sublist; [exact Hx | apply first_seen_sublist]. }
  set (ids := elements (list_to_set
                (map idv (List.filter (fresh timestamp) (res ++ upd)))
                : gset val)).
  exists ids, {| heap := heap w1;
                 log := log w1 ++ [(DEBUG,
                   "Describing all Halo issues. Concurrency: "
                   +:+ str_of_nat describe_issues_threads)];
                 calls := calls w1 |}.
  split; [apply NoDup_elements |]. split; [| split; [exact Hcalls1 |]].
  - intros i. unfold ids.
    rewrite elem_of_elements, elem_of_list_to_set, list_elem_of_fmap.
    split.
    + intros (d & -> & Hd). apply elem_of_filter_fresh in Hd.
      exists d. tauto.
    + intros (d & Hd & Hfresh & <-). exists d.
      split; [reflexivity |]. now apply elem_of_filter_fresh.
  - unfold describe_all_issues. rewrite (bind_ok _ _ _ _ _ Hrun1).
    rewrite (bind_ok _ _ _ _ _ (mapM_getitem_id w1 _ Htid)).
    rewrite first_seen_ids, (holds_ids _ _ _ Hkept), map_map.
    rewrite (map_ext _ idv)
      by (intros d; apply (f_equal (default VNone)), labeled_id).
    unfold bind at 1. unfold logger at 1.
    now rewrite (bind_ok _ _ _ _ _ (pool_ok _ _ Hthreads)).
Qed.

(** X13: what [describe_all_issues] returns when there is at least one
    worker (the pool cannot be built with none), both queries answer with
    records that have an id and a timestamp, and [describe] answers, for
    the id of every listed record newer than the cutoff, with a record that
    has a timestamp.  The ids asked about are pairwise distinct and are
    exactly the ids of the listed records newer than the cutoff; there is
    one [describe] request for each, after the two list queries, and
    nothing else is requested; the records returned are, in that order, the
    labeled copies of what [describe] answered, one for each id; and when
    [describe] answers with records that carry the id asked for, the ids of
    the records returned are those ids, so they are pairwise distinct. *)
Theorem describe_all_issues_returns (timestamp : string)
    (critical_only : bool) (upd res : list dict) (w : world) :
  issues_list_all (updated_query timestamp critical_only) = inr upd ->
  issues_list_all (resolved_query timestamp critical_only) = inr res ->
  0 < describe_issues_threads ->
  Forall usable (res ++ upd) ->
  (forall d, d ∈ res ++ upd -> fresh timestamp d = true ->
     exists d', issues_describe (idv d) = inr d' /\ is_Some (tstamp_of d')) ->
  exists (retval : list loc) (w' : world) (ids : list val) (ds : list dict),
    describe_all_issues issues_list_all issues_describe
      describe_issues_threads timestamp critical_only w = (inr retval, w') /\
    NoDup ids /\
    (forall i, i ∈ ids <->
       exists d, d ∈ res ++ upd /\ fresh timestamp d = true /\ idv d = i) /\
    Forall2 (fun i d => issues_describe i = inr d) ids ds /\
    holds w' retval (map labeled ds) /\
    length retval = length ids /\
    ((forall i d, issues_describe i = inr d -> d !! "id" = Some i) ->
     map (id_of w') retval = ids) /\
    calls w' = calls w ++ [ListAll (updated_query timestamp critical_only);
                           ListAll (resolved_query timestamp critical_only)]
                       ++ map Describe ids.
Proof.
  intros Hupd Hres Hthreads Husable Hdescribe.
  destruct (describe_all_issues_ids timestamp critical_only upd res w
              Hthreads Hupd Hres Husable)
    as (ids & w2 & Hnd & Hids & Hcalls2 & Hrun).
  destruct (mapM_get_issue_full_answers ids w2) as (ds & HF & Hrun3).
  { intros i Hi. apply Hids in Hi. destruct Hi as (d & Hd & Hfresh & <-).
    destruct (Hdescribe d Hd Hfresh) as (d' & Hd' & _). eauto. }
  set (w3 := {| heap := heap w2 ++ ds; log := log w2;
                calls := calls w2 ++ map Describe ids |}) in Hrun3.
  assert (Hlen : length ds = length ids)
    by (symmetry; exact (Forall2_length _ _ _ HF)).
  assert (Hts : Forall (fun d => is_Some (tstamp_of d)) ds).
  { apply Forall_forall. intros d Hd.
    destruct (Forall2_elem_of_right _ _ _ _ HF Hd) as (i & Hi & Hdi).
    apply Hids in Hi. destruct Hi as (d0 & Hd0 & Hfresh & <-).
    destruct (Hdescribe d0 Hd0 Hfresh) as (d' & Hd' & Hsome).
    congruence. }
  assert (Hres3 : holds w3 (seq (length (heap w2)) (length ids)) ds).
  { rewrite <- Hlen. apply (holds_seq (heap w2) ds []).
    simpl. now rewrite app_nil_r. }
  exists (seq (length (heap w3)) (length (seq (length (heap w2)) (length ids)))),
         (set_heap (heap w3 ++ map labeled ds) w3), ids, ds.
  assert (Hout : holds (set_heap (heap w3 ++ map labeled ds) w3)
                   (seq (length (heap w3))
                        (length (seq (length (heap w2)) (length ids))))
                   (map labeled ds)).
  { replace (length (seq (length (heap w2)) (length ids)))
      with (length (map labeled ds))
      by (rewrite length_map, length_seq; assumption).
    apply (holds_seq (heap w3) _ []). simpl. now rewrite app_nil_r. }
  split; [| split; [assumption | split; [assumption | split;
           [assumption | split; [assumption | split; [| split]]]]]].
  - rewrite Hrun, (bind_ok _ _ _ _ _ Hrun3).
    now rewrite (bind_ok _ _ _ _ _
                   (mapM_time_label_issue_ok _ _ _ Hres3 Hts)).
  - now rewrite !length_seq.
  - intros Hsame. rewrite (holds_ids _ _ _ Hout), map_map.
    clear - HF Hsame. induction HF as [| i d ids ds Hd _ IH]; [reflexivity |].
    simpl. rewrite IH, labeled_id, (Hsame _ _ Hd). reflexivity.
  - simpl. rewrite Hcalls2. now rewrite <- app_assoc.
Qed.

(** X14: a failing [describe] fails the whole call.  When there is at
    least one worker, both queries
    answer with records that have an id and a timestamp and [describe]
    raises for the id of some listed record newer than the cutoff,
    [describe_all_issues] raises the exception of such a [describe]; no
    record is returned for the issues that could be described. *)
Theorem describe_all_issues_describe_fails (timestamp : string)
    (critical_only : bool) (upd res : list dict) (w : world) :
  issues_list_all (updated_query timestamp critical_only) = inr upd ->
  issues_list_all (resolved_query timestamp critical_only) = inr res ->
  0 < describe_issues_threads ->
  Forall usable (res ++ upd) ->
  (exists d e, d ∈ res ++ upd /\ fresh timestamp d = true /\
               issues_describe (idv d) = inl e) ->
  exists (d : dict) (e : exn) (w' : world),
    d ∈ res ++ upd /\ fresh timestamp d = true /\
    issues_describe (idv d) = inl e /\
    describe_all_issues issues_list_all issues_describe
      describe_issues_threads timestamp critical_only w = (inl e, w').
Proof.
  intros Hupd Hres Hthreads Husable (d & e & Hd & Hfresh & He).
  destruct (describe_all_issues_ids timestamp critical_only upd res w
              Hthreads Hupd Hres Husable)
    as (ids & w2 & Hnd & Hids & Hcalls2 & Hrun).
  destruct (mapM_get_issue_full_fails ids w2)
    as (i & e' & w' & Hi & He' & Hrun3).
  { exists (idv d), e. split; [| assumption]. apply Hids. eauto. }
  apply Hids in Hi. destruct Hi as (d0 & Hd0 & Hfresh0 & <-).
  exists d0, e', w'. repeat split; try assumption.
  rewrite Hrun. now rewrite (bind_err _ _ _ _ _ Hrun3).
Qed.

End Described.

(** ** Records the pipeline cannot carry *)

(** A record with the three timestamp fields. *)
Definition keyed (d : dict) : Prop :=
  forall k, In k target_fields -> is_Some (d !! k).

(** A record with the three timestamp fields, all [None]. *)
Definition undated (d : dict) : Prop :=
  forall k, In k target_fields -> d !! k = Some VNone.

Lemma undated_no_tstamps (d : dict) :
  undated d -> tstamps_of d target_fields = inr [].
Proof.
  intros H. unfold target_fields in *. simpl.
  rewrite (H "created_at"), (H "resolved_at"), (H "last_seen_at");
    simpl; auto.
Qed.

Lemma mapM_time_label_issue_undated (w : world) (xs : list loc)
    (ds : list dict) :
  holds w xs ds -> Forall keyed ds -> Exists undated ds ->
  exists w', mapM time_label_issue xs w = (inl IndexError, w').
Proof.
  revert w xs.
  induction ds as [| d ds IH]; intros w xs H Hkeyed Hex;
    inversion H as [| x ? xs' ? Hx H']; subst.
  - inversion Hex.
  - apply Forall_cons in Hkeyed. destruct Hkeyed as [Hd Hkeyed].
    cbn [mapM]. unfold bind at 1. unfold time_label_issue at 1.
    rewrite (time_label_with_run _ _ _ _ Hx).
    rewrite (tstamps_of_present d target_fields Hd).
    destruct (last (sorted (non_null d target_fields))) as [m |] eqn:Em.
    + assert (Hrest : Exists undated ds).
      { apply Exists_cons in Hex. destruct Hex as [Hu | Hex]; [| assumption].
        pose proof (undated_no_tstamps d Hu) as E.
        rewrite (tstamps_of_present d target_fields Hd) in E.
        inversion E as [E']. rewrite E' in Em. discriminate. }
      set (w1 := set_heap (heap w ++ [<["tstamp" := m]> d]) w).
      assert (Hext : extends w w1) by now exists [<["tstamp" := m]> d].
      destruct (IH w1 xs' (holds_extends _ _ _ _ Hext H') Hkeyed Hrest)
        as (w' & Hrun).
      exists w'. now rewrite (bind_err _ _ _ _ _ Hrun).
    + eexists. reflexivity.
Qed.

Section Malformed.

Variable issues_list_all : query -> exn + list dict.
Variable issues_describe : val -> exn + dict.
Variable describe_issues_threads : nat.

(** X18: one record without any timestamp fails the whole retrieval.
    When both queries answer with records that carry the three timestamp
    fields and one record has all three [None], [get_issues_touched_since]
    and [describe_all_issues] raise [IndexError]; nothing is returned for
    the other records, and no issue is described. *)
Theorem get_issues_touched_since_undated (timestamp : string)
    (critical_only : bool) (upd res : list dict) (w : world) :
  issues_list_all (updated_query timestamp critical_only) = inr upd ->
  issues_list_all (resolved_query timestamp critical_only) = inr res ->
  Forall keyed (res ++ upd) ->
  Exists undated (res ++ upd) ->
  exists w',
    get_issues_touched_since issues_list_all timestamp critical_only w =
    (inl IndexError, w') /\
    describe_all_issues issues_list_all issues_describe
      describe_issues_threads timestamp critical_only w =
    (inl IndexError, w') /\
    calls w' = calls w ++ [ListAll (updated_query timestamp critical_only);
                           ListAll (resolved_query timestamp critical_only)].
Proof.
  intros Hupd Hres Hkeyed Hex.
  assert (Hrun : exists w',
            get_issues_touched_since issues_list_all timestamp
              critical_only w = (inl IndexError, w')).
  { unfold get_issues_touched_since.
    rewrite (bind_ok _ _ _ _ _ (list_all_ok _ _ _ w Hupd)).
    set (w1 := {| heap := heap w ++ upd; log := log w; calls := _ |}).
    rewrite (bind_ok _ _ _ _ _ (list_all_ok _ _ _ w1 Hres)).
    set (w2 := {| heap := heap w1 ++ res; log := log w1; calls := _ |}).
    cbv zeta. unfold bind at 1. unfold logger at 1.
    set (w3 := {| heap := heap w2; log := _; calls := calls w2 |}).
    assert (Hall : holds w3 (seq (length (heap w1)) (length res)
                             ++ seq (length (heap w)) (length upd))
                     (res ++ upd)).
    { apply holds_app.
      - apply (holds_seq (heap w1) res []). simpl. now rewrite app_nil_r.
      - apply (holds_seq (heap w) upd res). simpl. now rewrite <- app_assoc. }
    destruct (mapM_time_label_issue_undated _ _ _ Hall Hkeyed Hex)
      as (w' & Hfail).
    exists w'. now rewrite (bind_err _ _ _ _ _ Hfail). }
  destruct Hrun as (w' & Hrun). exists w'.
  split; [assumption |]. split.
  - unfold describe_all_issues. now rewrite (bind_err _ _ _ _ _ Hrun).
  - pose proof (get_issues_touched_since_frame issues_list_all timestamp
                  critical_only w) as Hframe.
    cbv zeta in Hframe. rewrite Hrun, Hupd in Hframe. simpl in Hframe.
    tauto.
Qed.

End Malformed.

(** ** [deduplicate_issues] on a record without an id *)

Lemma dedup_loop_missing_id (w : world) (issues : list loc)
    (seen : gset val) (acc : list loc) :
  (forall x, x ∈ issues -> is_Some (heap w !! x)) ->
  (exists x, x ∈ issues /\ field w x "id" = None) ->
  dedup_loop issues seen acc w = (inl (KeyError "id"), w).
Proof.
  revert seen acc.
  induction issues as [| x issues IH]; intros seen acc Hrefs (y & Hy & Hnone).
  - inversion Hy.
  - destruct (Hrefs x (list_elem_of_here _ _)) as [d Hd].
    cbn [dedup_loop]. unfold bind at 1. rewrite (getitem_run _ _ _ _ Hd).
    destruct (d !! "id") as [i |] eqn:Ei; [| reflexivity].
    assert (Hrest : exists z, z ∈ issues /\ field w z "id" = None).
    { apply elem_of_cons in Hy. destruct Hy as [-> | Hy]; [| eauto].
      unfold field in Hnone. rewrite Hd in Hnone. congruence. }
    assert (Hrefs' : forall z, z ∈ issues -> is_Some (heap w !! z)).
    { intros z Hz. apply Hrefs. now right. }
    case_decide.
    + now apply IH.
    + unfold bind at 1. rewrite (getitem_run _ _ _ _ Hd), Ei.
      now apply IH.
Qed.

(** X16: [deduplicate_issues] needs an [id] in every record: when one of
    the records has none, it raises [KeyError] for [id], whatever the other
    records are, and the store is as it was. *)
Theorem deduplicate_issues_missing_id (w : world) (issues : list loc) :
  (forall x, x ∈ issues -> is_Some (heap w !! x)) ->
  (exists x, x ∈ issues /\ field w x "id" = None) ->
  deduplicate_issues issues w = (inl (KeyError "id"), w).
Proof. apply dedup_loop_missing_id. Qed.

Lemma deduplicate_issues_missing_id_witness :
  deduplicate_issues [0; 1]
    (set_heap [labeled_first; {[ "tstamp" := VStr "2020-01-01" ]}] world0)
  = (inl (KeyError "id"),
     set_heap [labeled_first; {[ "tstamp" := VStr "2020-01-01" ]}] world0).
Proof.
  apply (deduplicate_issues_missing_id
           (set_heap [labeled_first; {[ "tstamp" := VStr "2020-01-01" ]}]
                     world0) [0; 1]).
  - intros x Hx. apply elem_of_cons in Hx. destruct Hx as [-> | Hx].
    + eexists. reflexivity.
    + apply list_elem_of_singleton in Hx. subst x. eexists. reflexivity.
  - exists 1. split; [right; left | reflexivity].
Defined.

(** ** Labeling again *)

Lemma tstamps_of_insert_tstamp (d : dict) (v : val) :
  tstamps_of (<["tstamp" := v]> d) target_fields = tstamps_of d target_fields.
Proof.
  unfold target_fields. simpl.
  now rewrite !lookup_insert_ne by discriminate.
Qed.

(** X15: a [tstamp] the record already has plays no part: it is not one
    of the three fields read, and the copy gets the newest of the three in
    its place.  So labeling a record that holds any [tstamp] gives the same
    dictionary as labeling the record without it, and labeling a labeled
    copy again gives a dictionary equal to that copy. *)
Theorem time_label_issue_overwrites (w : world) (issue : loc) (d : dict)
    (old m : val) :
  heap w !! issue = Some (<["tstamp" := old]> d) ->
  tstamp_of d = Some m ->
  exists w1 w2,
    time_label_issue issue w = (inr (length (heap w)), w1) /\
    heap w1 !! length (heap w) = Some (<["tstamp" := m]> d) /\
    time_label_issue (length (heap w)) w1 = (inr (length (heap w1)), w2) /\
    heap w2 !! length (heap w1) = Some (<["tstamp" := m]> d).
Proof.
  intros Hx Hm.
  assert (Hpreset : forall v, tstamp_of (<["tstamp" := v]> d) = Some m).
  { intros v. unfold tstamp_of in *. now rewrite tstamps_of_insert_tstamp. }
  set (w1 := set_heap (heap w ++ [<["tstamp" := m]> (<["tstamp" := old]> d)]) w).
  assert (Hy : heap w1 !! length (heap w) = Some (<["tstamp" := m]> d)).
  { simpl. rewrite lookup_snoc_new. now rewrite insert_insert_eq. }
  exists w1, (set_heap (heap w1 ++ [<["tstamp" := m]> (<["tstamp" := m]> d)]) w1).
  split; [exact (time_label_issue_ok _ _ _ _ Hx (Hpreset old)) |].
  split; [assumption |].
  split; [exact (time_label_issue_ok _ _ _ _ Hy (Hpreset m)) |].
  cbn [heap set_heap]. rewrite lookup_snoc_new. now rewrite insert_insert_eq.
Qed.

(** A resolved record that comes with an old [tstamp]. *)
Definition stale_labeled : dict :=
  <["tstamp" := VStr "1999-12-31"]> resolved_record.

Lemma time_label_issue_overwrites_witness :
  exists w1 w2,
    time_label_issue 0 (set_heap [stale_labeled] world0) = (inr 1, w1) /\
    heap w1 !! 1 = Some (<["tstamp" := VStr "2020-04-01"]> resolved_record) /\
    time_label_issue 1 w1 = (inr (length (heap w1)), w2) /\
    heap w2 !! length (heap w1)
    = Some (<["tstamp" := VStr "2020-04-01"]> resolved_record).
Proof.
  apply (time_label_issue_overwrites (set_heap [stale_labeled] world0) 0
           resolved_record (VStr "1999-12-31") (VStr "2020-04-01")).
  - reflexivity.
  - vm_compute. reflexivity.
Defined.

(** ** The comparison with the cutoff *)

(** X17: [targeted_date] is a strict order, with [None] below every
    string.  A sample is never after itself, so a timestamp equal to the
    cutoff is outside the window; [None] is after nothing; of two different
    values exactly one is after the other; and being after carries over. *)
Theorem targeted_date_strict_order :
  (forall a, targeted_date a a = false) /\
  (forall a, targeted_date VNone a = false) /\
  (forall a b, targeted_date a b = true -> targeted_date b a = false) /\
  (forall a b, a <> b -> targeted_date a b = true \/ targeted_date b a = true) /\
  (forall a b c, targeted_date a b = true -> targeted_date b c = true ->
                 targeted_date a c = true).
Proof.
  assert (Hgt : forall a b, targeted_date a b = negb (val_le a b)).
  { intros a b. unfold targeted_date, val_gt. now destruct (val_le a b). }
  split; [| split; [| split; [| split]]].
  - intros a. now rewrite Hgt, val_le_refl.
  - intros a. reflexivity.
  - intros a b. rewrite !Hgt. intros H. apply negb_true_iff in H.
    destruct (val_le_total a b) as [E | E]; [congruence | now rewrite E].
  - intros a b Hne. rewrite !Hgt.
    destruct (val_le a b) eqn:E1; destruct (val_le b a) eqn:E2; auto.
    exfalso. apply Hne. now apply val_le_antisym.
  - intros a b c. rewrite !Hgt. intros H1 H2.
    apply negb_true_iff in H1, H2. apply negb_true_iff.
    destruct (val_le a c) eqn:E; [| reflexivity].
    destruct (val_le_total b c) as [E' | E']; [congruence |].
    pose proof (val_le_trans _ _ _ E E'). congruence.
Qed.

(** ** The theorems at the example source *)

Lemma cx_usable : Forall usable (cx_resolved ++ cx_updated).
Proof.
  unfold cx_resolved, cx_updated. simpl app.
  repeat (apply List.Forall_cons;
          [split; eexists; vm_compute; reflexivity |]).
  apply List.Forall_nil.
Qed.

Lemma cx_describe_answers (d : dict) :
  exists d', cx_describe (idv d) = inr d' /\ is_Some (tstamp_of d').
Proof.
  eexists. split; [reflexivity |]. eexists. vm_compute. reflexivity.
Qed.

Lemma get_issues_touched_since_returns_witness :
  exists (out : list loc) (w' : world),
    get_issues_touched_since cx_list_all "2020-02-01" true world0 =
    (inr out, w') /\
    (forall x, x ∈ out ->
       exists d t, d ∈ cx_resolved ++ cx_updated /\
                   heap w' !! x = Some (<["tstamp" := VStr t]> d) /\
                   tstamp_of d = Some (VStr t) /\
                   String.ltb "2020-02-01" t = true) /\
    NoDup (map (id_of w') out) /\
    (forall d, d ∈ cx_resolved ++ cx_updated -> fresh "2020-02-01" d = true ->
       exists x, x ∈ out /\ id_of w' x = idv d).
Proof.
  apply (get_issues_touched_since_returns cx_list_all "2020-02-01" true
           cx_updated cx_resolved world0);
    [reflexivity | reflexivity | exact cx_usable].
Defined.

Lemma get_issues_touched_since_resolved_first_witness :
  exists (out : list loc) (w' : world),
    get_issues_touched_since cx_list_all "2020-01-15" true world0 =
    (inr out, w') /\
    (forall x r, x ∈ out -> r ∈ cx_resolved -> fresh "2020-01-15" r = true ->
       idv r = id_of w' x ->
       exists r', r' ∈ cx_resolved /\ heap w' !! x = Some (labeled r')).
Proof.
  apply (get_issues_touched_since_resolved_first cx_list_all "2020-01-15"
           true cx_updated cx_resolved world0);
    [reflexivity | reflexivity | exact cx_usable].
Defined.

Lemma describe_all_issues_returns_witness :
  exists (retval : list loc) (w' : world) (ids : list val) (ds : list dict),
    describe_all_issues cx_list_all cx_describe 5 "2020-02-01" true world0
    = (inr retval, w') /\
    NoDup ids /\
    (forall i, i ∈ ids <->
       exists d, d ∈ cx_resolved ++ cx_updated /\
                 fresh "2020-02-01" d = true /\ idv d = i) /\
    Forall2 (fun i d => cx_describe i = inr d) ids ds /\
    holds w' retval (map labeled ds) /\
    length retval = length ids /\
    ((forall i d, cx_describe i = inr d -> d !! "id" = Some i) ->
     map (id_of w') retval = ids) /\
    calls w' = calls world0
                 ++ [ListAll (updated_query "2020-02-01" true);
                     ListAll (resolved_query "2020-02-01" true)]
                 ++ map Describe ids.
Proof.
  apply (describe_all_issues_returns cx_list_all cx_describe 5 "2020-02-01"
           true cx_updated cx_resolved world0);
    [reflexivity | reflexivity | lia | exact cx_usable |].
  intros d _ _. apply cx_describe_answers.
Defined.

(** A source that cannot describe anything. *)
Definition no_describe (i : val) : exn + dict :=
  inl (CloudPassageError ("404 " +:+ str_of_val i)).

Lemma describe_all_issues_describe_fails_witness :
  exists (d : dict) (e : exn) (w' : world),
    d ∈ cx_resolved ++ cx_updated /\ fresh "2020-02-01" d = true /\
    no_describe (idv d) = inl e /\
    describe_all_issues cx_list_all no_describe 5 "2020-02-01" true world0
    = (inl e, w').
Proof.
  apply (describe_all_issues_describe_fails cx_list_all no_describe 5
           "2020-02-01" true cx_updated cx_resolved world0);
    [reflexivity | reflexivity | lia | exact cx_usable |].
  exists (issue "B" (VStr "2020-01-01") VNone (VStr "2020-03-02")).
  eexists. split; [| split; [vm_compute; reflexivity | reflexivity]].
  apply elem_of_app. right. right. left.
Defined.

(** A source whose one active issue has no timestamp at all. *)
Definition undated_list_all (q : query) : exn + list dict :=
  if String.eqb (q_status q) "active" then inr [null_record] else inr [].

Lemma get_issues_touched_since_undated_witness :
  exists w',
    get_issues_touched_since undated_list_all "2020-02-01" true world0 =
    (inl IndexError, w') /\
    describe_all_issues undated_list_all cx_describe 5 "2020-02-01" true
      world0 = (inl IndexError, w') /\
    calls w' = calls world0
                 ++ [ListAll (updated_query "2020-02-01" true);
                     ListAll (resolved_query "2020-02-01" true)].
Proof.
  apply (get_issues_touched_since_undated undated_list_all cx_describe 5
           "2020-02-01" true [null_record] [] world0);
    [reflexivity | reflexivity | |].
  - apply List.Forall_cons; [| apply List.Forall_nil].
    intros k Hk. simpl in Hk.
    destruct Hk as [<- | [<- | [<- | []]]]; eexists; reflexivity.
  - apply Exists_cons_hd. intros k Hk. simpl in Hk.
    destruct Hk as [<- | [<- | [<- | []]]]; reflexivity.
Defined.

(** ** What [get_issues_touched_since] logs *)

Lemma holds_filter_by (w : world) (p : loc -> bool) (q : dict -> bool)
    (xs : list loc) (ds : list dict) :
  (forall x d, heap w !! x = Some d -> p x = q d) ->
  holds w xs ds -> holds w (List.filter p xs) (List.filter q ds).
Proof.
  intros Hpq. induction 1 as [| x d xs ds Hx _ IH]; [constructor |].
  simpl. rewrite (Hpq x d Hx).
  destruct (q d); [constructor |]; assumption.
Qed.

Lemma filter_stale_labeled (timestamp : string) (ds : list dict) :
  Forall (fun d => is_Some (tstamp_of d)) ds ->
  List.filter (fun d => negb (newer_dict timestamp d)) (map labeled ds) =
  map labeled (List.filter (fun d => negb (fresh timestamp d)) ds).
Proof.
  induction 1 as [| d ds Hd _ IH]; [reflexivity |].
  simpl. rewrite (newer_dict_labeled _ _ Hd), IH.
  now destruct (fresh timestamp d).
Qed.

(** The line logged for a discarded record. *)
Definition discarded_line (i t : val) : level * string :=
  (DEBUG, "Issue out of tmie range (discarding): ID: " +:+ str_of_val i
          +:+ " Timestamp: " +:+ str_of_val t).

Lemma forM_log_run (l : list loc) (w : world) :
  (forall x, x ∈ l ->
     is_Some (field w x "id") /\ is_Some (field w x "tstamp")) ->
  forM_ (fun d_i =>
           let* i := getitem d_i "id" in
           let* t := getitem d_i "tstamp" in
           logger DEBUG
             ("Issue out of tmie range (discarding): ID: "
              +:+ str_of_val i +:+ " Timestamp: " +:+ str_of_val t)) l w =
  (inr tt,
   {| heap := heap w;
      log := log w ++ map (fun x => discarded_line
                                      (id_of w x)
                                      (default VNone (field w x "tstamp"))) l;
      calls := calls w |}).
Proof.
  revert w. induction l as [| x l IH]; intros w Hl.
  - simpl. unfold ret. rewrite app_nil_r. now destruct w.
  - destruct (Hl x (list_elem_of_here _ _)) as [[i Hi] [t Ht]].
    cbn [forM_]. unfold bind at 1.
    rewrite (bind_ok _ _ _ _ _ (getitem_field _ _ _ _ Hi)).
    rewrite (bind_ok _ _ _ _ _ (getitem_field _ _ _ _ Ht)).
    unfold logger at 1.
    rewrite IH by (intros y Hy; apply Hl; now right).
    simpl. unfold id_of. rewrite Hi, Ht. simpl.
    now rewrite <- app_assoc.
Qed.

Lemma discarded_lines_labeled (w : world) (xs : list loc) (ds : list dict) :
  holds w xs (map labeled ds) ->
  Forall (fun d => is_Some (tstamp_of d)) ds ->
  map (fun x => discarded_line (id_of w x)
                               (default VNone (field w x "tstamp"))) xs =
  map (fun d => discarded_line (idv d) (default VNone (tstamp_of d))) ds.
Proof.
  revert xs. induction ds as [| d ds IH]; intros xs H Hall;
    inversion H as [| x ? xs' ? Hx H']; subst; [reflexivity |].
  apply Forall_cons in Hall. destruct Hall as [[m Hm] Hall].
  simpl. rewrite (IH xs' H' Hall). f_equal.
  rewrite (id_of_labeled _ _ _ Hx). unfold field.
  now rewrite Hx, (labeled_tstamp _ _ Hm), Hm.
Qed.

Section Logged.

Variable issues_list_all : query -> exn + list dict.

(** X19: what [get_issues_touched_since] logs when both queries answer
    with records that have an id and a timestamp: first the INFO line with
    the numbers of active and of resolved issues; then, only when some
    listed record is not newer than the cutoff, the INFO line with the number
    of such records; then one DEBUG line for each of them, in the order of
    [resolved + updated], with its id and its newest timestamp. *)
Theorem get_issues_touched_since_log (timestamp : string)
    (critical_only : bool) (upd res : list dict) (w : world) :
  issues_list_all (updated_query timestamp critical_only) = inr upd ->
  issues_list_all (resolved_query timestamp critical_only) = inr res ->
  Forall usable (res ++ upd) ->
  let stale := List.filter (fun d => negb (fresh timestamp d)) (res ++ upd) in
  exists (out : list loc) (w' : world),
    get_issues_touched_since issues_list_all timestamp critical_only w =
    (inr out, w') /\
    log w' =
    log w
    ++ [(INFO, "Active issues: " +:+ str_of_nat (length upd)
               +:+ " Resolved issues: " +:+ str_of_nat (length res) +:+ ".")]
    ++ (if Nat.eqb (length stale) 0 then []
        else [(INFO, "Discarding " +:+ str_of_nat (length stale)
                     +:+ " issues outside of time range")])
    ++ map (fun d => discarded_line (idv d) (default VNone (tstamp_of d)))
           stale.
Proof.
  intros Hupd Hres Husable stale.
  assert (Hts : Forall (fun d => is_Some (tstamp_of d)) (res ++ upd)).
  { eapply Forall_impl; [exact Husable |]. now intros d [_ H]. }
  assert (Hts_stale : Forall (fun d => is_Some (tstamp_of d)) stale).
  { apply Forall_forall. intros d Hd. unfold stale in Hd.
    apply list_elem_of_In, List.filter_In in Hd. destruct Hd as [Hd _].
    rewrite Forall_forall in Hts. apply Hts. now apply list_elem_of_In. }
  unfold get_issues_touched_since.
  rewrite (bind_ok _ _ _ _ _ (list_all_ok _ _ _ w Hupd)).
  set (w1 := {| heap := heap w ++ upd; log := log w;
                calls := calls w ++ [ListAll (updated_query timestamp critical_only)] |}).
  rewrite (bind_ok _ _ _ _ _ (list_all_ok _ _ _ w1 Hres)).
  set (w2 := {| heap := heap w1 ++ res; log := log w1;
                calls := calls w1 ++ [ListAll (resolved_query timestamp critical_only)] |}).
  cbv zeta. unfold bind at 1. unfold logger at 1.
  set (w3 := {| heap := heap w2; log := _; calls := calls w2 |}).
  set (updated := seq (length (heap w)) (length upd)).
  set (resolved := seq (length (heap w1)) (length res)).
  assert (Hall : holds w3 (resolved ++ updated) (res ++ upd)).
  { apply holds_app.
    - apply (holds_seq (heap w1) res []). simpl. now rewrite app_nil_r.
    - apply (holds_seq (heap w) upd res). simpl. now rewrite <- app_assoc. }
  rewrite (bind_ok _ _ _ _ _ (mapM_time_label_issue_ok _ _ _ Hall Hts)).
  set (w4 := set_heap (heap w3 ++ map labeled (res ++ upd)) w3).
  set (lab := seq (length (heap w3)) (length (resolved ++ updated))).
  assert (Hlablen : length lab = length (res ++ upd)).
  { unfold lab. rewrite length_seq. exact (Forall2_length _ _ _ Hall). }
  assert (Hlab : holds w4 lab (map labeled (res ++ upd))).
  { unfold lab. replace (length (resolved ++ updated))
      with (length (map labeled (res ++ upd))).
    - apply (holds_seq (heap w3) _ []). simpl. now rewrite app_nil_r.
    - rewrite length_map. symmetry. exact (Forall2_length _ _ _ Hall). }
  assert (Hfields : forall x, x ∈ lab ->
            is_Some (field w4 x "id") /\ is_Some (field w4 x "tstamp")).
  { intros x Hx. destruct (holds_elem_of _ _ _ _ Hlab Hx) as (d & Hd & Hin).
    apply list_elem_of_fmap in Hin. destruct Hin as (d0 & -> & Hin).
    rewrite Forall_forall in Husable.
    destruct (Husable d0 Hin) as [Hid [m Hm]].
    unfold field. rewrite Hd. split.
    - now rewrite labeled_id.
    - rewrite (labeled_tstamp _ _ Hm). eauto. }
  rewrite (bind_ok _ _ _ _ _
             (issues_filtered_run w4 lab timestamp
                (fun x Hx => proj2 (Hfields x Hx)))).
  rewrite (bind_ok _ _ _ _ _
             (discarded_issues_run w4 lab timestamp
                (fun x Hx => proj2 (Hfields x Hx)))).
  set (kept := List.filter (newer w4 timestamp) lab).
  set (discarded := List.filter (fun x => negb (newer w4 timestamp x)) lab).
  assert (Hkept : holds w4 kept
            (map labeled (List.filter (fresh timestamp) (res ++ upd)))).
  { rewrite <- filter_newer_labeled by assumption. now apply holds_filter. }
  assert (Hdisc : holds w4 discarded (map labeled stale)).
  { unfold stale. rewrite <- filter_stale_labeled by assumption.
    apply holds_filter_by; [| assumption].
    intros x d Hx. unfold newer, newer_dict, field. now rewrite Hx. }
  assert (Hbad : length lab - length kept = length stale).
  { rewrite Hlablen, (Forall2_length _ _ _ Hkept), length_map.
    unfold stale.
    pose proof (Permutation_length
                  (filter_split_perm (fresh timestamp) (res ++ upd))) as HP.
    rewrite length_app in HP. lia. }
  match goal with
  | |- context [Nat.eqb (?a - ?b) 0] =>
      replace (a - b) with (length stale) by (symmetry; exact Hbad)
  end.
  set (w5 := {| heap := heap w4;
                log := log w4
                       ++ (if Nat.eqb (length stale) 0 then []
                           else [(INFO, "Discarding "
                                        +:+ str_of_nat (length stale)
                                        +:+ " issues outside of time range")]);
                calls := calls w4 |}).
  assert (Hrun5 : (if Nat.eqb (length stale) 0 then ret tt
                   else logger INFO ("Discarding "
                                     +:+ str_of_nat (length stale)
                                     +:+ " issues outside of time range")) w4
                  = (inr tt, w5)).
  { unfold w5. destruct (Nat.eqb (length stale) 0).
    - unfold ret. rewrite app_nil_r. reflexivity.
    - reflexivity. }
  rewrite (bind_ok _ _ _ _ _ Hrun5).
  assert (Hfields5 : forall x, x ∈ discarded ->
            is_Some (field w5 x "id") /\ is_Some (field w5 x "tstamp")).
  { intros x Hx. apply list_elem_of_In, List.filter_In in Hx.
    destruct Hx as [Hx _]. apply list_elem_of_In in Hx.
    exact (Hfields x Hx). }
  rewrite (bind_ok _ _ _ _ _ (forM_log_run discarded w5 Hfields5)).
  set (w6 := {| heap := heap w5; log := _; calls := calls w5 |}).
  assert (Hids : forall x, x ∈ kept -> is_Some (field w6 x "id")).
  { intros x Hx. apply list_elem_of_In, List.filter_In in Hx.
    destruct Hx as [Hx _]. apply list_elem_of_In in Hx.
    exact (proj1 (Hfields x Hx)). }
  rewrite (bind_ok _ _ _ _ _ (deduplicate_issues_run w6 kept Hids)).
  eexists _, _. split; [reflexivity |].
  cbn [log w6 w5 w4 w3 w2 w1 set_heap].
  assert (Hdisc5 : holds w5 discarded (map labeled stale)) by exact Hdisc.
  rewrite (discarded_lines_labeled w5 discarded stale Hdisc5 Hts_stale).
  rewrite !length_seq. now rewrite <- !app_assoc.
Qed.

End Logged.

Lemma get_issues_touched_since_log_witness :
  let stale := List.filter (fun d => negb (fresh "2020-02-01" d))
                 (cx_resolved ++ cx_updated) in
  exists (out : list loc) (w' : world),
    get_issues_touched_since cx_list_all "2020-02-01" true world0 =
    (inr out, w') /\
    log w' =
    log world0
    ++ [(INFO, "Active issues: " +:+ str_of_nat (length cx_updated)
               +:+ " Resolved issues: " +:+ str_of_nat (length cx_resolved)
               +:+ ".")]
    ++ (if Nat.eqb (length stale) 0 then []
        else [(INFO, "Discarding " +:+ str_of_nat (length stale)
                     +:+ " issues outside of time range")])
    ++ map (fun d => discarded_line (idv d) (default VNone (tstamp_of d)))
           stale.
Proof.
  apply (get_issues_touched_since_log cx_list_all "2020-02-01" true
           cx_updated cx_resolved world0);
    [reflexivity | reflexivity | exact cx_usable].
Defined.
